(** * goada-wasm: the host side of the Ada URL parser running as a WebAssembly guest

    The repository ships the same adapter twice:
    - [goadawasm.go]: one module instance shared by the whole process, every
      exported function resolved with [wasmModule.ExportedFunction];
    - the parser package: one instance per [Parser], exported functions
      resolved through [Parser.getFunction], which memoizes them in
      [funcCache].
    The helpers and the constructors of the two files are the same text
    apart from the way an export is resolved (and the global mutex of the
    first file); they are embedded once, over the resolver, and instantiated
    in [Module Global] and [Module Pool].  The files differ in two more
    places, which the model keeps apart: [New] and [NewWithBase] of
    [goadawasm.go] start the process-wide module themselves, before they
    look at their arguments ([Global.ensureWasmInit]); and the accessors and
    the setters of the parser package reach the module through their
    receiver, [u.parser], so that they dereference [u] first ([receiver]).

    The guest (wazero's [api.Module]) is a black box: a table of exports, a
    linear memory, and a transition function for calls.  The host model keeps
    a log of every guest call it performs, so that "no guest call is made" is
    a statement about that log. *)

From Stdlib Require Import ZArith Lia List.
From Stdlib Require Import Strings.String Strings.Byte.
From stdpp Require Import base option list gmap strings.

Local Open Scope Z_scope.

(** ** Machine integers *)

(** [uint32(x)]: the conversion truncates.  The other conversion of the
    source, [uint64(x)], is applied to [uint32] values and to lengths only,
    which it leaves as they are; it is not written in the model. *)
Definition uint32 (x : Z) : Z := x mod 2 ^ 32.

(** ** Go values *)

(** [error] values of the package: its two sentinels, the errors built on the
    spot with [errors.New], and the errors wazero returns from a call. *)
Inductive error : Type :=
  | ErrEmptyString
  | ErrInvalidUrl
  | errors_New (msg : string)
  | ErrCall (msg : string).

(** Index of a function in the guest module; an [api.Function] is a non-nil
    handle on one of them, [nil] is [None]. *)
Definition funcidx := nat.

(** [len(s)] of a Go string: its number of bytes. *)
Definition len (s : string) : Z := Z.of_nat (String.length s).

(** A [*Url]: the address of the object in the host heap. *)
Definition ptr_Url := nat.

Record Url : Type := mkUrl {
  cpointer : Z;        (* uint32: pointer to the ada_url object in WASM memory *)
  finalizer : bool     (* whether runtime.SetFinalizer has a finalizer registered *)
}.

(** ** The guest module *)

Record Guest : Type := mkGuest {
  store : Type;
  (** [module.ExportedFunction(name)] *)
  ExportedFunction : string -> option funcidx;
  (** one call of a guest function on the linear memory and the guest's
      private state: the result words or an error, and the state after *)
  invoke : funcidx -> list Z -> list byte * store ->
           (list Z + string) * (list byte * store)
}.

(** One guest call performed by the host, with its outcome. *)
Inductive Event : Type :=
  | EvCall (f : funcidx) (args : list Z) (res : list Z + string).

(** Outcome of a host computation: a value, or a Go panic. *)

Inductive Res (A : Type) : Type :=
  | Ret (a : A)
  | Panic (msg : string).
Arguments Ret {A} a.
Arguments Panic {A} msg.

Section Host.

Context {G : Guest}.

(** The state the host code works on: the instance (linear memory and the
    guest's private state), the parser's function cache, the [Url] objects
    alive in the host heap, and the log of guest calls, newest first. *)
Record World : Type := mkWorld {
  Buffer : list byte;
  globals : store G;
  funcCache : gmap string funcidx;
  heap : list Url;
  trace : list Event
}.

Definition set_instance (m : list byte * store G) (w : World) : World :=
  mkWorld (fst m) (snd m) (funcCache w) (heap w) (trace w).
Definition set_Buffer (b : list byte) (w : World) : World :=
  mkWorld b (globals w) (funcCache w) (heap w) (trace w).
Definition set_funcCache (c : gmap string funcidx) (w : World) : World :=
  mkWorld (Buffer w) (globals w) c (heap w) (trace w).
Definition set_heap (h : list Url) (w : World) : World :=
  mkWorld (Buffer w) (globals w) (funcCache w) h (trace w).
Definition log (e : Event) (w : World) : World :=
  mkWorld (Buffer w) (globals w) (funcCache w) (heap w) (e :: trace w).

(** ** Host computations: state passing, with Go's panics *)

Definition M (A : Type) : Type := World -> Res A * World.

Definition ret {A} (a : A) : M A := fun w => (Ret a, w).

Definition bind {A B} (c : M A) (k : A -> M B) : M B :=
  fun w => match c w with
           | (Ret a, w') => k a w'
           | (Panic msg, w') => (Panic msg, w')
           end.

Definition panic {A} (msg : string) : M A := fun w => (Panic msg, w).

(** [defer cleanup] followed by [body]: the deferred call runs when the
    function returns, also when it returns by a panic; its results are
    dropped. *)
Definition defer {A B} (cleanup : M B) (body : M A) : M A :=
  fun w => let (r, w1) := body w in (r, snd (cleanup w1)).

End Host.

Arguments World : clear implicits.
Arguments M : clear implicits.

Declare Scope host_scope.
Delimit Scope host_scope with host.
Notation "'let*' x ':=' c 'in' k" :=
  (bind c (fun x => k))
  (at level 10, x pattern, c at level 100, k at level 200) : host_scope.
Local Open Scope host_scope.

Section Primitives.

Context {G : Guest}.

(** [results[0]]: indexing an empty slice panics. *)
Definition index0 (results : list Z) : M G Z :=
  match results with
  | r :: _ => ret r
  | [] => panic "index out of range [0] with length 0"
  end.

(** [fn.Call(ctx, args...)]: runs the guest function on the instance. *)
Definition Call (fn : funcidx) (args : list Z) : M G (list Z * option error) :=
  fun w =>
    let (res, m) := invoke G fn args (Buffer w, globals w) in
    let w' := log (EvCall fn args res) (set_instance m w) in
    match res with
    | inl results => (Ret (results, None), w')
    | inr msg => (Ret ([], Some (ErrCall msg)), w')
    end.

(** wazero's bounds check of a memory access, in 64 bits. *)
Definition hasSize (buf : list byte) (offset byteCount : Z) : bool :=
  offset + byteCount <=? Z.of_nat (length buf).

(** [module.Memory().Read(offset, byteCount)] *)
Definition Memory_Read (offset byteCount : Z) : M G (list byte * bool) :=
  fun w =>
    if hasSize (Buffer w) offset byteCount
    then (Ret (take (Z.to_nat byteCount) (drop (Z.to_nat offset) (Buffer w)), true), w)
    else (Ret ([], false), w).

(** [module.Memory().Write(offset, v)] *)
Definition Memory_Write (offset : Z) (v : list byte) : M G bool :=
  fun w =>
    if hasSize (Buffer w) offset (Z.of_nat (length v))
    then (Ret true,
          set_Buffer (take (Z.to_nat offset) (Buffer w) ++ v
                        ++ drop (Z.to_nat offset + length v) (Buffer w)) w)
    else (Ret false, w).

(** Dereference of a [*Url]. *)
Definition load (u : ptr_Url) : M G Url :=
  fun w => match heap w !! u with
           | Some o => (Ret o, w)
           | None => (Panic "invalid memory address or nil pointer dereference", w)
           end.

(** Assignment to the fields of a [*Url]. *)
Definition store_Url (u : ptr_Url) (o : Url) : M G unit :=
  fun w => match heap w !! u with
           | Some _ => (Ret tt, set_heap (<[u := o]> (heap w)) w)
           | None => (Panic "invalid memory address or nil pointer dereference", w)
           end.

(** [&Url{...}]: a fresh object. *)
Definition alloc_Url (o : Url) : M G ptr_Url :=
  fun w => (Ret (length (heap w)), set_heap (heap w ++ [o]) w).

(** [runtime.SetFinalizer(u, f)]; [registered] is [false] for [f = nil]. *)
Definition SetFinalizer (u : ptr_Url) (registered : bool) : M G unit :=
  let* o := load u in
  store_Url u (mkUrl (cpointer o) registered).

End Primitives.

(** ** The adapter, over the way an export is resolved

    [resolve name] stands for [wasmModule.ExportedFunction(name)] in
    [goadawasm.go] and for [p.getFunction(name)] in the parser package. *)

Section Operations.

Context {G : Guest}.
Variable resolve : string -> M G (option funcidx).

(** Helper function to allocate memory in WASM *)
Definition wasmMalloc (size : Z) : M G (Z * option error) :=
  let* malloc := resolve "malloc" in
  match malloc with
  | None => ret (0, Some (errors_New "malloc function not found"))
  | Some malloc =>
      let* (results, err) := Call malloc [size] in
      match err with
      | Some e => ret (0, Some e)
      | None => let* r0 := index0 results in ret (uint32 r0, None)
      end
  end.

(** Helper function to free memory in WASM *)
Definition wasmFree (ptr : Z) : M G (option error) :=
  let* free := resolve "free" in
  match free with
  | None => ret (Some (errors_New "free function not found"))
  | Some free =>
      let* (_, err) := Call free [ptr] in
      ret err
  end.

(** Helper function to write string to WASM memory and return pointer *)
Definition writeStringToWasm (s : string) : M G (Z * option error) :=
  if len s =? 0 then ret (0, None) else
  let* (ptr, err) := wasmMalloc (uint32 (len s)) in
  match err with
  | Some e => ret (0, Some e)
  | None =>
      let* ok := Memory_Write ptr (list_byte_of_string s) in
      if negb ok then
        let* _ := wasmFree ptr in
        ret (0, Some (errors_New "failed to write string to WASM memory"))
      else ret (ptr, None)
  end.

(** [uint32(b)] of a byte *)
Definition byte_to_uint32 (b : byte) : Z := Z.of_N (Byte.to_N b).

(** [bs[i]] on a slice the caller knows to be long enough *)
Definition at_ (bs : list byte) (i : nat) : byte := nth i bs Byte.x00.

(** [uint32(bs[i]) | uint32(bs[i+1])<<8 | uint32(bs[i+2])<<16 | uint32(bs[i+3])<<24] *)
Definition decode_uint32 (bs : list byte) (i : nat) : Z :=
  Z.lor (Z.lor (Z.lor (byte_to_uint32 (at_ bs i))
                      (uint32 (Z.shiftl (byte_to_uint32 (at_ bs (i + 1))) 8)))
               (uint32 (Z.shiftl (byte_to_uint32 (at_ bs (i + 2))) 16)))
        (uint32 (Z.shiftl (byte_to_uint32 (at_ bs (i + 3))) 24)).

(** Helper function to read ada_string from WASM memory *)
Definition readAdaString (fn : funcidx) (urlPtr : Z) : M G (string * option error) :=
  let* (resultPtr, err) := wasmMalloc 8 in
  match err with
  | Some e => ret (""%string, Some e)
  | None =>
      defer (wasmFree resultPtr) (
        let* (_, err) := Call fn [resultPtr; urlPtr] in
        match err with
        | Some e => ret (""%string, Some e)
        | None =>
            let* (resultBytes, ok) := Memory_Read resultPtr 8 in
            if negb ok then
              ret (""%string, Some (errors_New "failed to read result struct from memory"))
            else
              let bufferPtr := decode_uint32 resultBytes 0 in
              let length := decode_uint32 resultBytes 4 in
              if (bufferPtr =? 0) || (length =? 0) then ret (""%string, None) else
              let* (stringBytes, ok) := Memory_Read bufferPtr length in
              if negb ok then
                ret (""%string, Some (errors_New "failed to read string from memory"))
              else ret (string_of_list_byte stringBytes, None)
        end)
  end.

(** Helper function to call a boolean-returning Ada function *)
Definition callAdaBoolFunction (funcName : string) (urlPtr : Z) : M G bool :=
  let* fn := resolve funcName in
  match fn with
  | None => ret false
  | Some fn =>
      let* (results, err) := Call fn [urlPtr] in
      match err with
      | Some _ => ret false
      | None => let* r0 := index0 results in ret (negb (r0 =? 0))
      end
  end.

(** The call [adaFree.Call(ctx, uint64(ptr))] made when [ada_free] is
    exported; its results are dropped. *)
Definition call_ada_free (ptr : Z) : M G unit :=
  let* adaFree := resolve "ada_free" in
  match adaFree with
  | Some adaFree => let* _ := Call adaFree [ptr] in ret tt
  | None => ret tt
  end.

(** [free(u)] in [goadawasm.go], [u.ada_free()] in the parser package:
    frees the URL object in WASM memory *)
Definition ada_free (u : ptr_Url) : M G unit :=
  let* o := load u in
  if negb (cpointer o =? 0) then
    let* _ := call_ada_free (cpointer o) in
    let* o := load u in
    store_Url u (mkUrl 0 (finalizer o))
  else ret tt.

(** What both constructors do with the result of the parse call. *)
Definition wrap_parsed (results : list Z) : M G (option ptr_Url * option error) :=
  let* r0 := index0 results in
  let urlObjPtr := uint32 r0 in
  if urlObjPtr =? 0 then ret (None, Some ErrInvalidUrl) else
  let* valid := callAdaBoolFunction "ada_is_valid" urlObjPtr in
  if negb valid then
    let* _ := call_ada_free urlObjPtr in
    ret (None, Some ErrInvalidUrl)
  else
    let* url := alloc_Url (mkUrl urlObjPtr false) in
    let* _ := SetFinalizer url true in
    ret (Some url, None).

(** New parses the given string into a URL *)
Definition New (urlstring : string) : M G (option ptr_Url * option error) :=
  if len urlstring =? 0 then ret (None, Some ErrEmptyString) else
  let* (urlPtr, err) := writeStringToWasm urlstring in
  match err with
  | Some e => ret (None, Some e)
  | None =>
      defer (wasmFree urlPtr) (
        let* parseFunc := resolve "ada_parse" in
        match parseFunc with
        | None => ret (None, Some (errors_New "ada_parse function not found"))
        | Some parseFunc =>
            let* (results, err) := Call parseFunc [urlPtr; len urlstring] in
            match err with
            | Some e => ret (None, Some e)
            | None => wrap_parsed results
            end
        end)
  end.

(** NewWithBase parses the given strings into a URL with a base URL *)
Definition NewWithBase (urlstring basestring : string)
  : M G (option ptr_Url * option error) :=
  if (len urlstring =? 0) || (len basestring =? 0)
  then ret (None, Some ErrEmptyString) else
  let* (urlPtr, err) := writeStringToWasm urlstring in
  match err with
  | Some e => ret (None, Some e)
  | None =>
      defer (wasmFree urlPtr) (
        let* (basePtr, err) := writeStringToWasm basestring in
        match err with
        | Some e => ret (None, Some e)
        | None =>
            defer (wasmFree basePtr) (
              let* parseFunc := resolve "ada_parse_with_base" in
              match parseFunc with
              | None =>
                  ret (None, Some (errors_New "ada_parse_with_base function not found"))
              | Some parseFunc =>
                  let* (results, err) :=
                    Call parseFunc [urlPtr; len urlstring; basePtr; len basestring] in
                  match err with
                  | Some e => ret (None, Some e)
                  | None => wrap_parsed results
                  end
              end)
        end)
  end.

(** Free manually frees the URL object *)
Definition Free (u : ptr_Url) : M G unit :=
  let* _ := SetFinalizer u false in
  ada_free u.

(** The garbage collector running the finalizer of an unreachable [u]: the
    registered function, once. *)
Definition run_finalizer (u : ptr_Url) : M G unit :=
  let* o := load u in
  if finalizer o then
    let* _ := SetFinalizer u false in
    ada_free u
  else ret tt.

End Operations.

(** ** How a method reaches the module

    A method of [goadawasm.go] uses the package variable [wasmModule], and
    reads its receiver only where the text says [u.cpointer].  A method of
    the parser package goes through its receiver, [u.parser.getFunction],
    and so dereferences [u] before anything else.  Each resolver carries
    which of the two files it belongs to. *)
Class Reach {G : Guest} (resolve : string -> M G (option funcidx)) : Type :=
  through_receiver : bool.
Arguments through_receiver {G} resolve {Reach}.

Section Methods.

Context {G : Guest}.
Variable resolve : string -> M G (option funcidx).
Context {reach : Reach resolve}.

(** [u.parser], where a method of the parser package starts with it: a nil
    [u] panics there.  Nothing in [goadawasm.go]. *)
Definition receiver (u : ptr_Url) : M G unit :=
  if through_receiver resolve then let* _ := load u in ret tt else ret tt.

(** The boolean predicates: each one is
    [callAdaBoolFunction(<export>, u.cpointer)]. *)
Definition predicate (funcName : string) (u : ptr_Url) : M G bool :=
  let* o := load u in
  callAdaBoolFunction resolve funcName (cpointer o).

Definition Valid := predicate "ada_is_valid".
Definition HasCredentials := predicate "ada_has_credentials".
Definition HasEmptyHostname := predicate "ada_has_empty_hostname".
Definition HasHostname := predicate "ada_has_hostname".
Definition HasNonEmptyUsername := predicate "ada_has_non_empty_username".
Definition HasNonEmptyPassword := predicate "ada_has_non_empty_password".
Definition HasPort := predicate "ada_has_port".
Definition HasPassword := predicate "ada_has_password".
Definition HasHash := predicate "ada_has_hash".
Definition HasSearch := predicate "ada_has_search".

(** The field accessors share one body: resolve the getter, return [""]
    when it is missing, otherwise [result, _ := readAdaString(fn, u.cpointer)]
    with the error dropped.  In the parser package the getter is resolved
    with [u.parser.getFunction]. *)
Definition accessor (funcName : string) (u : ptr_Url) : M G string :=
  let* _ := receiver u in
  let* fn := resolve funcName in
  match fn with
  | None => ret ""%string
  | Some fn =>
      let* o := load u in
      let* (result, _) := readAdaString resolve fn (cpointer o) in
      ret result
  end.

Definition Href := accessor "ada_get_href".
Definition Username := accessor "ada_get_username".
Definition Password := accessor "ada_get_password".
Definition Port := accessor "ada_get_port".
Definition Hash := accessor "ada_get_hash".
Definition Host := accessor "ada_get_host".
Definition Hostname := accessor "ada_get_hostname".
Definition Pathname := accessor "ada_get_pathname".
Definition Search := accessor "ada_get_search".
Definition Protocol := accessor "ada_get_protocol".

(** Helper function to call setter functions that return bool *)
Definition callSetterBool (funcName value : string) (u : ptr_Url) : M G bool :=
  let* _ := receiver u in
  let* fn := resolve funcName in
  match fn with
  | None => ret false
  | Some fn =>
      let* (valuePtr, err) := writeStringToWasm resolve value in
      match err with
      | Some _ => ret false
      | None =>
          defer (wasmFree resolve valuePtr) (
            let* o := load u in
            let* (results, err) := Call fn [cpointer o; valuePtr; len value] in
            match err with
            | Some _ => ret false
            | None => let* r0 := index0 results in ret (negb (r0 =? 0))
            end)
      end
  end.

(** Helper function to call setter functions that return void *)
Definition callSetterVoid (funcName value : string) (u : ptr_Url) : M G unit :=
  let* _ := receiver u in
  let* fn := resolve funcName in
  match fn with
  | None => ret tt
  | Some fn =>
      let* (valuePtr, err) := writeStringToWasm resolve value in
      match err with
      | Some _ => ret tt
      | None =>
          defer (wasmFree resolve valuePtr) (
            let* o := load u in
            let* _ := Call fn [cpointer o; valuePtr; len value] in
            ret tt)
      end
  end.

Definition SetHref (s : string) := callSetterBool "ada_set_href" s.
Definition SetHost (s : string) := callSetterBool "ada_set_host" s.
Definition SetHostname (s : string) := callSetterBool "ada_set_hostname" s.
Definition SetProtocol (s : string) := callSetterBool "ada_set_protocol" s.
Definition SetUsername (s : string) := callSetterBool "ada_set_username" s.
Definition SetPassword (s : string) := callSetterBool "ada_set_password" s.
Definition SetPort (s : string) := callSetterBool "ada_set_port" s.
Definition SetPathname (s : string) := callSetterBool "ada_set_pathname" s.
Definition SetSearch (s : string) := callSetterVoid "ada_set_search" s.
Definition SetHash (s : string) := callSetterVoid "ada_set_hash" s.

End Methods.

(** ** [goadawasm.go]: the process-wide instance *)

Module Global.
Section Global.
Context {G : Guest}.

(** [wasmModule.ExportedFunction(name)] *)
Definition lookup_export (name : string) : M G (option funcidx) :=
  ret (ExportedFunction G name).

(** The methods of this file use [wasmModule], not their receiver. *)
#[global] Instance lookup_export_reach : Reach lookup_export := false.

(** What [initWasm] meets when it runs: [MustInstantiate] panics, or
    [wasmRuntime.Instantiate] returns an error, or it returns the module
    instance. *)
Inductive boot : Type :=
  | WasiPanics (msg : string)
  | InstantiateFails (err : string)
  | Instantiates (instance : list byte * store G).

(** The package variables [initOnce] and [wasmModule]: [initOnce] has not
    run yet, and [b] is what [initWasm] will meet; or it has run and
    [wasmModule] is the instance; or it has run, [initWasm] panicked, and
    [wasmModule] is nil. *)
Inductive Process : Type :=
  | NotStarted (b : boot)
  | Started (w : World G)
  | Failed.

(** Initialize the WASM runtime and module *)
Definition initWasm (b : boot) : Res unit * Process :=
  match b with
  | WasiPanics msg => (Panic msg, Failed)
  | InstantiateFails err =>
      (Panic ("failed to instantiate Ada WASM module: " ++ err), Failed)
  | Instantiates instance =>
      (Ret tt, Started (mkWorld (fst instance) (snd instance) ∅ [] []))
  end.

(** [initOnce.Do(initWasm)]: [initWasm] runs on the first call; a
    [sync.Once] whose function panicked counts as done, so no later call
    runs it again. *)
Definition ensureWasmInit (p : Process) : Res unit * Process :=
  match p with
  | NotStarted b => initWasm b
  | Started _ | Failed => (Ret tt, p)
  end.

(** Code that uses [wasmModule] from its first statement on: on the
    instance when there is one; a nil [wasmModule] panics at the first
    use. *)
Definition on_module {A} (c : M G A) (p : Process) : Res A * Process :=
  match p with
  | Started w => let (r, w') := c w in (r, Started w')
  | NotStarted _ | Failed =>
      (Panic "invalid memory address or nil pointer dereference", p)
  end.

(** [wasmMutex.Lock(); defer wasmMutex.Unlock()] serializes the callers;
    one caller at a time is what a state-passing function is, so the mutex
    leaves no trace in the definitions below. *)
Definition free := ada_free lookup_export.

(** New parses the given string into a URL.  [ensureWasmInit] comes first,
    then the check of the argument; what follows the check starts with
    [wasmModule.ExportedFunction] and is [New lookup_export]. *)
Definition New (urlstring : string) (p : Process)
  : Res (option ptr_Url * option error) * Process :=
  let (r, p1) := ensureWasmInit p in
  match r with
  | Panic msg => (Panic msg, p1)
  | Ret _ =>
      if len urlstring =? 0 then (Ret (None, Some ErrEmptyString), p1)
      else on_module (New lookup_export urlstring) p1
  end.

(** NewWithBase parses the given strings into a URL with a base URL *)
Definition NewWithBase (urlstring basestring : string) (p : Process)
  : Res (option ptr_Url * option error) * Process :=
  let (r, p1) := ensureWasmInit p in
  match r with
  | Panic msg => (Panic msg, p1)
  | Ret _ =>
      if (len urlstring =? 0) || (len basestring =? 0)
      then (Ret (None, Some ErrEmptyString), p1)
      else on_module (NewWithBase lookup_export urlstring basestring) p1
  end.

(** The methods do not call [ensureWasmInit]: they are given on the
    instance of the started module, where the handles of [New] live. *)
Definition Free := Free lookup_export.
Definition Valid := Valid lookup_export.
Definition Href := Href lookup_export.

End Global.
End Global.

(** ** The parser package: one instance per [Parser] *)

Module Pool.
Section Pool.
Context {G : Guest}.

(** getFunction gets a cached function or loads it from the module.  Run by
    one caller at a time the read lock and the write lock only bracket the
    two lookups. *)
Definition getFunction (name : string) : M G (option funcidx) :=
  fun w =>
    match funcCache w !! name with          (* under RLock *)
    | Some fn => (Ret (Some fn), w)
    | None =>
        match funcCache w !! name with      (* double-check under Lock *)
        | Some fn => (Ret (Some fn), w)
        | None =>
            match ExportedFunction G name with
            | Some fn =>
                (Ret (Some fn), set_funcCache (<[name := fn]> (funcCache w)) w)
            | None => (Ret None, w)
            end
        end
    end.

(** The methods of this file go through [u.parser]. *)
#[global] Instance getFunction_reach : Reach getFunction := true.

Definition ada_free := ada_free getFunction.
Definition New := New getFunction.
Definition NewWithBase := NewWithBase getFunction.
Definition Free := Free getFunction.
Definition Valid := Valid getFunction.
Definition Href := Href getFunction.

End Pool.
End Pool.

(** The two variants of the adapter. *)
Inductive variant : Type := SharedInstance | ParserInstance.

Definition resolver {G : Guest} (v : variant) : string -> M G (option funcidx) :=
  match v with
  | SharedInstance => Global.lookup_export
  | ParserInstance => Pool.getFunction
  end.

#[global] Instance resolver_reach {G : Guest} (v : variant) : Reach (resolver (G:=G) v) :=
  match v with
  | SharedInstance => false
  | ParserInstance => true
  end.

(** [NewParser]: a parser on a fresh instance, with an empty function cache. *)
Definition NewParser {G : Guest} (instance : list byte * store G) : World G :=
  mkWorld (fst instance) (snd instance) ∅ [] [].

(** ** Invariant of the function cache *)

(** Every cached handle is the export of its name. *)
Definition cache_ok {G : Guest} (w : World G) : Prop :=
  forall name fn, funcCache w !! name = Some fn -> ExportedFunction G name = Some fn.

(** What a variant needs of the world: nothing for the shared instance, a
    sound cache for a parser. *)
Definition consistent {G : Guest} (v : variant) (w : World G) : Prop :=
  match v with
  | SharedInstance => True
  | ParserInstance => cache_ok w
  end.

(** ** A test double of the guest

    A guest small enough to run inside the proof assistant: a bump allocator,
    a parser that accepts the inputs starting with [h], builds a structurally
    complete but invalid object for those starting with [x] and rejects the
    rest, and counters of what was freed. *)

Module Double.

Record state : Type := mkState {
  brk : Z;                 (* next free address of the bump allocator *)
  freed : list Z;          (* pointers passed to [free], newest first *)
  ada_freed : list Z       (* pointers passed to [ada_free], newest first *)
}.

Definition byte_of_Z (x : Z) : byte :=
  match Byte.of_N (Z.to_N (x mod 256)) with
  | Some b => b
  | None => Byte.x00
  end.

Definition Z_of_byte (b : byte) : Z := Z.of_N (Byte.to_N b).

Definition peek (mem : list byte) (a : Z) : option byte := mem !! Z.to_nat a.

Definition poke (mem : list byte) (a : Z) (v : list byte) : option (list byte) :=
  if (0 <=? a) && (a + Z.of_nat (length v) <=? Z.of_nat (length mem))
  then Some (take (Z.to_nat a) mem ++ v ++ drop (Z.to_nat a + length v) mem)
  else None.

Definition le32_bytes (x : Z) : list byte :=
  [byte_of_Z x; byte_of_Z (x / 2 ^ 8); byte_of_Z (x / 2 ^ 16); byte_of_Z (x / 2 ^ 24)].

Definition trap : list Z + string := inr "out of bounds memory access"%string.

(** The object built by the parser: a validity flag, the length of the
    input, and a copy of the input. *)
Definition parse (p n : Z) (mem : list byte) (s : state)
  : (list Z + string) * (list byte * state) :=
  match peek mem p with
  | None => (trap, (mem, s))
  | Some first =>
      let input := take (Z.to_nat n) (drop (Z.to_nat p) mem) in
      let build (flag : Z) :=
        match poke mem (brk s) (byte_of_Z flag :: byte_of_Z n :: input) with
        | Some mem' =>
            (inl [brk s], (mem', mkState (brk s + 2 + n) (freed s) (ada_freed s)))
        | None => (trap, (mem, s))
        end in
      if Z_of_byte first =? 104 then build 1        (* 'h' *)
      else if Z_of_byte first =? 120 then build 0   (* 'x' *)
      else (inl [0], (mem, s))
  end.

Definition exports (name : string) : option funcidx :=
  if String.eqb name "malloc" then Some 0%nat
  else if String.eqb name "free" then Some 1%nat
  else if String.eqb name "ada_parse" then Some 2%nat
  else if String.eqb name "ada_parse_with_base" then Some 3%nat
  else if String.eqb name "ada_is_valid" then Some 4%nat
  else if String.eqb name "ada_free" then Some 5%nat
  else if String.eqb name "ada_get_href" then Some 6%nat
  else if String.eqb name "ada_has_port" then Some 7%nat
  else None.

Definition run (f : funcidx) (args : list Z) (m : list byte * state)
  : (list Z + string) * (list byte * state) :=
  let (mem, s) := m in
  match f, args with
  | 0%nat, [n] => (inl [brk s], (mem, mkState (brk s + n) (freed s) (ada_freed s)))
  | 1%nat, [p] => (inl [], (mem, mkState (brk s) (p :: freed s) (ada_freed s)))
  | 2%nat, [p; n] => parse p n mem s
  | 3%nat, [p; n; bp; bn] =>
      match peek mem bp with
      | Some first =>
          if Z_of_byte first =? 104 then parse p n mem s else (inl [0], (mem, s))
      | None => (trap, (mem, s))
      end
  | 4%nat, [p] =>
      match peek mem p with
      | Some flag => (inl [Z_of_byte flag], (mem, s))
      | None => (trap, (mem, s))
      end
  | 5%nat, [p] => (inl [], (mem, mkState (brk s) (freed s) (p :: ada_freed s)))
  | 6%nat, [resultPtr; urlPtr] =>
      match peek mem (urlPtr + 1) with
      | Some n =>
          match poke mem resultPtr (le32_bytes (urlPtr + 2) ++ le32_bytes (Z_of_byte n)) with
          | Some mem' => (inl [], (mem', s))
          | None => (trap, (mem, s))
          end
      | None => (trap, (mem, s))
      end
  | 7%nat, [p] => (inl [0], (mem, s))
  | _, _ => (inr "invalid function call"%string, (mem, s))
  end.

Definition guest : Guest := mkGuest state exports run.

(** A fresh instance: 64 bytes of memory, the allocator starting at 8. *)
Definition fresh : World guest :=
  NewParser (G:=guest) (replicate 64 Byte.x00, mkState 8 [] []).

(** An instance whose allocator has four bytes left. *)
Definition nearly_full : World guest :=
  NewParser (G:=guest) (replicate 64 Byte.x00, mkState 60 [] []).

End Double.

(** The world after a successful [p.New("http")] on a fresh parser: one
    handle, at address 0 of the host heap, on the guest object at 12. *)
Definition parsed : World Double.guest :=
  snd (New Pool.getFunction "http" Double.fresh).

(** The same handle after [Free]. *)
Definition released : World Double.guest :=
  snd (Free Pool.getFunction 0%nat parsed).

(** ** Relating the two variants *)

(** Two worlds that differ in the function cache only. *)
Definition same_instance {G : Guest} (w1 w2 : World G) : Prop :=
  Buffer w1 = Buffer w2 /\ globals w1 = globals w2 /\
  heap w1 = heap w2 /\ trace w1 = trace w2.

(** [c1], run on a world with a sound cache, does what [c2] does on the
    same instance, and leaves a sound cache that kept every entry. *)
Definition sim {G : Guest} {A} (c1 c2 : M G A) : Prop :=
  forall w1 w2, same_instance w1 w2 -> cache_ok w1 ->
    fst (c1 w1) = fst (c2 w2) /\
    same_instance (snd (c1 w1)) (snd (c2 w2)) /\
    cache_ok (snd (c1 w1)) /\
    funcCache w1 ⊆ funcCache (snd (c1 w1)).

(** A computation that does not look at the cache and leaves it alone. *)
Definition cache_blind {G : Guest} {A} (c : M G A) : Prop :=
  forall w1 w2, same_instance w1 w2 ->
    fst (c w1) = fst (c w2) /\ same_instance (snd (c w1)) (snd (c w2)) /\
    funcCache (snd (c w1)) = funcCache w1.


(** ** Ways a handle is released, and operations on a raw guest pointer *)

(** A release of a handle: the caller's [Free], or the garbage collector
    running the finalizer that [New] registered. *)
Inductive release : Type := ExplicitFree | Finalizer.

Definition do_release {G : Guest} (resolve : string -> M G (option funcidx))
    (r : release) (u : ptr_Url) : M G unit :=
  match r with
  | ExplicitFree => Free resolve u
  | Finalizer => run_finalizer resolve u
  end.

(** Release attempts one after the other on the same handle. *)
Fixpoint do_releases {G : Guest} (resolve : string -> M G (option funcidx))
    (rs : list release) (u : ptr_Url) : M G unit :=
  match rs with
  | [] => ret tt
  | r :: rs => let* _ := do_release resolve r u in do_releases resolve rs u
  end.

(** Whether the release does anything at all on the object: [Free] always
    runs, the finalizer only while it is registered. *)
Definition fires (r : release) (o : Url) : Prop :=
  match r with
  | ExplicitFree => True
  | Finalizer => finalizer o = true
  end.

(** What an accessor does once the handle's pointer has been read. *)
Definition accessor_on {G : Guest} (resolve : string -> M G (option funcidx))
    (funcName : string) (ptr : Z) : M G string :=
  let* fn := resolve funcName in
  match fn with
  | None => ret ""%string
  | Some fn =>
      let* (result, _) := readAdaString resolve fn ptr in
      ret result
  end.

(** [results[0] != 0] on the outcome of a guest call, as the predicates and
    the setters read it: an error is [false]. *)
Definition first_word_nonzero (res : list Z + string) : option bool :=
  match res with
  | inl (r0 :: _) => Some (negb (r0 =? 0))
  | inl [] => None
  | inr _ => Some false
  end.

(** The error, if any, of a guest call. *)
Definition call_error (res : list Z + string) : option error :=
  match res with
  | inl _ => None
  | inr msg => Some (ErrCall msg)
  end.

(** What the two setter helpers do once the handle's pointer has been read. *)
Definition setter_bool_on {G : Guest} (resolve : string -> M G (option funcidx))
    (funcName value : string) (ptr : Z) : M G bool :=
  let* fn := resolve funcName in
  match fn with
  | None => ret false
  | Some fn =>
      let* (valuePtr, err) := writeStringToWasm resolve value in
      match err with
      | Some _ => ret false
      | None =>
          defer (wasmFree resolve valuePtr) (
            let* (results, err) := Call fn [ptr; valuePtr; len value] in
            match err with
            | Some _ => ret false
            | None => let* r0 := index0 results in ret (negb (r0 =? 0))
            end)
      end
  end.

Definition setter_void_on {G : Guest} (resolve : string -> M G (option funcidx))
    (funcName value : string) (ptr : Z) : M G unit :=
  let* fn := resolve funcName in
  match fn with
  | None => ret tt
  | Some fn =>
      let* (valuePtr, err) := writeStringToWasm resolve value in
      match err with
      | Some _ => ret tt
      | None =>
          defer (wasmFree resolve valuePtr) (
            let* _ := Call fn [ptr; valuePtr; len value] in
            ret tt)
      end
  end.

(** A computation that leaves the [Url] objects of the host alone. *)
Definition keeps_heap {G : Guest} {A} (c : M G A) : Prop :=
  forall w, heap (snd (c w)) = heap w.

(** ** The result struct, as the guest ABI describes it *)

(** The byte of linear memory at an address, as a number. *)
Definition mem_byte (mem : list byte) (a : Z) : Z :=
  Z.of_N (Byte.to_N (nth (Z.to_nat a) mem Byte.x00)).

(** An unsigned 32-bit little-endian field at address [a]: the byte at the
    lowest address is the least significant. *)
Definition le32 (mem : list byte) (a : Z) : Z :=
  mem_byte mem a + 2 ^ 8 * mem_byte mem (a + 1)
  + 2 ^ 16 * mem_byte mem (a + 2) + 2 ^ 24 * mem_byte mem (a + 3).

(** The bytes of linear memory from [a], [n] of them. *)
Definition mem_bytes (mem : list byte) (a n : Z) : list byte :=
  take (Z.to_nat n) (drop (Z.to_nat a) mem).

(** What [readAdaString] is to return, in the words of the ABI: [res] is the
    outcome of the getter call, [mem] the linear memory after it and
    [resultPtr] the scratch buffer.  A failed call is an error.  Otherwise
    the scratch buffer holds two little-endian 32-bit fields, the buffer
    pointer and then the length; a zero in either is the empty string and
    no error; otherwise the string is the [length] bytes at the buffer
    pointer.  A struct or a string outside the memory is an error. *)
Definition result_string (res : list Z + string) (mem : list byte) (resultPtr : Z)
  : string * option error :=
  match res with
  | inr msg => (""%string, Some (ErrCall msg))
  | inl _ =>
      if hasSize mem resultPtr 8 then
        let bufferPtr := le32 mem resultPtr in
        let length := le32 mem (resultPtr + 4) in
        if (bufferPtr =? 0) || (length =? 0) then (""%string, None)
        else if hasSize mem bufferPtr length
        then (string_of_list_byte (mem_bytes mem bufferPtr length), None)
        else (""%string, Some (errors_New "failed to read string from memory"))
      else (""%string, Some (errors_New "failed to read result struct from memory"))
  end.

(** ** Construction *)

(** What a constructor is given: [New(urlstring)] or
    [NewWithBase(urlstring, basestring)]. *)
Inductive source : Type :=
  | FromString (urlstring : string)
  | FromStringWithBase (urlstring basestring : string).

Definition construct {G : Guest} (resolve : string -> M G (option funcidx))
    (i : source) : M G (option ptr_Url * option error) :=
  match i with
  | FromString s => New resolve s
  | FromStringWithBase s b => NewWithBase resolve s b
  end.

(** The parse export a constructor calls. *)
Definition parse_export (i : source) : string :=
  match i with
  | FromString _ => "ada_parse"
  | FromStringWithBase _ _ => "ada_parse_with_base"
  end%string.

(** The constructor has copied its strings into guest memory: the parse
    call is next, with arguments [args], in world [w1]. *)
Definition reaches_parse {G : Guest} (resolve : string -> M G (option funcidx))
    (i : source) (w : World G) (args : list Z) (w1 : World G) : Prop :=
  match i with
  | FromString s =>
      s <> ""%string /\
      exists urlPtr,
        writeStringToWasm resolve s w = (Ret (urlPtr, None), w1) /\
        args = [urlPtr; len s]
  | FromStringWithBase s b =>
      s <> ""%string /\ b <> ""%string /\
      exists urlPtr basePtr w0,
        writeStringToWasm resolve s w = (Ret (urlPtr, None), w0) /\
        writeStringToWasm resolve b w0 = (Ret (basePtr, None), w1) /\
        args = [urlPtr; len s; basePtr; len b]
  end.

(** A string of [n] bytes, each the letter [a]. *)
Fixpoint string_of_length (n : nat) : string :=
  match n with
  | O => ""%string
  | S n => String (Ascii.ascii_of_byte Byte.x61) (string_of_length n)
  end.

(** What [callAdaBoolFunction(name, p)] answers on an instance in state [m]:
    [None] when the call returns no result word. *)
Definition predicate_outcome (G : Guest) (name : string) (p : Z)
    (m : list byte * store G) : option bool :=
  match ExportedFunction G name with
  | None => Some false
  | Some f => first_word_nonzero (fst (invoke G f [p] m))
  end.

(** The instance after that call. *)
Definition predicate_instance (G : Guest) (name : string) (p : Z)
    (m : list byte * store G) : list byte * store G :=
  match ExportedFunction G name with
  | None => m
  | Some f => snd (invoke G f [p] m)
  end.

(** The guest call [e] was made between the worlds [w] and [w']. *)
Definition called_since {G : Guest} (w w' : World G) (e : Event) : Prop :=
  exists pre post, trace w' = pre ++ e :: post ++ trace w.

(** A computation that only adds to the log of guest calls. *)
Definition extends_trace {G : Guest} {A} (c : M G A) : Prop :=
  forall w, exists evs, trace (snd (c w)) = evs ++ trace w.

(** The text both constructors share once their strings are in guest
    memory: resolve the parse export, call it, and wrap the result. *)
Definition parse_and_wrap {G : Guest} (resolve : string -> M G (option funcidx))
    (name notfound : string) (args : list Z) : M G (option ptr_Url * option error) :=
  let* parseFunc := resolve name in
  match parseFunc with
  | None => ret (None, Some (errors_New notfound))
  | Some parseFunc =>
      let* (results, err) := Call parseFunc args in
      match err with
      | Some e => ret (None, Some e)
      | None => wrap_parsed resolve results
      end
  end.

(** The world at the parse call's return. *)
Definition parsed_world {G : Guest} (w : World G) (fp : funcidx) (args : list Z) (res : list Z + string)
    (m : list byte * store G) : World G :=
  log (EvCall fp args res) (set_instance m w).


(** ** The methods of a handle, by family *)

Section Families.

Context {G : Guest}.
Variable resolve : string -> M G (option funcidx).
Context {reach : Reach resolve}.

(** The boolean predicates, each with the export it queries. *)
Definition predicates : list (string * (ptr_Url -> M G bool)) :=
  [ ("ada_is_valid", Valid resolve);
    ("ada_has_credentials", HasCredentials resolve);
    ("ada_has_empty_hostname", HasEmptyHostname resolve);
    ("ada_has_hostname", HasHostname resolve);
    ("ada_has_non_empty_username", HasNonEmptyUsername resolve);
    ("ada_has_non_empty_password", HasNonEmptyPassword resolve);
    ("ada_has_port", HasPort resolve);
    ("ada_has_password", HasPassword resolve);
    ("ada_has_hash", HasHash resolve);
    ("ada_has_search", HasSearch resolve) ]%string.

(** The field accessors, each with the getter it calls. *)
Definition accessors : list (string * (ptr_Url -> M G string)) :=
  [ ("ada_get_href", Href resolve);
    ("ada_get_username", Username resolve);
    ("ada_get_password", Password resolve);
    ("ada_get_port", Port resolve);
    ("ada_get_hash", Hash resolve);
    ("ada_get_host", Host resolve);
    ("ada_get_hostname", Hostname resolve);
    ("ada_get_pathname", Pathname resolve);
    ("ada_get_search", Search resolve);
    ("ada_get_protocol", Protocol resolve) ]%string.

(** The setters that report success, and those that return nothing. *)
Definition bool_setters : list (string * (string -> ptr_Url -> M G bool)) :=
  [ ("ada_set_href", SetHref resolve);
    ("ada_set_host", SetHost resolve);
    ("ada_set_hostname", SetHostname resolve);
    ("ada_set_protocol", SetProtocol resolve);
    ("ada_set_username", SetUsername resolve);
    ("ada_set_password", SetPassword resolve);
    ("ada_set_port", SetPort resolve);
    ("ada_set_pathname", SetPathname resolve) ]%string.

Definition void_setters : list (string * (string -> ptr_Url -> M G unit)) :=
  [ ("ada_set_search", SetSearch resolve);
    ("ada_set_hash", SetHash resolve) ]%string.

End Families.

(** ** [getFunction] under concurrent callers

    Several goroutines may share one [Parser].  [getFunction] is then a
    sequence of steps of each caller, interleaved with the steps of the
    others; the steps are the statements of the source between two
    operations on [p.mutex] or [p.funcCache]. *)

Module Concurrent.

(** Where a goroutine is in [getFunction(name)]. *)
Inductive pc : Type :=
  | AtRLock (name : string)                           (* p.mutex.RLock() *)
  | AtRead (name : string)                            (* fn, ok := p.funcCache[name] *)
  | AtRUnlock (name : string) (fn : option funcidx)   (* p.mutex.RUnlock() *)
  | AtCheck (name : string) (fn : option funcidx)     (* if ok { return fn } *)
  | AtLock (name : string)                            (* p.mutex.Lock() *)
  | AtRecheck (name : string)                         (* if fn, ok := p.funcCache[name]; ok *)
  | AtLookup (name : string)                          (* fn = p.module.ExportedFunction(name) *)
  | AtStore (name : string) (fn : option funcidx)     (* if fn != nil { p.funcCache[name] = fn } *)
  | AtUnlock (name : string) (fn : option funcidx)    (* the deferred p.mutex.Unlock() *)
  | Returned (name : string) (fn : option funcidx).   (* the call has returned fn *)

(** The parser as the goroutines see it: the cache, the lock, and the
    goroutines themselves.  The lock is a [sync.RWMutex]; who holds it is
    kept, by goroutine number, to state the invariants. *)
Record parser : Type := mkParser {
  funcCache : gmap string funcidx;
  readers : gset nat;
  writer : option nat;
  threads : list pc
}.

Definition set_funcCache (c : gmap string funcidx) (s : parser) : parser :=
  mkParser c (readers s) (writer s) (threads s).
Definition set_readers (r : gset nat) (s : parser) : parser :=
  mkParser (funcCache s) r (writer s) (threads s).
Definition set_writer (x : option nat) (s : parser) : parser :=
  mkParser (funcCache s) (readers s) x (threads s).
Definition set_threads (t : list pc) (s : parser) : parser :=
  mkParser (funcCache s) (readers s) (writer s) t.

Section Steps.

Variable G : Guest.

(** One statement of goroutine [i], standing at [p]: the parser after it
    and where the goroutine stands next; [None] when the goroutine has to
    wait for the lock, or is not in a call. *)
Definition statement (i : nat) (p : pc) (s : parser) : option (parser * pc) :=
  match p with
  | AtRLock name =>
      match writer s with
      | None => Some (set_readers ({[i]} ∪ readers s) s, AtRead name)
      | Some _ => None
      end
  | AtRead name => Some (s, AtRUnlock name (funcCache s !! name))
  | AtRUnlock name fn => Some (set_readers (readers s ∖ {[i]}) s, AtCheck name fn)
  | AtCheck name fn =>
      match fn with
      | Some _ => Some (s, Returned name fn)
      | None => Some (s, AtLock name)
      end
  | AtLock name =>
      match writer s with
      | None =>
          if decide (readers s = ∅)
          then Some (set_writer (Some i) s, AtRecheck name)
          else None
      | Some _ => None
      end
  | AtRecheck name =>
      match funcCache s !! name with
      | Some fn => Some (s, AtUnlock name (Some fn))
      | None => Some (s, AtLookup name)
      end
  | AtLookup name => Some (s, AtStore name (ExportedFunction G name))
  | AtStore name fn =>
      match fn with
      | Some f => Some (set_funcCache (<[name := f]> (funcCache s)) s, AtUnlock name fn)
      | None => Some (s, AtUnlock name fn)
      end
  | AtUnlock name fn => Some (set_writer None s, Returned name fn)
  | Returned _ _ => None
  end.

(** What the scheduler and the program can do next. *)
Inductive action : Type :=
  | Run (i : nat)                   (* goroutine [i] executes its statement *)
  | Call (i : nat) (name : string)  (* goroutine [i], back from a call, calls again *)
  | Go (name : string).             (* a new goroutine calls [getFunction(name)] *)

(** The parser after an action; an action that cannot happen leaves it as
    it is. *)
Definition exec (a : action) (s : parser) : parser :=
  match a with
  | Run i =>
      match threads s !! i with
      | Some p =>
          match statement i p s with
          | Some (s', p') => set_threads (<[i := p']> (threads s')) s'
          | None => s
          end
      | None => s
      end
  | Call i name =>
      match threads s !! i with
      | Some (Returned _ _) => set_threads (<[i := AtRLock name]> (threads s)) s
      | _ => s
      end
  | Go name => set_threads (threads s ++ [AtRLock name]) s
  end.

(** A schedule, run from a parser. *)
Definition run (schedule : list action) (s : parser) : parser :=
  foldl (fun s a => exec a s) s schedule.

(** [NewParser] before any goroutine uses the parser. *)
Definition init : parser := mkParser ∅ ∅ None [].

Definition holds_write (p : pc) : bool :=
  match p with
  | AtRecheck _ | AtLookup _ | AtStore _ _ | AtUnlock _ _ => true
  | _ => false
  end.

Definition holds_read (p : pc) : bool :=
  match p with
  | AtRead _ | AtRUnlock _ _ => true
  | _ => false
  end.

(** What a goroutine standing at [p] may rely on about the cache [c]. *)
Definition knows (c : gmap string funcidx) (p : pc) : Prop :=
  match p with
  | AtRUnlock name fn | AtCheck name fn => forall f, fn = Some f -> c !! name = Some f
  | AtLookup name => c !! name = None
  | AtStore name fn => c !! name = None /\ fn = ExportedFunction G name
  | AtUnlock name fn | Returned name fn => fn = ExportedFunction G name
  | _ => True
  end.

(** The invariant of the parser under any interleaving: the cache holds
    exports only; a writer excludes the readers; the goroutines inside the
    critical sections are exactly the holders of the lock; and each
    goroutine's view of the cache is accurate. *)
Record invariant (s : parser) : Prop := mkInvariant {
  inv_cache : forall name fn, funcCache s !! name = Some fn ->
                              ExportedFunction G name = Some fn;
  inv_exclusive : writer s <> None -> readers s = ∅;
  inv_readers : forall i, i ∈ readers s -> (i < length (threads s))%nat;
  inv_writer : forall i, writer s = Some i -> (i < length (threads s))%nat;
  inv_threads : forall i p, threads s !! i = Some p ->
      (holds_write p = true <-> writer s = Some i) /\
      (holds_read p = true <-> i ∈ readers s) /\
      knows (funcCache s) p
}.

End Steps.

End Concurrent.

(** Two goroutines resolve ["malloc"] on a fresh parser of the test double
    at the same time.  Both miss under the read lock; goroutine 0 takes the
    write lock, while goroutine 1 waits, and memoizes the export. *)
Definition first_caller : list Concurrent.action :=
  [ Concurrent.Go "malloc"; Concurrent.Go "malloc";
    Concurrent.Run 0; Concurrent.Run 0; Concurrent.Run 0; Concurrent.Run 0;
    Concurrent.Run 1; Concurrent.Run 1; Concurrent.Run 1; Concurrent.Run 1;
    Concurrent.Run 0; Concurrent.Run 1;
    Concurrent.Run 0; Concurrent.Run 0; Concurrent.Run 0; Concurrent.Run 0 ].


(** ** The adapter as its users drive it: sequences of API calls *)

(** One call of the host-facing surface.  The predicates, the accessors and
    the setters are given by the export they use. *)
Inductive api_call : Type :=
  | DoNew (urlstring : string)
  | DoNewWithBase (urlstring basestring : string)
  | DoFree (u : ptr_Url)
  | DoFinalizer (u : ptr_Url)
  | DoPredicate (funcName : string) (u : ptr_Url)
  | DoAccessor (funcName : string) (u : ptr_Url)
  | DoSetterBool (funcName value : string) (u : ptr_Url)
  | DoSetterVoid (funcName value : string) (u : ptr_Url).

(** What a call hands back to its caller. *)
Inductive answer : Type :=
  | AHandle (url : option ptr_Url) (err : option error)
  | ANothing
  | ABool (b : bool)
  | AString (s : string).

Definition api {G : Guest} (resolve : string -> M G (option funcidx))
    {reach : Reach resolve} (c : api_call) : M G answer :=
  match c with
  | DoNew s => let* r := New resolve s in ret (AHandle (fst r) (snd r))
  | DoNewWithBase s b => let* r := NewWithBase resolve s b in ret (AHandle (fst r) (snd r))
  | DoFree u => let* _ := Free resolve u in ret ANothing
  | DoFinalizer u => let* _ := run_finalizer resolve u in ret ANothing
  | DoPredicate name u => let* b := predicate resolve name u in ret (ABool b)
  | DoAccessor name u => let* s := accessor resolve name u in ret (AString s)
  | DoSetterBool name value u =>
      let* b := callSetterBool resolve name value u in ret (ABool b)
  | DoSetterVoid name value u =>
      let* _ := callSetterVoid resolve name value u in ret ANothing
  end.

(** A program of calls, run from a world: what each call answered (or that
    it panicked), oldest first, and the world at the end.  A panic that the
    caller recovers from leaves the world as the panic left it. *)
Fixpoint run_api {G : Guest} (resolve : string -> M G (option funcidx))
    {reach : Reach resolve} (calls : list api_call) (w : World G)
  : list (Res answer) * World G :=
  match calls with
  | [] => ([], w)
  | c :: calls =>
      let (r, w1) := api resolve c w in
      let (rs, w2) := run_api resolve calls w1 in
      (r :: rs, w2)
  end.

(** The receiver of an accessor or of a setter call. *)
Definition receiver_of (c : api_call) : option ptr_Url :=
  match c with
  | DoAccessor _ u | DoSetterBool _ _ u | DoSetterVoid _ _ u => Some u
  | _ => None
  end.

(** Every accessor and every setter of the program is called on a handle
    that exists when the call is made: none on a nil [*Url]. *)
Fixpoint on_handles {G : Guest} (resolve : string -> M G (option funcidx))
    {reach : Reach resolve} (calls : list api_call) (w : World G) : Prop :=
  match calls with
  | [] => True
  | c :: calls =>
      (forall u, receiver_of c = Some u -> is_Some (heap w !! u)) /\
      on_handles resolve calls (snd (api resolve c w))
  end.

(** A handle keeps its pointer or drops to the null sentinel. *)
Definition handle_evolves (o o' : Url) : Prop :=
  cpointer o' = cpointer o \/ cpointer o' = 0.

(** Every handle of [h] is still there in [h'], evolved. *)
Definition heap_evolves (h h' : list Url) : Prop :=
  forall (u : ptr_Url) o, h !! u = Some o -> exists o', h' !! u = Some o' /\ handle_evolves o o'.

(** A computation under which the handles only evolve. *)
Definition evolves {G : Guest} {A} (c : M G A) : Prop :=
  forall w, heap_evolves (heap w) (heap (snd (c w))).

(** The calls that query or update the URL behind a handle, as opposed to
    those that create or release handles. *)
Definition is_method (c : api_call) : bool :=
  match c with
  | DoPredicate _ _ | DoAccessor _ _ | DoSetterBool _ _ _ | DoSetterVoid _ _ _ => true
  | _ => false
  end.

(** ** What a constructor may hand back *)

(** The outcomes of a constructor run from [w]: a handle and no error, the
    handle being a new object that holds a non-null 32-bit pointer and has
    its finalizer registered; or no handle and an error, or a panic, and
    then the handles are as they were. *)
Definition constructor_outcome {G : Guest} (w : World G)
    (run : Res (option ptr_Url * option error) * World G) : Prop :=
  match run with
  | (Ret (Some u, None), w') =>
      u = length (heap w) /\
      exists p, 0 < p < 2 ^ 32 /\ heap w' = heap w ++ [mkUrl p true]
  | (Ret (None, Some _), w') => heap w' = heap w
  | (Ret _, _) => False
  | (Panic _, w') => heap w' = heap w
  end.

Definition constructs {G : Guest} (c : M G (option ptr_Url * option error)) : Prop :=
  forall w, constructor_outcome w (c w).

(** The guest buffers a constructor has allocated when it reaches the parse
    call with arguments [args]: the URL string first, then the base. *)
Definition input_buffers (i : source) (args : list Z) : list Z :=
  match i with
  | FromString _ => [nth 0 args 0]
  | FromStringWithBase _ _ => [nth 0 args 0; nth 2 args 0]
  end.

(** [evs] are calls of [free], one for each of [ptrs], in that order. *)
Definition frees (ff : funcidx) (ptrs : list Z) (evs : list Event) : Prop :=
  Forall2 (fun p e => exists res, e = EvCall ff [p] res) ptrs evs.

(** The deferred [wasmFree] calls of a constructor, as they run at its
    return: the buffer allocated last is freed first, so with [ptrs] in the
    order of allocation the calls run from the right. *)
Definition release_buffers {G : Guest} (resolve : string -> M G (option funcidx))
    (ptrs : list Z) (w : World G) : World G :=
  foldr (fun p w => snd (wasmFree resolve p w)) w ptrs.

(** The message of a constructor whose parse export is missing. *)
Definition not_found (i : source) : string :=
  (parse_export i ++ " function not found")%string.

(** The guest calls [fs] are the releases of [ptrs], or nothing at all when
    the guest exports no [free]. *)
Definition released_by (G : Guest) (ptrs : list Z) (fs : list Event) : Prop :=
  match ExportedFunction G "free" with
  | Some ff => frees ff ptrs fs
  | None => fs = []
  end.

(** ** A test double with a setter

    The guest of [Double] with one more export: [ada_set_port] accepts a
    value of at most five bytes and reports whether it did. *)

Module SetterDouble.

Definition exports (name : string) : option funcidx :=
  if String.eqb name "ada_set_port" then Some 8%nat else Double.exports name.

Definition run (f : funcidx) (args : list Z) (m : list byte * Double.state)
  : (list Z + string) * (list byte * Double.state) :=
  match f, args with
  | 8%nat, [p; valuePtr; n] => (inl [if n <=? 5 then 1 else 0], m)
  | _, _ => Double.run f args m
  end.

Definition guest : Guest := mkGuest Double.state exports run.

Definition fresh : World guest :=
  NewParser (G:=guest) (replicate 64 Byte.x00, Double.mkState 8 [] []).

(** After [New("http")] on the process-wide instance. *)
Definition parsed : World guest := snd (New Global.lookup_export "http" fresh).

End SetterDouble.

(** What a setter that reports success answers on the outcome of its guest
    call. *)
Definition setter_answer (res : list Z + string) : Res bool :=
  match first_word_nonzero res with
  | Some b => Ret b
  | None => Panic "index out of range [0] with length 0"
  end.

(** ** How far a caller of [getFunction] is from its return *)

(** The statements a goroutine standing at [p] has left at most. *)
Definition steps_left (p : Concurrent.pc) : nat :=
  match p with
  | Concurrent.AtRLock _ => 9
  | Concurrent.AtRead _ => 8
  | Concurrent.AtRUnlock _ _ => 7
  | Concurrent.AtCheck _ _ => 6
  | Concurrent.AtLock _ => 5
  | Concurrent.AtRecheck _ => 4
  | Concurrent.AtLookup _ => 3
  | Concurrent.AtStore _ _ => 2
  | Concurrent.AtUnlock _ _ => 1
  | Concurrent.Returned _ _ => 0
  end.

(** The statements all the goroutines of a parser have left at most. *)
Definition pending (s : Concurrent.parser) : nat :=
  sum_list (steps_left <$> Concurrent.threads s).

Definition is_returned (p : Concurrent.pc) : bool :=
  match p with
  | Concurrent.Returned _ _ => true
  | _ => false
  end.

(** A schedule that only lets goroutines run: no new call, no new
    goroutine. *)
Definition only_runs (schedule : list Concurrent.action) : Prop :=
  Forall (fun a => exists i, a = Concurrent.Run i) schedule.

(** ** Live handles *)

(** A handle is live when its pointer is not the null sentinel.  The
    handles are well kept when the live ones are exactly those with a
    registered finalizer. *)
Definition well_kept (h : list Url) : Prop :=
  forall (u : ptr_Url) o, h !! u = Some o -> (finalizer o = true <-> cpointer o <> 0).

Definition keeps_well {G : Guest} {A} (c : M G A) : Prop :=
  forall w, well_kept (heap w) -> well_kept (heap (snd (c w))).

(** * Proofs *)

(** ** The parser variant simulates the shared-instance variant *)

Section Simulation.

Context {G : Guest}.
Implicit Types w : World G.

Lemma same_instance_refl w : same_instance w w.
Proof. by repeat split. Qed.

Lemma cache_ok_NewParser instance : cache_ok (NewParser (G:=G) instance).
Proof. intros name fn H. cbn in H. rewrite lookup_empty in H. discriminate. Qed.

Lemma sim_ret {A} (a : A) : sim (G:=G) (ret a) (ret a).
Proof. intros w1 w2 Hs Hc. cbn. by split_and!. Qed.

Lemma sim_panic {A} msg : sim (G:=G) (A:=A) (panic msg) (panic msg).
Proof. intros w1 w2 Hs Hc. cbn. by split_and!. Qed.

Lemma sim_bind {A B} (c1 c2 : M G A) (k1 k2 : A -> M G B) :
  sim c1 c2 -> (forall a, sim (k1 a) (k2 a)) -> sim (bind c1 k1) (bind c2 k2).
Proof.
  intros Hc Hk w1 w2 Hs Hok. unfold bind.
  destruct (Hc w1 w2 Hs Hok) as (Hr & Hs' & Hok' & Hsub).
  destruct (c1 w1) as [r1 w1'], (c2 w2) as [r2 w2']. cbn in *. subst r2.
  destruct r1 as [a|msg]; cbn.
  - destruct (Hk a w1' w2' Hs' Hok') as (? & ? & ? & ?).
    split_and!; try done. by etrans.
  - by split_and!.
Qed.

Lemma sim_defer {A B} (d1 d2 : M G B) (c1 c2 : M G A) :
  sim d1 d2 -> sim c1 c2 -> sim (defer d1 c1) (defer d2 c2).
Proof.
  intros Hd Hc w1 w2 Hs Hok. unfold defer.
  destruct (Hc w1 w2 Hs Hok) as (Hr & Hs' & Hok' & Hsub).
  destruct (c1 w1) as [r1 w1'], (c2 w2) as [r2 w2']. cbn in *.
  destruct (Hd w1' w2' Hs' Hok') as (_ & ? & ? & ?).
  split_and!; try done. by etrans.
Qed.

Lemma sim_blind {A} (c : M G A) : cache_blind c -> sim c c.
Proof.
  intros Hb w1 w2 Hs Hok. destruct (Hb w1 w2 Hs) as (? & ? & Hc).
  split_and!; try done.
  - intros name fn. rewrite Hc. apply Hok.
  - by rewrite Hc.
Qed.

Lemma blind_index0 results : cache_blind (index0 (G:=G) results).
Proof. intros w1 w2 Hs. by destruct results. Qed.

Lemma blind_Call fn args : cache_blind (Call (G:=G) fn args).
Proof.
  intros w1 w2 (Hb & Hg & Hh & Ht). unfold Call. rewrite Hb, Hg.
  destruct (invoke G fn args (Buffer w2, globals w2)) as [[results|msg] m];
    unfold same_instance; cbn; rewrite ?Hh, ?Ht; by split_and!.
Qed.

Lemma blind_Memory_Read offset n : cache_blind (Memory_Read (G:=G) offset n).
Proof.
  intros w1 w2 Hs. pose proof Hs as (Hb & Hg & Hh & Ht). unfold Memory_Read.
  rewrite Hb. by destruct (hasSize _ _ _).
Qed.

Lemma blind_Memory_Write offset v : cache_blind (Memory_Write (G:=G) offset v).
Proof.
  intros w1 w2 Hs. pose proof Hs as (Hb & Hg & Hh & Ht). unfold Memory_Write.
  rewrite Hb. destruct (hasSize _ _ _); [|done].
  unfold same_instance; cbn. rewrite ?Hg, ?Hh, ?Ht. by split_and!.
Qed.

Lemma blind_load u : cache_blind (load (G:=G) u).
Proof.
  intros w1 w2 Hs. pose proof Hs as (Hb & Hg & Hh & Ht). unfold load.
  rewrite Hh. by destruct (heap w2 !! u).
Qed.

Lemma blind_store_Url u o : cache_blind (store_Url (G:=G) u o).
Proof.
  intros w1 w2 Hs. pose proof Hs as (Hb & Hg & Hh & Ht). unfold store_Url.
  rewrite Hh. destruct (heap w2 !! u); [|done].
  unfold same_instance; cbn. rewrite ?Hb, ?Hg, ?Hh, ?Ht. by split_and!.
Qed.

Lemma blind_alloc_Url o : cache_blind (alloc_Url (G:=G) o).
Proof.
  intros w1 w2 (Hb & Hg & Hh & Ht). unfold alloc_Url, same_instance. cbn.
  rewrite ?Hb, ?Hg, ?Hh, ?Ht. by split_and!.
Qed.

(** The memoizing resolver against the plain lookup. *)
Lemma sim_getFunction name :
  sim (Pool.getFunction (G:=G) name) (Global.lookup_export name).
Proof.
  intros w1 w2 Hs Hok. unfold Pool.getFunction, Global.lookup_export, ret.
  destruct (funcCache w1 !! name) as [fn|] eqn:Hc; cbn.
  - rewrite (Hok _ _ Hc). by split_and!.
  - destruct (ExportedFunction G name) as [fn|] eqn:He; cbn.
    + split_and!; try apply Hs; try done.
      * intros n f. cbn. destruct (decide (name = n)) as [<-|Hne].
        -- rewrite lookup_insert_eq. congruence.
        -- rewrite lookup_insert_ne by done. apply Hok.
      * by apply insert_subseteq.
    + by split_and!.
Qed.

End Simulation.

Create HintDb sim discriminated.
#[export] Hint Resolve sim_ret sim_panic sim_getFunction : sim.
#[export] Hint Resolve blind_index0 blind_Call blind_Memory_Read blind_Memory_Write
  blind_load blind_store_Url blind_alloc_Url : sim.

(** Walks two computations of the same shape. *)
Ltac sim_step :=
  first
    [ solve [auto with sim]
    | apply sim_blind; solve [auto with sim]
    | apply sim_bind; [| intros ?]
    | apply sim_defer
    | match goal with
      | |- sim (match ?x with _ => _ end) _ => destruct x
      | |- sim (if ?x then _ else _) _ => destruct x
      end ].
Ltac sim_walk := repeat sim_step.

Section SimulationOfOperations.

Context {G : Guest}.
Variables r1 r2 : string -> M G (option funcidx).
Hypothesis Hres : forall name, sim (r1 name) (r2 name).
Hint Resolve Hres : sim.

Lemma sim_SetFinalizer u b : sim (SetFinalizer (G:=G) u b) (SetFinalizer u b).
Proof. unfold SetFinalizer. sim_walk. Qed.
Hint Resolve sim_SetFinalizer : sim.

Lemma sim_wasmMalloc size : sim (wasmMalloc r1 size) (wasmMalloc r2 size).
Proof. unfold wasmMalloc. sim_walk. Qed.
Hint Resolve sim_wasmMalloc : sim.

Lemma sim_wasmFree ptr : sim (wasmFree r1 ptr) (wasmFree r2 ptr).
Proof. unfold wasmFree. sim_walk. Qed.
Hint Resolve sim_wasmFree : sim.

Lemma sim_writeStringToWasm s : sim (writeStringToWasm r1 s) (writeStringToWasm r2 s).
Proof. unfold writeStringToWasm. sim_walk. Qed.
Hint Resolve sim_writeStringToWasm : sim.

Lemma sim_readAdaString fn p : sim (readAdaString r1 fn p) (readAdaString r2 fn p).
Proof. unfold readAdaString. sim_walk. Qed.
Hint Resolve sim_readAdaString : sim.

Lemma sim_callAdaBoolFunction name p :
  sim (callAdaBoolFunction r1 name p) (callAdaBoolFunction r2 name p).
Proof. unfold callAdaBoolFunction. sim_walk. Qed.
Hint Resolve sim_callAdaBoolFunction : sim.

Lemma sim_call_ada_free p : sim (call_ada_free r1 p) (call_ada_free r2 p).
Proof. unfold call_ada_free. sim_walk. Qed.
Hint Resolve sim_call_ada_free : sim.

Lemma sim_ada_free u : sim (ada_free r1 u) (ada_free r2 u).
Proof. unfold ada_free. sim_walk. Qed.
Hint Resolve sim_ada_free : sim.

Lemma sim_wrap_parsed results : sim (wrap_parsed r1 results) (wrap_parsed r2 results).
Proof. unfold wrap_parsed. sim_walk. Qed.
Hint Resolve sim_wrap_parsed : sim.

Lemma sim_New s : sim (New r1 s) (New r2 s).
Proof. unfold New. sim_walk. Qed.

Lemma sim_NewWithBase s b : sim (NewWithBase r1 s b) (NewWithBase r2 s b).
Proof. unfold NewWithBase. sim_walk. Qed.

Lemma sim_Free u : sim (Free r1 u) (Free r2 u).
Proof. unfold Free. sim_walk. Qed.

Lemma sim_run_finalizer u : sim (run_finalizer r1 u) (run_finalizer r2 u).
Proof. unfold run_finalizer. sim_walk. Qed.

Lemma sim_predicate name u : sim (predicate r1 name u) (predicate r2 name u).
Proof. unfold predicate. sim_walk. Qed.

(** The accessors and the setters, from the point where the handle's
    pointer is known. *)
Lemma sim_accessor_on name ptr : sim (accessor_on r1 name ptr) (accessor_on r2 name ptr).
Proof. unfold accessor_on. sim_walk. Qed.

Lemma sim_setter_bool_on name value ptr :
  sim (setter_bool_on r1 name value ptr) (setter_bool_on r2 name value ptr).
Proof. unfold setter_bool_on. sim_walk. Qed.

Lemma sim_setter_void_on name value ptr :
  sim (setter_void_on r1 name value ptr) (setter_void_on r2 name value ptr).
Proof. unfold setter_void_on. sim_walk. Qed.

End SimulationOfOperations.

(** Both variants against the plain lookup. *)
Lemma sim_resolver {G : Guest} name :
  sim (resolver (G:=G) ParserInstance name) (Global.lookup_export name).
Proof. apply sim_getFunction. Qed.

(** An operation written over the resolver does in either variant what it
    does with the plain export lookup, on the same instance. *)
Lemma variant_run {G : Guest} {A}
    (op : (string -> M G (option funcidx)) -> M G A) (v : variant) (w : World G) :
  (forall r1 r2, (forall name, sim (r1 name) (r2 name)) -> sim (op r1) (op r2)) ->
  consistent v w ->
  fst (op (resolver v) w) = fst (op Global.lookup_export w) /\
  same_instance (snd (op (resolver v) w)) (snd (op Global.lookup_export w)) /\
  consistent v (snd (op (resolver v) w)).
Proof.
  intros Hop Hc. destruct v; cbn.
  - by split_and!.
  - destruct (Hop _ _ sim_resolver w w (same_instance_refl w) Hc) as (? & ? & ? & ?).
    by split_and!.
Qed.


(** The worlds of the test double used below have sound caches: they come
    from a fresh parser by [New] and [Free]. *)
Lemma cache_ok_parsed : cache_ok parsed.
Proof.
  unfold parsed.
  by destruct (sim_New Pool.getFunction Global.lookup_export sim_getFunction "http"
                 Double.fresh Double.fresh (same_instance_refl _) (cache_ok_NewParser _))
    as (_ & _ & H & _).
Qed.

Lemma cache_ok_released : cache_ok released.
Proof.
  unfold released.
  by destruct (sim_Free Pool.getFunction Global.lookup_export sim_getFunction 0%nat
                 parsed parsed (same_instance_refl _) cache_ok_parsed)
    as (_ & _ & H & _).
Qed.
(** ** The two files, as instances of the adapter over the resolver *)

(** What [goadawasm.go] and the parser package export is the adapter
    instantiated with their resolver; for the constructors of
    [goadawasm.go], once the process-wide module has been started. *)
Lemma variants_are_instances (G : Guest) (w : World G) s b u :
  Global.New s (Global.Started w) =
    (fst (construct (resolver SharedInstance) (FromString s) w),
     Global.Started (snd (construct (resolver SharedInstance) (FromString s) w))) /\
  Global.NewWithBase s b (Global.Started w) =
    (fst (construct (resolver SharedInstance) (FromStringWithBase s b) w),
     Global.Started (snd (construct (resolver SharedInstance) (FromStringWithBase s b) w))) /\
  Global.free u w = ada_free (resolver SharedInstance) u w /\
  Global.Free u w = do_release (resolver SharedInstance) ExplicitFree u w /\
  Global.Valid u w = predicate (resolver SharedInstance) "ada_is_valid" u w /\
  Global.Href u w = accessor (resolver SharedInstance) "ada_get_href" u w /\
  Pool.New s w = construct (resolver ParserInstance) (FromString s) w /\
  Pool.NewWithBase s b w = construct (resolver ParserInstance) (FromStringWithBase s b) w /\
  Pool.ada_free u w = ada_free (resolver ParserInstance) u w /\
  Pool.Free u w = do_release (resolver ParserInstance) ExplicitFree u w /\
  Pool.Valid u w = predicate (resolver ParserInstance) "ada_is_valid" u w /\
  Pool.Href u w = accessor (resolver ParserInstance) "ada_get_href" u w.
Proof.
  split_and!; try reflexivity.
  - unfold Global.New. cbn [Global.ensureWasmInit construct resolver].
    destruct (len s =? 0) eqn:Hl.
    + unfold New. by rewrite Hl.
    + cbn [Global.on_module]. by destruct (New Global.lookup_export s w).
  - unfold Global.NewWithBase. cbn [Global.ensureWasmInit construct resolver].
    destruct ((len s =? 0) || (len b =? 0)) eqn:Hl.
    + unfold NewWithBase. by rewrite Hl.
    + cbn [Global.on_module]. by destruct (NewWithBase Global.lookup_export s b w).
Qed.

(** ** Construction and empty strings *)

(** C5. [New("")] of the parser package fails with [ErrEmptyString] whatever
    the guest module exports or would do and whatever state the instance,
    the cache and the heap are in, and leaves the world as it was.  [New("")]
    of [goadawasm.go] runs [ensureWasmInit] before it looks at its argument.
    Once the process-wide module has been started, and also after a start
    that failed, it fails with [ErrEmptyString] and changes nothing.  On the
    first call it starts the module: when that succeeds it fails with
    [ErrEmptyString], leaving the new instance behind; when the module
    cannot be instantiated it panics and returns no error at all. *)
Theorem New_empty_string (G : Guest) :
  (forall w : World G, Pool.New "" w = (Ret (None, Some ErrEmptyString), w)) /\
  (forall w : World G,
     Global.New "" (Global.Started w)
       = (Ret (None, Some ErrEmptyString), Global.Started w)) /\
  Global.New (G:=G) "" Global.Failed = (Ret (None, Some ErrEmptyString), Global.Failed) /\
  (forall instance,
     Global.New (G:=G) "" (Global.NotStarted (Global.Instantiates instance))
       = (Ret (None, Some ErrEmptyString), Global.Started (NewParser instance))) /\
  (forall err,
     Global.New (G:=G) "" (Global.NotStarted (Global.InstantiateFails err))
       = (Panic ("failed to instantiate Ada WASM module: " ++ err), Global.Failed)) /\
  (forall msg,
     Global.New (G:=G) "" (Global.NotStarted (Global.WasiPanics msg))
       = (Panic msg, Global.Failed)).
Proof. split_and!; intros; reflexivity. Qed.

(** C5, as the claim has it, fails: the first [New("")] of [goadawasm.go] in
    a process whose module cannot be instantiated panics in [initWasm],
    before the empty-string check, and leaves [wasmModule] nil. *)
Lemma New_empty_string_panics_when_init_fails :
  fst (Global.New (G:=Double.guest) ""
         (Global.NotStarted (Global.InstantiateFails "invalid magic number")))
    = Panic "failed to instantiate Ada WASM module: invalid magic number" /\
  fst (Global.New (G:=Double.guest) ""
         (Global.NotStarted (Global.InstantiateFails "invalid magic number")))
    <> Ret (None, Some ErrEmptyString) /\
  snd (Global.New (G:=Double.guest) ""
         (Global.NotStarted (Global.InstantiateFails "invalid magic number")))
    = Global.Failed.
Proof. split_and!; [reflexivity | discriminate | reflexivity]. Qed.

Lemma len_zero (s : string) : len s = 0 <-> s = ""%string.
Proof.
  unfold len. destruct s; cbn; split; try done; lia.
Qed.

(** C10. [NewWithBase] with an empty URL string or an empty base string.  In
    the parser package it fails with [ErrEmptyString] and leaves the world
    as it was: guest memory is not touched.  In [goadawasm.go] the check
    comes after [ensureWasmInit]: with the module started (or its start
    failed before) the call fails with [ErrEmptyString] and changes nothing;
    the first call instantiates the module, and then fails with
    [ErrEmptyString], or panics when the module cannot be instantiated. *)
Theorem NewWithBase_empty_string (G : Guest) (urlstring basestring : string) :
  urlstring = ""%string \/ basestring = ""%string ->
  (forall w : World G,
     Pool.NewWithBase urlstring basestring w = (Ret (None, Some ErrEmptyString), w)) /\
  (forall w : World G,
     Global.NewWithBase urlstring basestring (Global.Started w)
       = (Ret (None, Some ErrEmptyString), Global.Started w)) /\
  Global.NewWithBase (G:=G) urlstring basestring Global.Failed
    = (Ret (None, Some ErrEmptyString), Global.Failed) /\
  (forall instance,
     Global.NewWithBase (G:=G) urlstring basestring
       (Global.NotStarted (Global.Instantiates instance))
       = (Ret (None, Some ErrEmptyString), Global.Started (NewParser instance))) /\
  (forall err,
     Global.NewWithBase (G:=G) urlstring basestring
       (Global.NotStarted (Global.InstantiateFails err))
       = (Panic ("failed to instantiate Ada WASM module: " ++ err), Global.Failed)) /\
  (forall msg,
     Global.NewWithBase (G:=G) urlstring basestring
       (Global.NotStarted (Global.WasiPanics msg))
       = (Panic msg, Global.Failed)).
Proof.
  intros H.
  assert (Hb : (len urlstring =? 0) || (len basestring =? 0) = true).
  { apply orb_true_iff. destruct H as [->| ->]; [left|right]; reflexivity. }
  unfold Global.NewWithBase, Pool.NewWithBase, NewWithBase.
  split_and!; intros; cbn [Global.ensureWasmInit Global.initWasm];
    rewrite ?Hb; reflexivity.
Qed.

Lemma NewWithBase_empty_string_witness :
  Pool.NewWithBase "https://example.com/" "" Double.fresh
    = (Ret (None, Some ErrEmptyString), Double.fresh) /\
  Global.NewWithBase "https://example.com/" "" (Global.Started Double.fresh)
    = (Ret (None, Some ErrEmptyString), Global.Started Double.fresh).
Proof.
  destruct (NewWithBase_empty_string Double.guest "https://example.com/" "")
    as (Hp & Hg & _).
  - right. reflexivity.
  - split; [apply Hp | apply Hg].
Defined.

(** C10, as the claim has it, fails: the first [NewWithBase] of
    [goadawasm.go] with an empty base instantiates the module, guest memory
    included, before it rejects the argument; and in a process whose module
    cannot be instantiated it panics instead of returning
    [ErrEmptyString]. *)
Lemma NewWithBase_empty_base_starts_the_module :
  Global.NewWithBase (G:=Double.guest) "https://example.com/" ""
    (Global.NotStarted
       (Global.Instantiates (G:=Double.guest)
          (replicate 64 Byte.x00, Double.mkState 8 [] [])))
    = (Ret (None, Some ErrEmptyString), Global.Started Double.fresh) /\
  fst (Global.NewWithBase (G:=Double.guest) "https://example.com/" ""
         (Global.NotStarted (Global.InstantiateFails "invalid magic number")))
    = Panic "failed to instantiate Ada WASM module: invalid magic number" /\
  fst (Global.NewWithBase (G:=Double.guest) "https://example.com/" ""
         (Global.NotStarted (Global.InstantiateFails "invalid magic number")))
    <> Ret (None, Some ErrEmptyString).
Proof. split_and!; [reflexivity | reflexivity | discriminate]. Qed.

(** ** Releasing guest memory and handles *)

Section Release.

Context {G : Guest}.
Implicit Types w : World G.

(** Resolving an export never fails and touches the cache only. *)
Lemma resolver_frame (v : variant) name w :
  exists r c, resolver v name w = (Ret r, set_funcCache c w).
Proof.
  destruct v; cbn.
  - exists (ExportedFunction G name), (funcCache w). by destruct w.
  - unfold Pool.getFunction.
    destruct (funcCache w !! name) as [fn|].
    + exists (Some fn), (funcCache w). by destruct w.
    + destruct (ExportedFunction G name) as [fn|].
      * by eexists _, _.
      * exists None, (funcCache w). by destruct w.
Qed.

Lemma wasmFree_shared ptr w :
  wasmFree Global.lookup_export ptr w =
  match ExportedFunction G "free" with
  | Some free =>
      let (res, m) := invoke G free [ptr] (Buffer w, globals w) in
      (Ret (call_error res), log (EvCall free [ptr] res) (set_instance m w))
  | None => (Ret (Some (errors_New "free function not found")), w)
  end.
Proof.
  unfold wasmFree, Global.lookup_export, bind, ret, Call.
  destruct (ExportedFunction G "free") as [free|]; [|done].
  by destruct (invoke G free [ptr] (Buffer w, globals w)) as [[results|msg] m].
Qed.

(** C7, as the code has it.  [wasmFree] has no test of its argument: when the
    module exports [free], it calls it once with the pointer it was given,
    the null sentinel included; it makes no guest call only when the export
    is missing, and then reports the missing function. *)
Theorem wasmFree_calls_guest_for_every_pointer (v : variant) w (ptr : Z) :
  consistent v w ->
  match ExportedFunction G "free" with
  | Some free =>
      trace (snd (wasmFree (resolver v) ptr w)) =
        EvCall free [ptr] (fst (invoke G free [ptr] (Buffer w, globals w))) :: trace w
  | None =>
      trace (snd (wasmFree (resolver v) ptr w)) = trace w /\
      fst (wasmFree (resolver v) ptr w) = Ret (Some (errors_New "free function not found"))
  end.
Proof.
  intros Hc.
  destruct (variant_run (fun r => wasmFree r ptr) v w) as (Hr & (_ & _ & _ & Ht) & _);
    [intros; by apply sim_wasmFree | done |].
  rewrite Hr, Ht, wasmFree_shared.
  destruct (ExportedFunction G "free") as [free|]; [|done].
  by destruct (invoke G free [ptr] (Buffer w, globals w)).
Qed.

Lemma SetFinalizer_run u o b w :
  heap w !! u = Some o ->
  SetFinalizer u b w = (Ret tt, set_heap (<[u := mkUrl (cpointer o) b]> (heap w)) w).
Proof. intros H. unfold SetFinalizer, bind, load, store_Url. by rewrite H, H. Qed.

Lemma call_ada_free_frame (v : variant) p w :
  exists w', call_ada_free (resolver v) p w = (Ret tt, w') /\
    heap w' = heap w /\
    (trace w' = trace w \/
     exists f res, trace w' = EvCall f [p] res :: trace w).
Proof.
  unfold call_ada_free, bind.
  destruct (resolver_frame v "ada_free" w) as (r & c & ->).
  destruct r as [f|]; cbn.
  - unfold Call. cbn.
    destruct (invoke G f [p] (Buffer w, globals w)) as [[results|msg] m]; cbn.
    all: eexists; split; [reflexivity|]; split; [reflexivity|]; right; by eexists _, _.
  - eexists; split; [reflexivity|]; split; [reflexivity|]. by left.
Qed.

(** [ada_free] on a handle whose pointer is already the null sentinel does
    nothing at all. *)
Lemma ada_free_null (v : variant) u o w :
  heap w !! u = Some o -> cpointer o = 0 ->
  ada_free (resolver v) u w = (Ret tt, w).
Proof.
  intros H H0. unfold ada_free, bind, load. rewrite H, H0. done.
Qed.

(** [ada_free] always returns, and leaves the null sentinel in the handle;
    it made at most one guest call, on the pointer the handle held. *)
Lemma ada_free_clears (v : variant) u o w :
  heap w !! u = Some o ->
  exists w', ada_free (resolver v) u w = (Ret tt, w') /\
    heap w' = <[u := mkUrl 0 (finalizer o)]> (heap w) /\
    (trace w' = trace w \/
     exists f res, trace w' = EvCall f [cpointer o] res :: trace w).
Proof.
  intros H. destruct (Z.eq_dec (cpointer o) 0) as [H0|Hn].
  - rewrite (ada_free_null v u o w H H0). eexists; split_and!; try done; [|by left].
    symmetry. apply list_insert_id. destruct o; cbn in *. by subst.
  - unfold ada_free, bind at 1. unfold load at 1. rewrite H.
    apply Z.eqb_neq in Hn. rewrite Hn. cbn [negb].
    unfold bind at 1.
    destruct (call_ada_free_frame v (cpointer o) w) as (w' & -> & Hh & Ht).
    unfold bind, load, store_Url. rewrite Hh, H. cbn. rewrite Hh, H.
    eexists; split; [reflexivity|]; split; [reflexivity|]. exact Ht.
Qed.

Lemma do_release_fires (v : variant) r u o w :
  heap w !! u = Some o -> fires r o ->
  exists w', do_release (resolver v) r u w = (Ret tt, w') /\
    heap w' = <[u := mkUrl 0 false]> (heap w) /\
    (trace w' = trace w \/
     exists f res, trace w' = EvCall f [cpointer o] res :: trace w).
Proof.
  intros H Hf.
  assert (Hrun : exists w', Free (resolver v) u w = (Ret tt, w') /\
    heap w' = <[u := mkUrl 0 false]> (heap w) /\
    (trace w' = trace w \/
     exists f res, trace w' = EvCall f [cpointer o] res :: trace w)).
  { unfold Free, bind. rewrite (SetFinalizer_run u o false w H).
    set (w0 := set_heap _ w).
    assert (H0 : heap w0 !! u = Some (mkUrl (cpointer o) false)).
    { cbn. apply list_lookup_insert_eq. by eapply lookup_lt_Some. }
    destruct (ada_free_clears v u _ w0 H0) as (w' & -> & Hh & Ht).
    exists w'. split_and!; try done.
    rewrite Hh. cbn. by rewrite list_insert_insert_eq. }
  destruct r; cbn in *; [done|].
  unfold run_finalizer, bind at 1. unfold load at 1. rewrite H, Hf. apply Hrun.
Qed.

(** A release attempt on a handle that holds the null sentinel: no guest
    call, the instance is not touched. *)
Lemma do_release_null (v : variant) r u o w :
  heap w !! u = Some o -> cpointer o = 0 ->
  exists w' o', do_release (resolver v) r u w = (Ret tt, w') /\
    heap w' !! u = Some o' /\ cpointer o' = 0 /\
    trace w' = trace w /\ Buffer w' = Buffer w /\ globals w' = globals w.
Proof.
  intros H H0.
  assert (Hrun : exists w' o', Free (resolver v) u w = (Ret tt, w') /\
    heap w' !! u = Some o' /\ cpointer o' = 0 /\
    trace w' = trace w /\ Buffer w' = Buffer w /\ globals w' = globals w).
  { unfold Free, bind. rewrite (SetFinalizer_run u o false w H).
    set (w0 := set_heap _ w).
    assert (Hl : heap w0 !! u = Some (mkUrl (cpointer o) false)).
    { cbn. apply list_lookup_insert_eq. by eapply lookup_lt_Some. }
    rewrite (ada_free_null v u _ w0 Hl H0). by eexists _, _. }
  destruct r; cbn; [done|].
  unfold run_finalizer, bind at 1. unfold load at 1. rewrite H.
  destruct (finalizer o); [done|]. by eexists _, _.
Qed.

Lemma do_releases_null (v : variant) rs u : forall o w,
  heap w !! u = Some o -> cpointer o = 0 ->
  exists w', do_releases (resolver v) rs u w = (Ret tt, w') /\
    trace w' = trace w /\ Buffer w' = Buffer w /\ globals w' = globals w.
Proof.
  induction rs as [|r rs IH]; intros o w H H0; cbn.
  - by eexists.
  - unfold bind.
    destruct (do_release_null v r u o w H H0) as (w1 & o1 & -> & H1 & H10 & Ht & Hb & Hg).
    destruct (IH o1 w1 H1 H10) as (w2 & -> & Ht2 & Hb2 & Hg2).
    exists w2. split_and!; congruence.
Qed.

(** C1. The first release of a handle, by [Free] or by the finalizer, leaves
    the null sentinel in its pointer field, having made at most one guest
    call, on the pointer the handle held.  Every release attempted
    afterwards on that handle, explicit or automatic and however many,
    returns without a guest call: the log of guest calls and the instance
    are as the first release left them. *)
Theorem release_once (v : variant) w (u : ptr_Url) (o : Url) (r1 : release) (rs : list release) :
  heap w !! u = Some o ->
  fires r1 o ->
  exists w1 w2,
    do_release (resolver v) r1 u w = (Ret tt, w1) /\
    do_releases (resolver v) rs u w1 = (Ret tt, w2) /\
    (exists o1, heap w1 !! u = Some o1 /\ cpointer o1 = 0) /\
    (trace w1 = trace w \/
     exists f res, trace w1 = EvCall f [cpointer o] res :: trace w) /\
    trace w2 = trace w1 /\ Buffer w2 = Buffer w1 /\ globals w2 = globals w1.
Proof.
  intros H Hf.
  destruct (do_release_fires v r1 u o w H Hf) as (w1 & Hr1 & Hh & Ht).
  assert (H1 : heap w1 !! u = Some (mkUrl 0 false)).
  { rewrite Hh. apply list_lookup_insert_eq. by eapply lookup_lt_Some. }
  destruct (do_releases_null v rs u _ w1 H1 eq_refl) as (w2 & Hr2 & ? & ? & ?).
  exists w1, w2. split_and!; try done. by eexists.
Qed.

End Release.

Lemma wasmFree_calls_guest_for_every_pointer_witness :
  trace (snd (wasmFree (resolver ParserInstance) 0 Double.fresh)) =
    [EvCall 1%nat [0] (inl [])].
Proof.
  apply (wasmFree_calls_guest_for_every_pointer (G:=Double.guest) ParserInstance Double.fresh 0).
  apply cache_ok_NewParser.
Defined.

(** C7, as the claim has it, fails: on the test double [wasmFree(0)] reaches
    the guest's [free], in both variants; the guest's own record of the
    pointers it was asked to free holds the null pointer afterwards. *)
Lemma wasmFree_null_reaches_guest :
  trace Double.fresh = [] /\
  trace (snd (wasmFree Global.lookup_export 0 Double.fresh)) = [EvCall 1%nat [0] (inl [])] /\
  trace (snd (wasmFree Pool.getFunction 0 Double.fresh)) = [EvCall 1%nat [0] (inl [])] /\
  Double.freed (globals (snd (wasmFree Global.lookup_export 0 Double.fresh))) = [0] /\
  Double.freed (globals (snd (wasmFree Pool.getFunction 0 Double.fresh))) = [0].
Proof. vm_compute. by split_and!. Qed.

Lemma release_once_witness :
  let w1 := snd (do_release (resolver ParserInstance) ExplicitFree 0%nat parsed) in
  let w2 := snd (do_releases (resolver ParserInstance) [ExplicitFree; Finalizer] 0%nat w1) in
  (exists o1, heap w1 !! 0%nat = Some o1 /\ cpointer o1 = 0) /\
  trace w1 = EvCall 5%nat [12] (inl []) :: trace parsed /\
  trace w2 = trace w1 /\
  Double.ada_freed (globals w2) = [12].
Proof.
  intros w1 w2.
  destruct (release_once (G:=Double.guest) ParserInstance parsed 0%nat (mkUrl 12 true)
              ExplicitFree [ExplicitFree; Finalizer])
    as (w1' & w2' & H1 & H2 & Ho & _ & Ht & _ & Hg).
  - vm_compute. reflexivity.
  - exact I.
  - assert (E1 : w1 = w1') by (unfold w1; by rewrite H1).
    assert (E2 : w2 = w2') by (unfold w2; by rewrite E1, H2).
    rewrite E2, E1. split_and!; [exact Ho | | exact Ht |].
    + rewrite <- E1. unfold w1. vm_compute. reflexivity.
    + rewrite Hg, <- E1. unfold w1. vm_compute. reflexivity.
Defined.

(** ** Heap frame: only the handle operations touch the [Url] objects *)

Section HeapFrame.

Context {G : Guest}.
Implicit Types w : World G.

Lemma keeps_heap_ret {A} (a : A) : keeps_heap (G:=G) (ret a).
Proof. by intros w. Qed.

Lemma keeps_heap_bind {A B} (c : M G A) (k : A -> M G B) :
  keeps_heap c -> (forall a, keeps_heap (k a)) -> keeps_heap (bind c k).
Proof.
  intros Hc Hk w. unfold bind. specialize (Hc w).
  destruct (c w) as [[a|msg] w1]; cbn in *; [|done].
  by rewrite Hk.
Qed.

Lemma keeps_heap_defer {A B} (d : M G B) (c : M G A) :
  keeps_heap d -> keeps_heap c -> keeps_heap (defer d c).
Proof.
  intros Hd Hc w. unfold defer. specialize (Hc w).
  destruct (c w) as [r w1]; cbn in *. by rewrite Hd.
Qed.

Lemma keeps_heap_index0 results : keeps_heap (index0 (G:=G) results).
Proof. intros w. by destruct results. Qed.

Lemma keeps_heap_Call fn args : keeps_heap (Call (G:=G) fn args).
Proof.
  intros w. unfold Call.
  by destruct (invoke G fn args (Buffer w, globals w)) as [[results|msg] m].
Qed.

Lemma keeps_heap_Memory_Read offset n : keeps_heap (Memory_Read (G:=G) offset n).
Proof. intros w. unfold Memory_Read. by destruct (hasSize _ _ _). Qed.

Lemma keeps_heap_Memory_Write offset v : keeps_heap (Memory_Write (G:=G) offset v).
Proof. intros w. unfold Memory_Write. by destruct (hasSize _ _ _). Qed.

Lemma keeps_heap_resolver (v : variant) name : keeps_heap (resolver (G:=G) v name).
Proof. intros w. by destruct (resolver_frame v name w) as (r & c & ->). Qed.

End HeapFrame.

Create HintDb frame discriminated.
#[export] Hint Resolve keeps_heap_ret keeps_heap_index0 keeps_heap_Call
  keeps_heap_Memory_Read keeps_heap_Memory_Write keeps_heap_resolver : frame.

Ltac frame_step :=
  first
    [ solve [auto with frame]
    | apply keeps_heap_bind; [| intros ?]
    | apply keeps_heap_defer
    | match goal with
      | |- keeps_heap (match ?x with _ => _ end) => destruct x
      | |- keeps_heap (if ?x then _ else _) => destruct x
      end ].
Ltac frame_walk := repeat frame_step.

Section HeapFrameOfOperations.

Context {G : Guest}.
Variable v : variant.

Lemma keeps_heap_wasmMalloc size : keeps_heap (wasmMalloc (G:=G) (resolver v) size).
Proof. unfold wasmMalloc. frame_walk. Qed.
Hint Resolve keeps_heap_wasmMalloc : frame.

Lemma keeps_heap_wasmFree ptr : keeps_heap (wasmFree (G:=G) (resolver v) ptr).
Proof. unfold wasmFree. frame_walk. Qed.
Hint Resolve keeps_heap_wasmFree : frame.

Lemma keeps_heap_writeStringToWasm s :
  keeps_heap (writeStringToWasm (G:=G) (resolver v) s).
Proof. unfold writeStringToWasm. frame_walk. Qed.

Lemma keeps_heap_readAdaString fn p :
  keeps_heap (readAdaString (G:=G) (resolver v) fn p).
Proof. unfold readAdaString. frame_walk. Qed.

Lemma keeps_heap_callAdaBoolFunction name p :
  keeps_heap (callAdaBoolFunction (G:=G) (resolver v) name p).
Proof. unfold callAdaBoolFunction. frame_walk. Qed.

Lemma keeps_heap_call_ada_free p : keeps_heap (call_ada_free (G:=G) (resolver v) p).
Proof. unfold call_ada_free. frame_walk. Qed.

End HeapFrameOfOperations.

(** ** The memory marshaler *)

Section Bytes.

Lemma byte_to_uint32_range b : 0 <= byte_to_uint32 b < 2 ^ 8.
Proof.
  unfold byte_to_uint32. pose proof (Byte.to_N_bounded b). lia.
Qed.

Lemma lor_shiftl x y k :
  0 <= k -> 0 <= x < 2 ^ k -> Z.lor x (Z.shiftl y k) = x + y * 2 ^ k.
Proof.
  intros Hk Hx. rewrite Z.shiftl_mul_pow2 by done.
  rewrite <- (Z.add_lor_land x (y * 2 ^ k)).
  assert (Z.land x (y * 2 ^ k) = 0) as ->; [|lia].
  apply Z.bits_inj'. intros n Hn. rewrite Z.land_spec, Z.bits_0.
  destruct (Z.lt_ge_cases n k).
  - rewrite Z.mul_pow2_bits_low by done. apply andb_false_r.
  - rewrite <- (Z.mod_small x (2 ^ k)) by done.
    rewrite Z.mod_pow2_bits_high by lia. done.
Qed.

(** The shifts and ors of the source compute the little-endian value. *)
Lemma decode_uint32_le (bs : list byte) (i : nat) :
  decode_uint32 bs i =
    byte_to_uint32 (at_ bs i) + 2 ^ 8 * byte_to_uint32 (at_ bs (i + 1))
    + 2 ^ 16 * byte_to_uint32 (at_ bs (i + 2))
    + 2 ^ 24 * byte_to_uint32 (at_ bs (i + 3)).
Proof.
  unfold decode_uint32, uint32.
  generalize (byte_to_uint32_range (at_ bs i)),
    (byte_to_uint32_range (at_ bs (i + 1))),
    (byte_to_uint32_range (at_ bs (i + 2))),
    (byte_to_uint32_range (at_ bs (i + 3))).
  generalize (byte_to_uint32 (at_ bs i)), (byte_to_uint32 (at_ bs (i + 1))),
    (byte_to_uint32 (at_ bs (i + 2))), (byte_to_uint32 (at_ bs (i + 3))).
  intros b0 b1 b2 b3 H0 H1 H2 H3.
  change (2 ^ 8) with 256 in *.
  assert (E1 : Z.shiftl b1 8 mod 2 ^ 32 = Z.shiftl b1 8).
  { rewrite Z.shiftl_mul_pow2 by done. apply Z.mod_small.
    change (2 ^ 8) with 256. change (2 ^ 32) with 4294967296. lia. }
  assert (E2 : Z.shiftl b2 16 mod 2 ^ 32 = Z.shiftl b2 16).
  { rewrite Z.shiftl_mul_pow2 by done. apply Z.mod_small.
    change (2 ^ 16) with 65536. change (2 ^ 32) with 4294967296. lia. }
  assert (E3 : Z.shiftl b3 24 mod 2 ^ 32 = Z.shiftl b3 24).
  { rewrite Z.shiftl_mul_pow2 by done. apply Z.mod_small.
    change (2 ^ 24) with 16777216. change (2 ^ 32) with 4294967296. lia. }
  rewrite E1, E2, E3.
  rewrite (lor_shiftl b0 b1 8) by (change (2 ^ 8) with 256; lia).
  rewrite (lor_shiftl _ b2 16)
    by (change (2 ^ 8) with 256; change (2 ^ 16) with 65536; lia).
  rewrite (lor_shiftl _ b3 24)
    by (change (2 ^ 8) with 256; change (2 ^ 16) with 65536;
        change (2 ^ 24) with 16777216; lia).
  lia.
Qed.

Lemma at_mem_bytes mem a n (i : nat) :
  0 <= a -> (i < Z.to_nat n)%nat ->
  byte_to_uint32 (at_ (mem_bytes mem a n) i) = mem_byte mem (a + Z.of_nat i).
Proof.
  intros Ha Hi. unfold at_, mem_bytes, mem_byte, byte_to_uint32.
  do 2 f_equal. rewrite !nth_lookup.
  rewrite lookup_take_lt by done. rewrite lookup_drop.
  do 2 f_equal. lia.
Qed.

(** Decoding the struct the host has read back is reading two little-endian
    fields of guest memory. *)
Lemma decode_result_struct mem a :
  0 <= a ->
  decode_uint32 (mem_bytes mem a 8) 0 = le32 mem a /\
  decode_uint32 (mem_bytes mem a 8) 4 = le32 mem (a + 4).
Proof.
  intros Ha. rewrite !decode_uint32_le. unfold le32.
  rewrite !at_mem_bytes by (done || (change (Z.to_nat 8) with 8%nat; lia)).
  cbn [Nat.add]. split.
  - rewrite Z.add_0_r. reflexivity.
  - rewrite <- !Z.add_assoc. reflexivity.
Qed.

Lemma length_list_byte_of_string s :
  length (list_byte_of_string s) = String.length s.
Proof.
  unfold list_byte_of_string. rewrite length_map.
  induction s as [|a s IH]; cbn; [done|]. by rewrite IH.
Qed.

Lemma uint32_range x : 0 <= uint32 x < 2 ^ 32.
Proof. unfold uint32. apply Z.mod_pos_bound. lia. Qed.

End Bytes.

Section ReadResult.

Context {G : Guest}.
Implicit Types w : World G.

(** [readAdaString] with the plain export lookup, once the allocation of the
    scratch buffer has succeeded: the getter is called, the struct decoded,
    and [wasmFree] runs last, on the world the body left. *)
Lemma readAdaString_shared fn urlPtr w fm p rest m1 res m2 :
  ExportedFunction G "malloc" = Some fm ->
  invoke G fm [8] (Buffer w, globals w) = (inl (p :: rest), m1) ->
  invoke G fn [uint32 p; urlPtr] m1 = (res, m2) ->
  readAdaString Global.lookup_export fn urlPtr w =
    (Ret (result_string res (fst m2) (uint32 p)),
     snd (wasmFree Global.lookup_export (uint32 p)
            (log (EvCall fn [uint32 p; urlPtr] res)
               (set_instance m2
                  (log (EvCall fm [8] (inl (p :: rest))) (set_instance m1 w)))))).
Proof.
  intros Hm H1 H2.
  unfold readAdaString, wasmMalloc, Global.lookup_export.
  unfold bind at 1 2. unfold ret at 1. rewrite Hm.
  unfold bind at 1. unfold Call at 1. rewrite H1. cbn [index0 bind ret].
  unfold defer. unfold bind at 1. unfold Call at 1.
  destruct m1 as [mem1 s1]. cbn [set_instance log Buffer globals fst snd].
  rewrite H2. destruct m2 as [mem2 s2].
  destruct res as [results|msg]; cbn [result_string]; [|reflexivity].
  unfold bind at 1. unfold Memory_Read at 1.
  cbn [set_instance log Buffer globals fst snd].
  destruct (hasSize mem2 (uint32 p) 8) eqn:Hs; [|reflexivity].
  cbn [negb].
  pose proof (uint32_range p) as Hp.
  destruct (decode_result_struct mem2 (uint32 p)) as [E1 E2]; [lia|].
  unfold mem_bytes in E1, E2. rewrite E1, E2.
  destruct ((le32 mem2 (uint32 p) =? 0) || (le32 mem2 (uint32 p + 4) =? 0));
    [reflexivity|].
  unfold bind, Memory_Read. cbn [set_instance log Buffer globals fst snd].
  destruct (hasSize mem2 (le32 mem2 (uint32 p)) (le32 mem2 (uint32 p + 4)));
    reflexivity.
Qed.

(** C4. Once the scratch buffer is allocated, [readAdaString] returns what
    the ABI says the result struct holds: the two little-endian 32-bit
    fields, the empty string and no error when either is zero, otherwise
    exactly the [length] bytes at [bufferPtr].  On every exit path, the
    failed getter call and the failed reads included, the last guest call is
    [free] on the scratch buffer. *)
Theorem readAdaString_decodes_and_releases (v : variant) w (fn : funcidx) (urlPtr : Z)
    (fm ff : funcidx) (p : Z) (rest : list Z) m1 (res : list Z + string) m2 :
  consistent v w ->
  ExportedFunction G "malloc" = Some fm ->
  ExportedFunction G "free" = Some ff ->
  invoke G fm [8] (Buffer w, globals w) = (inl (p :: rest), m1) ->
  invoke G fn [uint32 p; urlPtr] m1 = (res, m2) ->
  fst (readAdaString (resolver v) fn urlPtr w)
    = Ret (result_string res (fst m2) (uint32 p)) /\
  trace (snd (readAdaString (resolver v) fn urlPtr w))
    = EvCall ff [uint32 p] (fst (invoke G ff [uint32 p] m2))
      :: EvCall fn [uint32 p; urlPtr] res
      :: EvCall fm [8] (inl (p :: rest)) :: trace w.
Proof.
  intros Hc Hm Hf H1 H2.
  destruct (variant_run (fun r => readAdaString r fn urlPtr) v w)
    as (Hr & (_ & _ & _ & Ht) & _); [intros; by apply sim_readAdaString | done |].
  rewrite Hr, Ht, (readAdaString_shared fn urlPtr w fm p rest m1 res m2 Hm H1 H2).
  split; [done|]. cbn [snd]. rewrite wasmFree_shared, Hf.
  destruct m2 as [mem2 s2]. cbn [set_instance log Buffer globals fst snd].
  by destruct (invoke G ff [uint32 p] (mem2, s2)).
Qed.

End ReadResult.

Lemma readAdaString_decodes_and_releases_witness :
  fst (readAdaString (resolver ParserInstance) 6%nat 12 parsed)
    = Ret ("http"%string, None) /\
  trace (snd (readAdaString (resolver ParserInstance) 6%nat 12 parsed))
    = EvCall 1%nat [18] (inl []) :: EvCall 6%nat [18; 12] (inl [])
      :: EvCall 0%nat [8] (inl [18]) :: trace parsed.
Proof.
  pose (m1 := snd (invoke Double.guest 0%nat [8] (Buffer parsed, globals parsed))).
  pose (m2 := snd (invoke Double.guest 6%nat [18; 12] m1)).
  apply (readAdaString_decodes_and_releases (G:=Double.guest) ParserInstance parsed
           6%nat 12 0%nat 1%nat 18 [] m1 (inl []) m2).
  - exact cache_ok_parsed.
  - reflexivity.
  - reflexivity.
  - vm_compute. reflexivity.
  - vm_compute. reflexivity.
Defined.

Section WriteString.

Context {G : Guest}.
Implicit Types w : World G.

Lemma write_read_back (mem v : list byte) (a : Z) :
  0 <= a -> hasSize mem a (Z.of_nat (length v)) = true ->
  mem_bytes (take (Z.to_nat a) mem ++ v ++ drop (Z.to_nat a + length v) mem)
            a (Z.of_nat (length v)) = v.
Proof.
  intros Ha Hs. unfold hasSize in Hs. apply Z.leb_le in Hs. unfold mem_bytes.
  rewrite drop_app_length' by (rewrite length_take; lia).
  rewrite Nat2Z.id. by rewrite take_app_length.
Qed.

(** [writeStringToWasm] with the plain export lookup, on a non-empty string,
    once the allocation has succeeded. *)
Lemma writeStringToWasm_shared s w fm p rest m1 :
  s <> ""%string ->
  ExportedFunction G "malloc" = Some fm ->
  invoke G fm [uint32 (len s)] (Buffer w, globals w) = (inl (p :: rest), m1) ->
  let w1 := log (EvCall fm [uint32 (len s)] (inl (p :: rest))) (set_instance m1 w) in
  writeStringToWasm Global.lookup_export s w =
    if hasSize (fst m1) (uint32 p) (len s)
    then (Ret (uint32 p, None),
          set_Buffer (take (Z.to_nat (uint32 p)) (fst m1) ++ list_byte_of_string s
                        ++ drop (Z.to_nat (uint32 p) + String.length s) (fst m1)) w1)
    else (Ret (0, Some (errors_New "failed to write string to WASM memory")),
          snd (wasmFree Global.lookup_export (uint32 p) w1)).
Proof.
  intros Hs Hm H1 w1. unfold writeStringToWasm.
  destruct (len s =? 0) eqn:Hl; [by apply Z.eqb_eq, len_zero in Hl|].
  unfold wasmMalloc, Global.lookup_export.
  unfold bind at 1 2 3. unfold ret at 1. rewrite Hm.
  unfold Call at 1. rewrite H1. cbn [index0 bind ret].
  unfold bind at 1. unfold Memory_Write.
  rewrite length_list_byte_of_string. fold (len s).
  destruct m1 as [mem1 s1]. cbn [set_instance log Buffer globals fst snd].
  destruct (hasSize mem1 (uint32 p) (len s)); cbn [negb]; [reflexivity|].
  unfold bind. fold w1.
  change (fun name => ret (ExportedFunction G name)) with (@Global.lookup_export G).
  rewrite wasmFree_shared.
  destruct (ExportedFunction G "free") as [ff|]; [|reflexivity].
  by destruct (invoke G ff [uint32 p] (Buffer w1, globals w1)).
Qed.

(** C3. [writeStringToWasm] returns the null sentinel for the empty string
    and leaves the world as it was, so the allocator is not called.  For a
    non-empty string it asks the allocator for [uint32(len(s))] bytes, once:
    the length cut to 32 bits, which is [len(s)] for a string shorter than
    [2^32] bytes.  When [len(s)] bytes at the block lie inside the memory the
    bytes of [s], and nothing else, are copied to it and the pointer is
    returned; when the write fails the block is handed to [free] before the
    error is returned. *)
Theorem writeStringToWasm_spec (v : variant) w (s : string)
    (fm : funcidx) (p : Z) (rest : list Z) m1 :
  writeStringToWasm (resolver v) "" w = (Ret (0, None), w) /\
  (len s < 2 ^ 32 -> uint32 (len s) = len s) /\
  (consistent v w ->
   s <> ""%string ->
   ExportedFunction G "malloc" = Some fm ->
   invoke G fm [uint32 (len s)] (Buffer w, globals w) = (inl (p :: rest), m1) ->
   let run := writeStringToWasm (resolver v) s w in
   let ptr := uint32 p in
   let asked := EvCall fm [uint32 (len s)] (inl (p :: rest)) in
   if hasSize (fst m1) ptr (len s) then
     fst run = Ret (ptr, None) /\
     trace (snd run) = asked :: trace w /\
     Buffer (snd run) =
       take (Z.to_nat ptr) (fst m1) ++ list_byte_of_string s
         ++ drop (Z.to_nat ptr + String.length s) (fst m1) /\
     mem_bytes (Buffer (snd run)) ptr (len s) = list_byte_of_string s
   else
     fst run = Ret (0, Some (errors_New "failed to write string to WASM memory")) /\
     match ExportedFunction G "free" with
     | Some ff =>
         trace (snd run) =
           EvCall ff [ptr] (fst (invoke G ff [ptr] m1)) :: asked :: trace w
     | None => trace (snd run) = asked :: trace w
     end).
Proof.
  split; [reflexivity|]. split.
  { intros Hlen. unfold uint32. apply Z.mod_small. unfold len in *. lia. }
  intros Hc Hs Hm H1 run ptr asked.
  destruct (variant_run (fun r => writeStringToWasm r s) v w)
    as (Hr & (Hb & _ & _ & Ht) & _);
    [intros; by apply sim_writeStringToWasm | done |].
  fold run in Hr, Hb, Ht. rewrite Hr, Hb, Ht. clear Hr Hb Ht run.
  rewrite (writeStringToWasm_shared s w fm p rest m1 Hs Hm H1). fold ptr. fold asked.
  pose proof (uint32_range p) as Hp. fold ptr in Hp.
  destruct m1 as [mem1 s1]. cbn [fst].
  destruct (hasSize mem1 ptr (len s)) eqn:Hsz.
  - cbn. split_and!; try done.
    unfold len in *. rewrite <- length_list_byte_of_string in *.
    apply write_read_back; [lia | done].
  - cbn [fst snd]. split; [done|]. rewrite wasmFree_shared.
    destruct (ExportedFunction G "free") as [ff|]; [|done].
    cbn [set_instance log Buffer globals fst snd].
    by destruct (invoke G ff [ptr] (mem1, s1)).
Qed.

End WriteString.

(** A string of 4 GiB and five bytes, on the test double. *)
Lemma long_string_allocation (v : variant) (s : string) :
  len s = 2 ^ 32 + 5 ->
  trace (snd (writeStringToWasm (resolver v) s Double.fresh))
    = [EvCall 1%nat [8] (inl []); EvCall 0%nat [5] (inl [8])].
Proof.
  intros Hlen.
  assert (Hs : s <> ""%string).
  { intros ->. discriminate Hlen. }
  destruct (variant_run (G:=Double.guest) (fun r => writeStringToWasm r s) v Double.fresh)
    as (_ & (_ & _ & _ & Ht) & _);
    [intros; by apply sim_writeStringToWasm
    | destruct v; [exact I | apply cache_ok_NewParser] |].
  rewrite Ht. clear Ht.
  assert (Hu : uint32 (len s) = 5) by (rewrite Hlen; reflexivity).
  pose (m1 := snd (invoke Double.guest 0%nat [5]
                     (Buffer Double.fresh, globals Double.fresh))).
  assert (H1 : invoke Double.guest 0%nat [uint32 (len s)]
                 (Buffer Double.fresh, globals Double.fresh) = (inl [8], m1))
    by (rewrite Hu; reflexivity).
  rewrite (writeStringToWasm_shared (G:=Double.guest) s Double.fresh 0%nat 8 [] m1
             Hs eq_refl H1).
  rewrite Hu, Hlen.
  assert (Hsz : hasSize (fst m1) (uint32 8) (2 ^ 32 + 5) = false)
    by (vm_compute; reflexivity).
  rewrite Hsz. cbn [snd]. rewrite wasmFree_shared.
  assert (Hf : ExportedFunction Double.guest "free" = Some 1%nat) by reflexivity.
  rewrite Hf. reflexivity.
Qed.

Lemma len_string_of_length (n : nat) : len (string_of_length n) = Z.of_nat n.
Proof.
  unfold len. f_equal. induction n as [|n IH]; [reflexivity|].
  cbn [string_of_length String.length]. by rewrite IH.
Qed.


Lemma writeStringToWasm_spec_witness :
  (fst (writeStringToWasm (resolver ParserInstance) "http" Double.fresh)
     = Ret (8, None) /\
   trace (snd (writeStringToWasm (resolver ParserInstance) "http" Double.fresh))
     = [EvCall 0%nat [4] (inl [8])] /\
   Buffer (snd (writeStringToWasm (resolver ParserInstance) "http" Double.fresh))
     = replicate 8 Byte.x00 ++ list_byte_of_string "http" ++ replicate 52 Byte.x00 /\
   mem_bytes (Buffer (snd (writeStringToWasm (resolver ParserInstance) "http" Double.fresh)))
       8 4 = list_byte_of_string "http") /\
  (fst (writeStringToWasm (resolver SharedInstance) "https" Double.nearly_full)
     = Ret (0, Some (errors_New "failed to write string to WASM memory")) /\
   trace (snd (writeStringToWasm (resolver SharedInstance) "https" Double.nearly_full))
     = [EvCall 1%nat [60] (inl []); EvCall 0%nat [5] (inl [60])]).
Proof.
  split.
  - destruct (writeStringToWasm_spec (G:=Double.guest) ParserInstance Double.fresh "http"
                0%nat 8 []
                (snd (invoke Double.guest 0%nat [4]
                        (Buffer Double.fresh, globals Double.fresh)))) as (_ & _ & H).
    apply H.
    + apply cache_ok_NewParser.
    + discriminate.
    + reflexivity.
    + reflexivity.
  - destruct (writeStringToWasm_spec (G:=Double.guest) SharedInstance Double.nearly_full
                "https" 0%nat 60 []
                (snd (invoke Double.guest 0%nat [5]
                        (Buffer Double.nearly_full, globals Double.nearly_full))))
      as (_ & _ & H).
    apply H.
    + exact I.
    + discriminate.
    + reflexivity.
    + reflexivity.
Defined.

(** C3, as the claim has it, fails: for a string of [2^32 + 5] bytes the
    allocator is asked for five bytes, not for [len(s)]; the write of the
    whole string then fails and the five bytes are freed. *)
Lemma writeStringToWasm_truncates_the_length :
  exists s : string,
    len s = 2 ^ 32 + 5 /\
    trace (snd (writeStringToWasm Global.lookup_export s Double.fresh))
      = [EvCall 1%nat [8] (inl []); EvCall 0%nat [5] (inl [8])] /\
    trace (snd (writeStringToWasm Pool.getFunction s Double.fresh))
      = [EvCall 1%nat [8] (inl []); EvCall 0%nat [5] (inl [8])].
Proof.
  exists (string_of_length (Z.to_nat (2 ^ 32 + 5))).
  assert (Hlen : len (string_of_length (Z.to_nat (2 ^ 32 + 5))) = 2 ^ 32 + 5).
  { rewrite len_string_of_length. apply Z2Nat.id. discriminate. }
  split; [exact Hlen|]. split.
  - exact (long_string_allocation SharedInstance _ Hlen).
  - exact (long_string_allocation ParserInstance _ Hlen).
Qed.

(** ** Construction of handles *)

Section TraceFrame.

Context {G : Guest}.
Implicit Types w : World G.

Lemma extends_trace_ret {A} (a : A) : extends_trace (G:=G) (ret a).
Proof. intros w. by exists []. Qed.

Lemma extends_trace_bind {A B} (c : M G A) (k : A -> M G B) :
  extends_trace c -> (forall a, extends_trace (k a)) -> extends_trace (bind c k).
Proof.
  intros Hc Hk w. unfold bind. destruct (Hc w) as [evs He].
  destruct (c w) as [[a|msg] w1]; cbn in *; [|by exists evs].
  destruct (Hk a w1) as [evs' He']. exists (evs' ++ evs).
  by rewrite He', He, app_assoc.
Qed.

Lemma extends_trace_defer {A B} (d : M G B) (c : M G A) :
  extends_trace d -> extends_trace c -> extends_trace (defer d c).
Proof.
  intros Hd Hc w. unfold defer. destruct (Hc w) as [evs He].
  destruct (c w) as [r w1]; cbn in *.
  destruct (Hd w1) as [evs' He']. exists (evs' ++ evs).
  by rewrite He', He, app_assoc.
Qed.

Lemma extends_trace_index0 results : extends_trace (index0 (G:=G) results).
Proof. intros w. exists []. by destruct results. Qed.

Lemma extends_trace_Call fn args : extends_trace (Call (G:=G) fn args).
Proof.
  intros w. unfold Call.
  destruct (invoke G fn args (Buffer w, globals w)) as [[results|msg] m];
    by eexists [_].
Qed.

Lemma extends_trace_Memory_Read offset n : extends_trace (Memory_Read (G:=G) offset n).
Proof. intros w. exists []. unfold Memory_Read. by destruct (hasSize _ _ _). Qed.

Lemma extends_trace_Memory_Write offset v : extends_trace (Memory_Write (G:=G) offset v).
Proof. intros w. exists []. unfold Memory_Write. by destruct (hasSize _ _ _). Qed.

Lemma extends_trace_resolver (v : variant) name : extends_trace (resolver (G:=G) v name).
Proof. intros w. exists []. by destruct (resolver_frame v name w) as (r & c & ->). Qed.

End TraceFrame.

#[export] Hint Resolve extends_trace_ret extends_trace_index0 extends_trace_Call
  extends_trace_Memory_Read extends_trace_Memory_Write extends_trace_resolver : frame.

Ltac trace_step :=
  first
    [ solve [auto with frame]
    | apply extends_trace_bind; [| intros ?]
    | apply extends_trace_defer
    | match goal with
      | |- extends_trace (match ?x with _ => _ end) => destruct x
      | |- extends_trace (if ?x then _ else _) => destruct x
      end ].
Ltac trace_walk := repeat trace_step.

Section TraceFrameOfOperations.

Context {G : Guest}.
Variable v : variant.

Lemma extends_trace_wasmMalloc size : extends_trace (wasmMalloc (G:=G) (resolver v) size).
Proof. unfold wasmMalloc. trace_walk. Qed.
Hint Resolve extends_trace_wasmMalloc : frame.

Lemma extends_trace_wasmFree ptr : extends_trace (wasmFree (G:=G) (resolver v) ptr).
Proof. unfold wasmFree. trace_walk. Qed.
Hint Resolve extends_trace_wasmFree : frame.

Lemma extends_trace_writeStringToWasm s :
  extends_trace (writeStringToWasm (G:=G) (resolver v) s).
Proof. unfold writeStringToWasm. trace_walk. Qed.

Lemma extends_trace_call_ada_free p :
  extends_trace (call_ada_free (G:=G) (resolver v) p).
Proof. unfold call_ada_free. trace_walk. Qed.

End TraceFrameOfOperations.

Section ConstructShared.

Context {G : Guest}.
Implicit Types w : World G.

Lemma callAdaBoolFunction_shared name p w :
  callAdaBoolFunction Global.lookup_export name p w =
  match ExportedFunction G name with
  | None => (Ret false, w)
  | Some f =>
      let (res, m) := invoke G f [p] (Buffer w, globals w) in
      (match first_word_nonzero res with
       | Some b => Ret b
       | None => Panic "index out of range [0] with length 0"
       end,
       log (EvCall f [p] res) (set_instance m w))
  end.
Proof.
  unfold callAdaBoolFunction, Global.lookup_export, bind, ret, Call.
  destruct (ExportedFunction G name) as [f|]; [|done].
  by destruct (invoke G f [p] (Buffer w, globals w)) as [[[|r0 results]|msg] m].
Qed.

(** The outcome of the validity check, read off the guest. *)
Lemma callAdaBoolFunction_outcome name p w :
  fst (callAdaBoolFunction Global.lookup_export name p w) =
    match predicate_outcome G name p (Buffer w, globals w) with
    | Some b => Ret b
    | None => Panic "index out of range [0] with length 0"
    end.
Proof.
  rewrite callAdaBoolFunction_shared. unfold predicate_outcome.
  destruct (ExportedFunction G name) as [f|]; [|done].
  by destruct (invoke G f [p] (Buffer w, globals w)).
Qed.

Lemma wasmFree_frame (v : variant) ptr w :
  heap (snd (wasmFree (resolver v) ptr w)) = heap w /\
  exists pre, trace (snd (wasmFree (resolver v) ptr w)) = pre ++ trace w.
Proof.
  split; [apply keeps_heap_wasmFree | apply extends_trace_wasmFree].
Qed.

(** What the constructors do with a non-empty result of the parse call. *)
Lemma wrap_parsed_decision p rest w :
  let obj := uint32 p in
  let run := wrap_parsed Global.lookup_export (p :: rest) w in
  if obj =? 0 then run = (Ret (None, Some ErrInvalidUrl), w)
  else
    match predicate_outcome G "ada_is_valid" obj (Buffer w, globals w) with
    | Some true =>
        fst run = Ret (Some (length (heap w)), None) /\
        heap (snd run) = heap w ++ [mkUrl obj true] /\
        exists fv x xs,
          ExportedFunction G "ada_is_valid" = Some fv /\ x <> 0 /\
          trace (snd run) = EvCall fv [obj] (inl (x :: xs)) :: trace w
    | Some false =>
        fst run = Ret (None, Some ErrInvalidUrl) /\
        heap (snd run) = heap w /\
        forall fa, ExportedFunction G "ada_free" = Some fa ->
          exists res, called_since w (snd run) (EvCall fa [obj] res)
    | None => exists msg, fst run = Panic msg
    end.
Proof.
  intros obj run.
  assert (Hrun : run =
    if obj =? 0 then (Ret (None, Some ErrInvalidUrl), w)
    else
      match callAdaBoolFunction Global.lookup_export "ada_is_valid" obj w with
      | (Ret true, w1) =>
          (Ret (Some (length (heap w1)), None),
           set_heap (heap w1 ++ [mkUrl obj true]) w1)
      | (Ret false, w1) =>
          (Ret (None, Some ErrInvalidUrl),
           snd (call_ada_free Global.lookup_export obj w1))
      | (Panic msg, w1) => (Panic msg, w1)
      end).
  { unfold run, wrap_parsed. cbn [index0]. unfold bind at 1. unfold ret at 1.
    fold obj. destruct (obj =? 0); [done|]. unfold bind at 1.
    destruct (callAdaBoolFunction _ _ obj w) as [[[|]|msg] w1]; [| |done].
    - cbn [negb]. unfold bind at 1. unfold alloc_Url at 1. unfold bind at 1.
      rewrite (SetFinalizer_run _ (mkUrl obj false)); cbn.
      + rewrite insert_app_r_alt, Nat.sub_diag by done. done.
      + by rewrite lookup_app_r, Nat.sub_diag.
    - cbn [negb]. unfold bind.
      destruct (call_ada_free_frame SharedInstance obj w1) as (w2 & Hc & _).
      change (@resolver G SharedInstance) with (@Global.lookup_export G) in Hc.
      by rewrite Hc. }
  clearbody run. subst run.
  destruct (obj =? 0); [done|].
  pose proof (callAdaBoolFunction_outcome "ada_is_valid" obj w) as Ho.
  pose proof (keeps_heap_callAdaBoolFunction SharedInstance "ada_is_valid" obj w) as Hh.
  pose proof (callAdaBoolFunction_shared "ada_is_valid" obj w) as Hs.
  change (@resolver G SharedInstance) with (@Global.lookup_export G) in Hh.
  destruct (callAdaBoolFunction Global.lookup_export "ada_is_valid" obj w) as [r w1].
  cbn [fst snd] in *.
  destruct (predicate_outcome G "ada_is_valid" obj (Buffer w, globals w)) as [[|]|]
    eqn:Hp; subst r; [| |by eexists].
  - (* valid: the handle is created *)
    cbn. rewrite Hh. split_and!; try done.
    unfold predicate_outcome in Hp.
    destruct (ExportedFunction G "ada_is_valid") as [fv|]; [|done].
    destruct (invoke G fv [obj] (Buffer w, globals w)) as [[[|x xs]|msg] m];
      cbn in Hp; try done.
    injection Hs as _ Hw. subst w1. exists fv, x, xs. split_and!; try done.
    intros Hx. subst x. discriminate Hp.
  - (* not valid: the object is freed, no handle *)
    cbn [fst snd].
    destruct (call_ada_free_frame SharedInstance obj w1) as (w2 & Hc & Hh2 & Ht).
    change (@resolver G SharedInstance) with (@Global.lookup_export G) in Hc.
    rewrite Hc. cbn. split; [done|]. split; [congruence|].
    intros fa Hfa.
    assert (exists post, trace w1 = post ++ trace w) as [post Hpost].
    { destruct (ExportedFunction G "ada_is_valid") as [fv|];
        [|injection Hs as Hw; subst w1; by exists []].
      destruct (invoke G fv [obj] (Buffer w, globals w)) as [res m].
      injection Hs as _ Hw. subst w1. by eexists [_]. }
    revert Hc. unfold call_ada_free, Global.lookup_export, bind, ret. rewrite Hfa.
    unfold Call. destruct (invoke G fa [obj] (Buffer w1, globals w1)) as [res m].
    intros Hc. exists res, [], post. cbn. rewrite <- Hpost.
    by destruct res; injection Hc as Hw; subst w2.
Qed.

End ConstructShared.

Section ParseAndWrap.

Context {G : Guest}.
Implicit Types w : World G.

Lemma New_unfold resolve s :
  New (G:=G) resolve s =
  if len s =? 0 then ret (None, Some ErrEmptyString) else
  bind (writeStringToWasm resolve s) (fun '(urlPtr, err) =>
    match err with
    | Some e => ret (None, Some e)
    | None =>
        defer (wasmFree resolve urlPtr)
          (parse_and_wrap resolve "ada_parse" "ada_parse function not found"
             [urlPtr; len s])
    end).
Proof. reflexivity. Qed.

Lemma NewWithBase_unfold resolve s b :
  NewWithBase (G:=G) resolve s b =
  if (len s =? 0) || (len b =? 0) then ret (None, Some ErrEmptyString) else
  bind (writeStringToWasm resolve s) (fun '(urlPtr, err) =>
    match err with
    | Some e => ret (None, Some e)
    | None =>
        defer (wasmFree resolve urlPtr)
          (bind (writeStringToWasm resolve b) (fun '(basePtr, err) =>
             match err with
             | Some e => ret (None, Some e)
             | None =>
                 defer (wasmFree resolve basePtr)
                   (parse_and_wrap resolve "ada_parse_with_base"
                      "ada_parse_with_base function not found"
                      [urlPtr; len s; basePtr; len b])
             end))
    end).
Proof. reflexivity. Qed.

Lemma parse_and_wrap_shared name notfound args w fp p rest m2 :
  ExportedFunction G name = Some fp ->
  invoke G fp args (Buffer w, globals w) = (inl (p :: rest), m2) ->
  parse_and_wrap Global.lookup_export name notfound args w =
    wrap_parsed Global.lookup_export (p :: rest)
      (parsed_world w fp args (inl (p :: rest)) m2).
Proof.
  intros He Hi. unfold parse_and_wrap, Global.lookup_export.
  unfold bind at 1. unfold ret at 1. rewrite He.
  unfold bind at 1. unfold Call. by rewrite Hi.
Qed.

(** A handle comes out only of a parse call that returned a non-null
    pointer, followed by a validity check that answered non-zero. *)
Lemma parse_and_wrap_handle name notfound args w u e :
  fst (parse_and_wrap Global.lookup_export name notfound args w) = Ret (Some u, e) ->
  e = None /\
  exists fp fv p rest x xs,
    ExportedFunction G name = Some fp /\
    ExportedFunction G "ada_is_valid" = Some fv /\
    uint32 p <> 0 /\ x <> 0 /\
    trace (snd (parse_and_wrap Global.lookup_export name notfound args w)) =
      EvCall fv [uint32 p] (inl (x :: xs))
      :: EvCall fp args (inl (p :: rest)) :: trace w /\
    u = length (heap w) /\
    heap (snd (parse_and_wrap Global.lookup_export name notfound args w)) =
      heap w ++ [mkUrl (uint32 p) true].
Proof.
  destruct (ExportedFunction G name) as [fp|] eqn:He.
  2:{ unfold parse_and_wrap, Global.lookup_export, bind, ret. by rewrite He. }
  destruct (invoke G fp args (Buffer w, globals w)) as [[[|p rest]|msg] m2] eqn:Hi.
  1,3: unfold parse_and_wrap, Global.lookup_export, bind, ret, Call;
       by rewrite He, Hi.
  rewrite (parse_and_wrap_shared name notfound args w fp p rest m2 He Hi).
  pose proof (wrap_parsed_decision p rest (parsed_world w fp args (inl (p :: rest)) m2))
    as Hd. cbn zeta in Hd.
  destruct (uint32 p =? 0) eqn:H0; [by rewrite Hd|].
  destruct (predicate_outcome _ _ _ _) as [[|]|].
  - destruct Hd as (Hr & Hh & fv & x & xs & Hv & Hx & Ht).
    rewrite Hr. intros [= <- <-]. split; [done|].
    exists fp, fv, p, rest, x, xs. apply Z.eqb_neq in H0. by split_and!.
  - destruct Hd as (Hr & _). by rewrite Hr.
  - destruct Hd as (msg & Hr). by rewrite Hr.
Qed.

(** After a parse call that returned a non-null pointer, the validity check
    decides: a handle, or the object handed to [ada_free] and
    [ErrInvalidUrl]. *)
Lemma parse_and_wrap_decision name notfound args w fp p rest m2 :
  ExportedFunction G name = Some fp ->
  invoke G fp args (Buffer w, globals w) = (inl (p :: rest), m2) ->
  uint32 p <> 0 ->
  let run := parse_and_wrap Global.lookup_export name notfound args w in
  match predicate_outcome G "ada_is_valid" (uint32 p) m2 with
  | Some true => fst run = Ret (Some (length (heap w)), None)
  | Some false =>
      fst run = Ret (None, Some ErrInvalidUrl) /\
      heap (snd run) = heap w /\
      forall fa, ExportedFunction G "ada_free" = Some fa ->
        exists res, called_since w (snd run) (EvCall fa [uint32 p] res)
  | None => exists msg, fst run = Panic msg
  end.
Proof.
  intros He Hi H0 run. unfold run.
  rewrite (parse_and_wrap_shared name notfound args w fp p rest m2 He Hi).
  pose proof (wrap_parsed_decision p rest (parsed_world w fp args (inl (p :: rest)) m2))
    as Hd. cbn zeta in Hd.
  apply Z.eqb_neq in H0. rewrite H0 in Hd.
  destruct m2 as [mem2 s2].
  change (Buffer (parsed_world _ _ _ _ _), globals (parsed_world _ _ _ _ _))
    with (mem2, s2) in Hd.
  destruct (predicate_outcome G "ada_is_valid" (uint32 p) (mem2, s2)) as [[|]|];
    [tauto| |done].
  destruct Hd as (Hr & Hh & Hf). split_and!; try done.
  intros fa Hfa. destruct (Hf fa Hfa) as (res & pre & post & Ht).
  exists res, pre, (post ++ [EvCall fp args (inl (p :: rest))]).
  rewrite Ht. cbn. by rewrite <- app_assoc.
Qed.

End ParseAndWrap.

Section ConstructRuns.

Context {G : Guest}.
Implicit Types w : World G.

(** Once the strings are in guest memory a constructor is the shared text,
    followed by the deferred [wasmFree]s, which leave the heap alone and only
    add to the log. *)
Lemma construct_shared_run i w args w1 :
  reaches_parse Global.lookup_export i w args w1 ->
  exists notfound (cleanup : World G -> World G),
    (forall w3, heap (cleanup w3) = heap w3 /\
                exists pre, trace (cleanup w3) = pre ++ trace w3) /\
    heap w1 = heap w /\
    construct Global.lookup_export i w =
      (fst (parse_and_wrap Global.lookup_export (parse_export i) notfound args w1),
       cleanup (snd (parse_and_wrap Global.lookup_export (parse_export i) notfound args w1))).
Proof.
  destruct i as [s|s b]; cbn [reaches_parse construct parse_export].
  - intros (Hs & urlPtr & Hw & ->).
    exists "ada_parse function not found"%string,
           (fun w3 => snd (wasmFree Global.lookup_export urlPtr w3)).
    split; [intros w3; apply (wasmFree_frame SharedInstance)|].
    pose proof (keeps_heap_writeStringToWasm SharedInstance s w) as Hh.
    change (@resolver G SharedInstance) with (@Global.lookup_export G) in Hh.
    rewrite Hw in Hh. split; [done|].
    rewrite New_unfold.
    destruct (len s =? 0) eqn:Hl; [by apply Z.eqb_eq, len_zero in Hl|].
    unfold bind at 1. rewrite Hw. unfold defer.
    by destruct (parse_and_wrap _ _ _ _ w1).
  - intros (Hs & Hb & urlPtr & basePtr & w0 & Hw & Hw0 & ->).
    exists "ada_parse_with_base function not found"%string,
           (fun w3 => snd (wasmFree Global.lookup_export urlPtr
                             (snd (wasmFree Global.lookup_export basePtr w3)))).
    split.
    { intros w3.
      destruct (wasmFree_frame SharedInstance basePtr w3) as (Hh1 & pre1 & Ht1).
      destruct (wasmFree_frame SharedInstance urlPtr
                  (snd (wasmFree Global.lookup_export basePtr w3))) as (Hh2 & pre2 & Ht2).
      change (@resolver G SharedInstance) with (@Global.lookup_export G) in *.
      split; [by rewrite Hh2, Hh1|]. exists (pre2 ++ pre1).
      by rewrite Ht2, Ht1, app_assoc. }
    pose proof (keeps_heap_writeStringToWasm SharedInstance s w) as Hh.
    pose proof (keeps_heap_writeStringToWasm SharedInstance b w0) as Hh0.
    change (@resolver G SharedInstance) with (@Global.lookup_export G) in Hh, Hh0.
    rewrite Hw in Hh. rewrite Hw0 in Hh0. cbn [snd] in Hh, Hh0.
    split; [by rewrite Hh0, Hh|].
    rewrite NewWithBase_unfold.
    destruct (len s =? 0) eqn:Hl; [by apply Z.eqb_eq, len_zero in Hl|].
    destruct (len b =? 0) eqn:Hl'; [by apply Z.eqb_eq, len_zero in Hl'|].
    cbn [orb]. unfold bind at 1. rewrite Hw. unfold defer at 1.
    unfold bind at 1. rewrite Hw0. unfold defer.
    by destruct (parse_and_wrap _ _ _ _ w1).
Qed.

(** Every run of a constructor that returns a handle went through the
    shared text. *)
Lemma construct_shared_reaches i w u e :
  fst (construct Global.lookup_export i w) = Ret (Some u, e) ->
  exists args w1 post,
    reaches_parse Global.lookup_export i w args w1 /\
    trace w1 = post ++ trace w.
Proof.
  destruct i as [s|s b]; cbn [reaches_parse construct].
  - rewrite New_unfold.
    destruct (len s =? 0) eqn:Hl; [done|].
    assert (s <> ""%string) by (intros ->; done).
    unfold bind at 1.
    destruct (extends_trace_writeStringToWasm SharedInstance s w) as [post Hp].
    change (@resolver G SharedInstance) with (@Global.lookup_export G) in Hp.
    destruct (writeStringToWasm Global.lookup_export s w)
      as [[[urlPtr [e0|]]|msg] w1]; try done.
    intros _. exists [urlPtr; len s], w1, post.
    split; [|done]. split; [done|]. by exists urlPtr.
  - rewrite NewWithBase_unfold.
    destruct (len s =? 0) eqn:Hl; [done|].
    destruct (len b =? 0) eqn:Hl'; [done|].
    assert (s <> ""%string) by (intros ->; done).
    assert (b <> ""%string) by (intros ->; done).
    cbn [orb]. unfold bind at 1.
    destruct (extends_trace_writeStringToWasm SharedInstance s w) as [post Hp].
    change (@resolver G SharedInstance) with (@Global.lookup_export G) in Hp.
    destruct (writeStringToWasm Global.lookup_export s w)
      as [[[urlPtr [e0|]]|msg] w0]; try done.
    unfold defer at 1. unfold bind at 1.
    destruct (extends_trace_writeStringToWasm SharedInstance b w0) as [post0 Hp0].
    change (@resolver G SharedInstance) with (@Global.lookup_export G) in Hp0.
    destruct (writeStringToWasm Global.lookup_export b w0)
      as [[[basePtr [e0|]]|msg] w1] eqn:Hw0; try done.
    intros _. exists [urlPtr; len s; basePtr; len b], w1, (post0 ++ post).
    split.
    { split; [done|]. split; [done|]. by exists urlPtr, basePtr, w0. }
    cbn in *. by rewrite Hp0, Hp, app_assoc.
Qed.

End ConstructRuns.

Section Construction.

Context {G : Guest}.
Implicit Types w : World G.

Lemma sim_construct r1 r2 i :
  (forall name, sim (G:=G) (r1 name) (r2 name)) -> sim (construct r1 i) (construct r2 i).
Proof.
  intros H. destruct i; cbn; [by apply sim_New | by apply sim_NewWithBase].
Qed.

(** A run that reached the parse call in either variant reaches it with the
    plain export lookup, on the same instance. *)
Lemma reaches_parse_shared (v : variant) i w args w1 :
  consistent v w ->
  reaches_parse (resolver v) i w args w1 ->
  exists w1', reaches_parse Global.lookup_export i w args w1' /\ same_instance w1 w1'.
Proof.
  destruct v; [intros _ H; exists w1; split; [done | apply same_instance_refl]|].
  cbn [consistent resolver]. intros Hc.
  destruct i as [s|s b]; cbn [reaches_parse].
  - intros (Hs & urlPtr & Hw & ->).
    destruct (sim_writeStringToWasm _ _ sim_getFunction s w w (same_instance_refl w) Hc)
      as (Hr & Hi & _). rewrite Hw in Hr, Hi. cbn [fst snd] in Hr, Hi.
    exists (snd (writeStringToWasm Global.lookup_export s w)). split; [|done].
    split; [done|]. exists urlPtr. split; [|done].
    rewrite (surjective_pairing (writeStringToWasm _ s w)). by rewrite <- Hr.
  - intros (Hs & Hb & urlPtr & basePtr & w0 & Hw & Hw0 & ->).
    destruct (sim_writeStringToWasm _ _ sim_getFunction s w w (same_instance_refl w) Hc)
      as (Hr & Hi & Hc0 & _). rewrite Hw in Hr, Hi, Hc0. cbn [fst snd] in Hr, Hi, Hc0.
    destruct (sim_writeStringToWasm _ _ sim_getFunction b w0 _ Hi Hc0)
      as (Hr' & Hi' & _). rewrite Hw0 in Hr', Hi'. cbn [fst snd] in Hr', Hi'.
    eexists. split; [|exact Hi'].
    split; [done|]. split; [done|].
    exists urlPtr, basePtr, (snd (writeStringToWasm Global.lookup_export s w)).
    split_and!; try done.
    + rewrite (surjective_pairing (writeStringToWasm _ s w)). by rewrite <- Hr.
    + rewrite (surjective_pairing (writeStringToWasm _ b _)). by rewrite <- Hr'.
Qed.

(** C2. In both variants, for [New] and for [NewWithBase]: a handle is
    returned only when the parse call returned a non-null pointer and the
    guest's validity check on that pointer then answered non-zero; both
    calls are in the log, the parse call first.  And once the parse call
    has returned a non-null pointer, a validity check that does not confirm
    the object (the check answers zero, fails, or is not exported) makes the
    constructor hand the object to the guest's [ada_free] and return
    [ErrInvalidUrl] with no handle, while a confirmed object yields the
    handle. *)
Theorem construction_requires_valid_object (v : variant) w (i : source) :
  consistent v w ->
  let run := construct (resolver v) i w in
  (forall u e, fst run = Ret (Some u, e) ->
     e = None /\
     exists fp fv args p rest x xs,
       ExportedFunction G (parse_export i) = Some fp /\
       ExportedFunction G "ada_is_valid" = Some fv /\
       uint32 p <> 0 /\ x <> 0 /\
       (exists pre post,
          trace (snd run) =
            pre ++ EvCall fv [uint32 p] (inl (x :: xs))
                :: EvCall fp args (inl (p :: rest)) :: post ++ trace w) /\
       u = length (heap w) /\
       heap (snd run) = heap w ++ [mkUrl (uint32 p) true]) /\
  (forall args w1 fp p rest m2,
     reaches_parse (resolver v) i w args w1 ->
     ExportedFunction G (parse_export i) = Some fp ->
     invoke G fp args (Buffer w1, globals w1) = (inl (p :: rest), m2) ->
     uint32 p <> 0 ->
     match predicate_outcome G "ada_is_valid" (uint32 p) m2 with
     | Some true => fst run = Ret (Some (length (heap w)), None)
     | Some false =>
         fst run = Ret (None, Some ErrInvalidUrl) /\
         heap (snd run) = heap w /\
         forall fa, ExportedFunction G "ada_free" = Some fa ->
           exists res, called_since w1 (snd run) (EvCall fa [uint32 p] res)
     | None => exists msg, fst run = Panic msg
     end).
Proof.
  intros Hc run.
  destruct (variant_run (fun r => construct r i) v w)
    as (Hr & (_ & _ & Hh & Ht) & _); [intros; by apply sim_construct | done |].
  subst run. cbn beta in Hr, Hh, Ht. unfold called_since.
  rewrite Hr, Hh, Ht. clear Hr Hh Ht.
  split.
  - intros u e Hu.
    destruct (construct_shared_reaches i w u e Hu) as (args & w1 & post & Hreach & Hp).
    destruct (construct_shared_run i w args w1 Hreach)
      as (notfound & cleanup & Hclean & Hh1 & Hrun).
    rewrite Hrun in Hu |- *. cbn [fst snd] in *.
    destruct (parse_and_wrap_handle _ _ _ _ _ _ Hu)
      as (-> & fp & fv & p & rest & x & xs & Hfp & Hfv & Hp0 & Hx & Ht & -> & Hh).
    split; [done|]. exists fp, fv, args, p, rest, x, xs.
    destruct (Hclean (snd (parse_and_wrap Global.lookup_export (parse_export i)
                             notfound args w1))) as (Hch & pre & Hct).
    split_and!; try done.
    + exists pre, post. by rewrite Hct, Ht, Hp.
    + by rewrite Hh1.
    + by rewrite Hch, Hh, Hh1.
  - intros args w1 fp p rest m2 Hreach Hfp Hi Hp0.
    destruct (reaches_parse_shared v i w args w1 Hc Hreach)
      as (w1' & Hreach' & Hb & Hg & _ & Ht1).
    rewrite Hb, Hg in Hi.
    destruct (construct_shared_run i w args w1' Hreach')
      as (notfound & cleanup & Hclean & Hh1 & Hrun).
    rewrite Hrun. cbn [fst snd].
    pose proof (parse_and_wrap_decision (parse_export i) notfound args w1' fp p rest m2
                  Hfp Hi Hp0) as Hd. cbn zeta in Hd.
    destruct (predicate_outcome G "ada_is_valid" (uint32 p) m2) as [[|]|];
      [by rewrite Hd, Hh1| |done].
    destruct Hd as (Hr & Hh & Hf).
    destruct (Hclean (snd (parse_and_wrap Global.lookup_export (parse_export i)
                             notfound args w1'))) as (Hch & pre & Hct).
    split_and!; [done | by rewrite Hch, Hh, Hh1 |].
    intros fa Hfa. destruct (Hf fa Hfa) as (res & pre' & post' & Ht').
    exists res, (pre ++ pre'), post'. rewrite Hct, Ht', Ht1. by rewrite <- app_assoc.
Qed.

End Construction.

Lemma construction_requires_valid_object_witness :
  (fst (construct (resolver ParserInstance) (FromString "xyz") Double.fresh)
     = Ret (None, Some ErrInvalidUrl) /\
   heap (snd (construct (resolver ParserInstance) (FromString "xyz") Double.fresh)) = [] /\
   exists res,
     called_since (snd (writeStringToWasm (resolver ParserInstance) "xyz" Double.fresh))
       (snd (construct (resolver ParserInstance) (FromString "xyz") Double.fresh))
       (EvCall 5%nat [11] res)) /\
  (fst (construct (resolver SharedInstance) (FromStringWithBase "hi" "h") Double.fresh)
     = Ret (Some 0%nat, None)).
Proof.
  split.
  - pose (w1 := snd (writeStringToWasm (resolver ParserInstance) "xyz" Double.fresh)).
    pose (m2 := snd (invoke Double.guest 2%nat [8; 3] (Buffer w1, globals w1))).
    destruct (construction_requires_valid_object (G:=Double.guest) ParserInstance
                Double.fresh (FromString "xyz") (cache_ok_NewParser _)) as [_ H].
    specialize (H [8; 3] w1 2%nat 11 [] m2).
    assert (Hreach : reaches_parse (resolver ParserInstance) (FromString "xyz")
                       Double.fresh [8; 3] w1).
    { split; [discriminate|]. exists 8. split; [|reflexivity].
      rewrite (surjective_pairing (writeStringToWasm _ _ _)).
      f_equal; vm_compute; reflexivity. }
    specialize (H Hreach eq_refl).
    assert (Hi : invoke Double.guest 2%nat [8; 3] (Buffer w1, globals w1)
                 = (inl [11], m2)) by (vm_compute; reflexivity).
    specialize (H Hi).
    assert (H0 : uint32 11 <> 0) by (vm_compute; discriminate).
    specialize (H H0).
    assert (Hv : predicate_outcome Double.guest "ada_is_valid" (uint32 11) m2
                 = Some false) by (vm_compute; reflexivity).
    rewrite Hv in H. destruct H as (Hr & Hh & Hf). split_and!; [exact Hr | exact Hh |].
    exact (Hf 5%nat eq_refl).
  - pose (w0 := snd (writeStringToWasm (resolver SharedInstance) "hi" Double.fresh)).
    pose (w1 := snd (writeStringToWasm (resolver SharedInstance) "h" w0)).
    pose (m2 := snd (invoke Double.guest 3%nat [8; 2; 10; 1] (Buffer w1, globals w1))).
    destruct (construction_requires_valid_object (G:=Double.guest) SharedInstance
                Double.fresh (FromStringWithBase "hi" "h") I) as [_ H].
    specialize (H [8; 2; 10; 1] w1 3%nat 11 [] m2).
    assert (Hreach : reaches_parse (resolver SharedInstance) (FromStringWithBase "hi" "h")
                       Double.fresh [8; 2; 10; 1] w1).
    { split; [discriminate|]. split; [discriminate|]. exists 8, 10, w0.
      split_and!; [| |reflexivity];
        rewrite (surjective_pairing (writeStringToWasm _ _ _));
        f_equal; vm_compute; reflexivity. }
    specialize (H Hreach eq_refl).
    assert (Hi : invoke Double.guest 3%nat [8; 2; 10; 1] (Buffer w1, globals w1)
                 = (inl [11], m2)) by (vm_compute; reflexivity).
    specialize (H Hi).
    assert (H0 : uint32 11 <> 0) by (vm_compute; discriminate).
    specialize (H H0).
    assert (Hv : predicate_outcome Double.guest "ada_is_valid" (uint32 11) m2
                 = Some true) by (vm_compute; reflexivity).
    rewrite Hv in H. exact H.
Defined.

(** ** Predicates and accessors *)

Section Methods.

Context {G : Guest}.
Implicit Types w : World G.

Lemma predicates_are_predicate resolve name (op : ptr_Url -> M G bool) :
  (name, op) ∈ predicates resolve -> op = predicate resolve name.
Proof.
  unfold predicates. intros H.
  repeat (apply elem_of_cons in H as [[= -> ->]|H]; [reflexivity|]).
  by apply elem_of_nil in H.
Qed.

Lemma accessors_are_accessor resolve {reach : Reach resolve} name
    (op : ptr_Url -> M G string) :
  (name, op) ∈ accessors resolve -> op = accessor resolve name.
Proof.
  unfold accessors. intros H.
  repeat (apply elem_of_cons in H as [[= -> ->]|H]; [reflexivity|]).
  by apply elem_of_nil in H.
Qed.

Lemma bool_setters_are_callSetterBool resolve {reach : Reach resolve} name
    (op : string -> ptr_Url -> M G bool) :
  (name, op) ∈ bool_setters resolve ->
  op = fun value => callSetterBool resolve name value.
Proof.
  unfold bool_setters. intros H.
  repeat (apply elem_of_cons in H as [[= -> ->]|H]; [reflexivity|]).
  by apply elem_of_nil in H.
Qed.

Lemma void_setters_are_callSetterVoid resolve {reach : Reach resolve} name
    (op : string -> ptr_Url -> M G unit) :
  (name, op) ∈ void_setters resolve ->
  op = fun value => callSetterVoid resolve name value.
Proof.
  unfold void_setters. intros H.
  repeat (apply elem_of_cons in H as [[= -> ->]|H]; [reflexivity|]).
  by apply elem_of_nil in H.
Qed.

(** A predicate on a handle is [callAdaBoolFunction] on its pointer. *)
Lemma predicate_on resolve name u o w :
  heap w !! u = Some o ->
  predicate resolve name u w = callAdaBoolFunction resolve name (cpointer o) w.
Proof. intros H. unfold predicate, bind, load. by rewrite H. Qed.

(** The answer of a predicate, and the guest call it makes, in either
    variant. *)
Lemma predicate_run (v : variant) name u o w :
  consistent v w -> heap w !! u = Some o ->
  fst (predicate (resolver v) name u w) =
    match predicate_outcome G name (cpointer o) (Buffer w, globals w) with
    | Some b => Ret b
    | None => Panic "index out of range [0] with length 0"
    end /\
  trace (snd (predicate (resolver v) name u w)) =
    match ExportedFunction G name with
    | Some f =>
        EvCall f [cpointer o] (fst (invoke G f [cpointer o] (Buffer w, globals w)))
        :: trace w
    | None => trace w
    end.
Proof.
  intros Hc H. rewrite (predicate_on _ name u o w H).
  destruct (variant_run (fun r => callAdaBoolFunction r name (cpointer o)) v w)
    as (Hr & (_ & _ & _ & Ht) & _); [intros; by apply sim_callAdaBoolFunction | done |].
  rewrite Hr, Ht, callAdaBoolFunction_outcome. split; [done|].
  rewrite callAdaBoolFunction_shared.
  destruct (ExportedFunction G name) as [f|]; [|done].
  by destruct (invoke G f [cpointer o] (Buffer w, globals w)).
Qed.

Lemma bind_run {A B} (c : M G A) (k : A -> M G B) w a w' :
  c w = (Ret a, w') -> bind c k w = k a w'.
Proof. intros H. unfold bind. by rewrite H. Qed.

Lemma load_run u o w : heap w !! u = Some o -> load u w = (Ret o, w).
Proof. intros H. unfold load. by rewrite H. Qed.

(** [u.parser] on a handle that exists. *)
Lemma receiver_run (v : variant) u o w :
  heap w !! u = Some o -> receiver (resolver v) u w = (Ret tt, w).
Proof.
  intros H. unfold receiver. destruct (through_receiver (resolver v)); [|done].
  by rewrite (bind_run _ _ _ _ _ (load_run u o w H)).
Qed.

(** [u.parser] on a nil handle, in the parser package. *)
Lemma receiver_nil u w :
  heap w !! u = None ->
  receiver Pool.getFunction u w
    = (Panic "invalid memory address or nil pointer dereference", w).
Proof. intros H. unfold receiver, bind, load. cbn. by rewrite H. Qed.

(** On a handle that exists, a method is what it does once the handle's
    pointer has been read, in both files. *)
Lemma accessor_on_handle (v : variant) name u o w :
  heap w !! u = Some o ->
  accessor (resolver v) name u w = accessor_on (resolver v) name (cpointer o) w.
Proof.
  intros H. unfold accessor, accessor_on.
  rewrite (bind_run _ _ _ _ _ (receiver_run v u o w H)).
  destruct (resolver_frame v name w) as (r & c & Hr).
  rewrite !(bind_run _ _ _ _ _ Hr).
  destruct r as [fn|]; [|done].
  by rewrite (bind_run _ _ _ _ _ (load_run u o (set_funcCache c w) H)).
Qed.

Lemma callSetterBool_on_handle (v : variant) name value u o w :
  heap w !! u = Some o ->
  callSetterBool (resolver v) name value u w =
    setter_bool_on (resolver v) name value (cpointer o) w.
Proof.
  intros H. unfold callSetterBool, setter_bool_on.
  rewrite (bind_run _ _ _ _ _ (receiver_run v u o w H)).
  destruct (resolver_frame v name w) as (r & c & Hr).
  rewrite !(bind_run _ _ _ _ _ Hr).
  destruct r as [fn|]; [|done].
  pose proof (keeps_heap_writeStringToWasm v value (set_funcCache c w)) as Hh.
  destruct (writeStringToWasm (resolver v) value (set_funcCache c w))
    as [[[valuePtr e]|msg] w1] eqn:Hw.
  - rewrite !(bind_run _ _ _ _ _ Hw). destruct e; [done|].
    cbn in Hh. unfold defer.
    by rewrite (bind_run _ _ _ _ _ (load_run u o w1 ltac:(by rewrite Hh))).
  - unfold bind. by rewrite Hw.
Qed.

Lemma callSetterVoid_on_handle (v : variant) name value u o w :
  heap w !! u = Some o ->
  callSetterVoid (resolver v) name value u w =
    setter_void_on (resolver v) name value (cpointer o) w.
Proof.
  intros H. unfold callSetterVoid, setter_void_on.
  rewrite (bind_run _ _ _ _ _ (receiver_run v u o w H)).
  destruct (resolver_frame v name w) as (r & c & Hr).
  rewrite !(bind_run _ _ _ _ _ Hr).
  destruct r as [fn|]; [|done].
  pose proof (keeps_heap_writeStringToWasm v value (set_funcCache c w)) as Hh.
  destruct (writeStringToWasm (resolver v) value (set_funcCache c w))
    as [[[valuePtr e]|msg] w1] eqn:Hw.
  - rewrite !(bind_run _ _ _ _ _ Hw). destruct e; [done|].
    cbn in Hh. unfold defer.
    by rewrite (bind_run _ _ _ _ _ (load_run u o w1 ltac:(by rewrite Hh))).
  - unfold bind. by rewrite Hw.
Qed.

(** An accessor on a handle, with the plain export lookup. *)
Lemma accessor_shared name u o w :
  heap w !! u = Some o ->
  fst (accessor Global.lookup_export name u w) =
    match ExportedFunction G name with
    | None => Ret ""%string
    | Some f =>
        match fst (readAdaString Global.lookup_export f (cpointer o) w) with
        | Ret (s, _) => Ret s
        | Panic msg => Panic msg
        end
    end.
Proof.
  intros H. pose proof (accessor_on_handle SharedInstance name u o w H) as E.
  change (@resolver G SharedInstance) with (@Global.lookup_export G) in E.
  change (resolver_reach SharedInstance) with (@Global.lookup_export_reach G) in E.
  rewrite E. unfold accessor_on, Global.lookup_export.
  unfold bind at 1. unfold ret at 1.
  destruct (ExportedFunction G name) as [f|]; [|done].
  unfold bind at 1.
  change (fun name => ret (ExportedFunction G name)) with (@Global.lookup_export G).
  by destruct (readAdaString Global.lookup_export f (cpointer o) w) as [[[s e]|msg] w1].
Qed.

(** The scratch buffer could not be allocated. *)
Lemma readAdaString_no_buffer fn p w :
  match ExportedFunction G "malloc" with
  | None => True
  | Some fm => exists msg, fst (invoke G fm [8] (Buffer w, globals w)) = inr msg
  end ->
  exists e, fst (readAdaString Global.lookup_export fn p w) = Ret (""%string, Some e).
Proof.
  unfold readAdaString, wasmMalloc, Global.lookup_export.
  unfold bind at 1 2. unfold ret at 1.
  destruct (ExportedFunction G "malloc") as [fm|]; [|by eexists].
  intros [msg Hm]. unfold bind at 1. unfold Call.
  destruct (invoke G fm [8] (Buffer w, globals w)) as [res m]. cbn in Hm. subst res.
  by eexists.
Qed.

(** Whatever [readAdaString] is to report as an error comes with the empty
    string. *)
Lemma result_string_error res mem resultPtr :
  snd (result_string res mem resultPtr) <> None ->
  fst (result_string res mem resultPtr) = ""%string.
Proof.
  unfold result_string. destruct res; [|done].
  destruct (hasSize mem resultPtr 8); [|done].
  destruct (_ || _); [done|]. by destruct (hasSize _ _ _).
Qed.

(** C6. In both variants, for each of the ten predicates and each of the
    ten accessors of a handle.  A predicate answers [false] when its export
    is missing and when the guest call fails, and it answers [true] exactly
    when the call succeeds with a non-zero first result word.  An accessor
    returns the empty string when its getter is missing, when the scratch
    buffer cannot be allocated, when the getter call fails and when a read
    of guest memory fails; in every other case it returns the string the
    result struct describes.  No error reaches the caller: the methods
    return a [bool] and a [string]. *)
Theorem predicates_and_accessors_degrade (v : variant) w (u : ptr_Url) (o : Url)
    (name : string) :
  consistent v w ->
  heap w !! u = Some o ->
  (forall op, (name, op) ∈ predicates (resolver v) ->
     (ExportedFunction G name = None -> fst (op u w) = Ret false) /\
     (forall f msg,
        ExportedFunction G name = Some f ->
        fst (invoke G f [cpointer o] (Buffer w, globals w)) = inr msg ->
        fst (op u w) = Ret false) /\
     (fst (op u w) = Ret true <->
      exists f r0 rs,
        ExportedFunction G name = Some f /\
        fst (invoke G f [cpointer o] (Buffer w, globals w)) = inl (r0 :: rs) /\
        r0 <> 0)) /\
  (forall op, (name, op) ∈ accessors (resolver v) ->
     (ExportedFunction G name = None -> fst (op u w) = Ret ""%string) /\
     (forall f, ExportedFunction G name = Some f ->
        (ExportedFunction G "malloc" = None -> fst (op u w) = Ret ""%string) /\
        (forall fm msg,
           ExportedFunction G "malloc" = Some fm ->
           fst (invoke G fm [8] (Buffer w, globals w)) = inr msg ->
           fst (op u w) = Ret ""%string) /\
        (forall fm p rest m1 res m2,
           ExportedFunction G "malloc" = Some fm ->
           invoke G fm [8] (Buffer w, globals w) = (inl (p :: rest), m1) ->
           invoke G f [uint32 p; cpointer o] m1 = (res, m2) ->
           fst (op u w) = Ret (fst (result_string res (fst m2) (uint32 p))) /\
           (snd (result_string res (fst m2) (uint32 p)) <> None ->
            fst (op u w) = Ret ""%string)))).
Proof.
  intros Hc H. split.
  - intros op Hop. rewrite (predicates_are_predicate _ _ _ Hop).
    destruct (predicate_run v name u o w Hc H) as [Hr _]. rewrite Hr.
    unfold predicate_outcome. split_and!.
    + by intros ->.
    + intros f msg -> Hi. by rewrite Hi.
    + split.
      * destruct (ExportedFunction G name) as [f|]; [|done].
        destruct (invoke G f [cpointer o] (Buffer w, globals w))
          as [[[|r0 rs]|msg] m] eqn:Hi; cbn; try done.
        intros [= Hb]. exists f, r0, rs. split_and!; [done | by rewrite Hi |].
        intros ->. done.
      * intros (f & r0 & rs & -> & Hi & Hr0). rewrite Hi. cbn.
        apply Z.eqb_neq in Hr0. by rewrite Hr0.
  - intros op Hop. rewrite (accessors_are_accessor _ _ _ Hop).
    rewrite (accessor_on_handle v name u o w H).
    destruct (variant_run (fun r => accessor_on r name (cpointer o)) v w) as (Hr & _);
      [intros; by apply sim_accessor_on | done |].
    cbn beta in Hr. rewrite Hr. clear Hr.
    pose proof (accessor_on_handle SharedInstance name u o w H) as E.
    change (@resolver G SharedInstance) with (@Global.lookup_export G) in E.
    change (resolver_reach SharedInstance) with (@Global.lookup_export_reach G) in E.
    rewrite <- E, (accessor_shared name u o w H). clear E.
    split; [by intros ->|]. intros f ->. split_and!.
    + intros Hm.
      destruct (readAdaString_no_buffer f (cpointer o) w) as [e ->]; [by rewrite Hm|done].
    + intros fm msg Hm Hi.
      destruct (readAdaString_no_buffer f (cpointer o) w) as [e ->];
        [rewrite Hm; by eexists | done].
    + intros fm p rest m1 res m2 Hm H1 H2.
      rewrite (readAdaString_shared f (cpointer o) w fm p rest m1 res m2 Hm H1 H2).
      cbn [fst].
      pose proof (result_string_error res (fst m2) (uint32 p)) as He.
      destruct (result_string res (fst m2) (uint32 p)) as [s e]. cbn [fst snd] in *.
      split; [done|]. intros Hn. by rewrite He.
Qed.

End Methods.

Ltac pick_member :=
  first [ apply list_elem_of_here | apply list_elem_of_further; pick_member ].

Lemma predicates_and_accessors_degrade_witness :
  (fst (HasHash (resolver ParserInstance) 0%nat parsed) = Ret false) /\
  (fst (Valid (resolver ParserInstance) 0%nat parsed) = Ret true) /\
  (fst (Protocol (resolver ParserInstance) 0%nat parsed) = Ret ""%string) /\
  (fst (Href (resolver ParserInstance) 0%nat parsed) = Ret "http"%string).
Proof.
  assert (Ho : heap parsed !! 0%nat = Some (mkUrl 12 true)) by (vm_compute; reflexivity).
  pose proof (fun name => predicates_and_accessors_degrade (G:=Double.guest)
                ParserInstance parsed 0%nat (mkUrl 12 true) name cache_ok_parsed Ho) as H.
  split_and!.
  - destruct (H "ada_has_hash"%string) as [Hp _].
    destruct (Hp (HasHash (resolver ParserInstance))) as (Hmiss & _).
    { unfold predicates. pick_member. }
    exact (Hmiss eq_refl).
  - destruct (H "ada_is_valid"%string) as [Hp _].
    destruct (Hp (Valid (resolver ParserInstance))) as (_ & _ & Ht).
    { unfold predicates. pick_member. }
    apply Ht. exists 4%nat, 1, []. split_and!; [reflexivity | vm_compute; reflexivity | done].
  - destruct (H "ada_get_protocol"%string) as [_ Ha].
    destruct (Ha (Protocol (resolver ParserInstance))) as (Hmiss & _).
    { unfold accessors. pick_member. }
    exact (Hmiss eq_refl).
  - destruct (H "ada_get_href"%string) as [_ Ha].
    destruct (Ha (Href (resolver ParserInstance))) as (_ & Hget).
    { unfold accessors. pick_member. }
    destruct (Hget 6%nat eq_refl) as (_ & _ & Hrun).
    pose (m1 := snd (invoke Double.guest 0%nat [8] (Buffer parsed, globals parsed))).
    pose (m2 := snd (invoke Double.guest 6%nat [18; 12] m1)).
    destruct (Hrun 0%nat 18 [] m1 (inl []) m2 eq_refl) as [Hs _];
      [vm_compute; reflexivity | vm_compute; reflexivity |].
    rewrite Hs. vm_compute. reflexivity.
Defined.

(** ** Operations on a freed handle *)

Section Freed.

Context {G : Guest}.
Implicit Types w : World G.

(** C8, as the code has it.  [Free] leaves the null sentinel in the handle,
    and nothing in the host rejects a later operation on it: every
    predicate, accessor and setter runs as on a live handle, with the null
    sentinel (never the pointer the handle held) in the place of the URL
    pointer.  A predicate whose export exists makes its guest call, with
    argument 0, and returns what the guest answers. *)
Theorem freed_handle_passes_null_sentinel (v : variant) w (u : ptr_Url) (o : Url)
    (name value : string) :
  consistent v w ->
  heap w !! u = Some o ->
  let w1 := snd (Free (resolver v) u w) in
  heap w1 !! u = Some (mkUrl 0 false) /\
  (forall op, (name, op) ∈ predicates (resolver v) ->
     op u w1 = callAdaBoolFunction (resolver v) name 0 w1 /\
     fst (op u w1) =
       match predicate_outcome G name 0 (Buffer w1, globals w1) with
       | Some b => Ret b
       | None => Panic "index out of range [0] with length 0"
       end /\
     forall f, ExportedFunction G name = Some f ->
       trace (snd (op u w1)) =
         EvCall f [0] (fst (invoke G f [0] (Buffer w1, globals w1))) :: trace w1) /\
  (forall op, (name, op) ∈ accessors (resolver v) ->
     op u w1 = accessor_on (resolver v) name 0 w1) /\
  (forall op, (name, op) ∈ bool_setters (resolver v) ->
     op value u w1 = setter_bool_on (resolver v) name value 0 w1) /\
  (forall op, (name, op) ∈ void_setters (resolver v) ->
     op value u w1 = setter_void_on (resolver v) name value 0 w1).
Proof.
  intros Hc H w1.
  destruct (do_release_fires v ExplicitFree u o w H I) as (w1' & Hr & Hh & _).
  cbn [do_release] in Hr.
  assert (H1 : heap w1 !! u = Some (mkUrl 0 false)).
  { unfold w1. rewrite Hr. cbn [snd]. rewrite Hh.
    apply list_lookup_insert_eq. by eapply lookup_lt_Some. }
  assert (Hc1 : consistent v w1).
  { by destruct (variant_run (fun r => Free r u) v w) as (_ & _ & ?);
      [intros; by apply sim_Free | |]. }
  clearbody w1. split_and!; [done| | | |].
  - intros op Hop. rewrite (predicates_are_predicate _ _ _ Hop).
    destruct (predicate_run v name u _ w1 Hc1 H1) as [Ho Ht].
    split_and!; [by apply (predicate_on _ name u _ w1 H1) | done |].
    intros f Hf. by rewrite Ht, Hf.
  - intros op Hop. rewrite (accessors_are_accessor _ _ _ Hop).
    apply (accessor_on_handle v name u _ w1 H1).
  - intros op Hop. rewrite (bool_setters_are_callSetterBool _ _ _ Hop).
    apply (callSetterBool_on_handle v name value u _ w1 H1).
  - intros op Hop. rewrite (void_setters_are_callSetterVoid _ _ _ Hop).
    apply (callSetterVoid_on_handle v name value u _ w1 H1).
Qed.

End Freed.

Lemma freed_handle_passes_null_sentinel_witness :
  heap released !! 0%nat = Some (mkUrl 0 false) /\
  fst (Valid (resolver ParserInstance) 0%nat released) = Ret false /\
  trace (snd (Valid (resolver ParserInstance) 0%nat released)) =
    EvCall 4%nat [0] (inl [0]) :: trace released.
Proof.
  assert (Ho : heap parsed !! 0%nat = Some (mkUrl 12 true)) by (vm_compute; reflexivity).
  destruct (freed_handle_passes_null_sentinel (G:=Double.guest) ParserInstance parsed
              0%nat (mkUrl 12 true) "ada_is_valid" "" cache_ok_parsed Ho)
    as (Hh & Hp & _).
  change (snd (Free (resolver ParserInstance) 0%nat parsed)) with released in Hh, Hp.
  split; [exact Hh|].
  destruct (Hp (Valid (resolver ParserInstance))) as (_ & Hr & Ht).
  { unfold predicates. pick_member. }
  split.
  - rewrite Hr. vm_compute. reflexivity.
  - rewrite (Ht 4%nat eq_refl). f_equal; vm_compute; reflexivity.
Defined.

(** C8, as the claim has it, fails: on the test double, after [New] and
    [Free], [Valid] and [Href] on the freed handle return normally, and the
    log shows the guest called with the null pointer, in both variants. *)
Lemma freed_handle_reaches_guest :
  heap released !! 0%nat = Some (mkUrl 0 false) /\
  fst (Pool.Valid 0%nat released) = Ret false /\
  trace (snd (Pool.Valid 0%nat released)) = EvCall 4%nat [0] (inl [0]) :: trace released /\
  fst (Global.Valid 0%nat released) = Ret false /\
  trace (snd (Global.Valid 0%nat released)) = EvCall 4%nat [0] (inl [0]) :: trace released /\
  fst (Pool.Href 0%nat released) = Ret ""%string /\
  trace (snd (Pool.Href 0%nat released)) =
    EvCall 1%nat [18] (inl []) :: EvCall 6%nat [18; 0] (inl [])
    :: EvCall 0%nat [8] (inl [18]) :: trace released.
Proof. vm_compute. by split_and!. Qed.

(** ** The function cache under concurrent callers *)

Module ConcurrentFacts.
Local Abbreviation cache_of := funcCache (only parsing).
Import Concurrent.

#[local] Set Warnings "-clear-no-such-hyp".

Section Facts.

Context {G : Guest}.
Implicit Types s : parser.

Lemma invariant_init : invariant G init.
Proof.
  constructor; cbn; done.
Qed.

(** The statement a goroutine executes keeps the list of goroutines. *)
Lemma statement_threads i p s s' p' :
  statement G i p s = Some (s', p') -> threads s' = threads s.
Proof.
  destruct p; cbn; repeat case_match; intros [= <- <-]; done.
Qed.

(** Another goroutine's view survives the statement of goroutine [i]. *)
Lemma statement_others i p s s' p' j q :
  invariant G s ->
  threads s !! i = Some p ->
  statement G i p s = Some (s', p') ->
  j <> i ->
  threads s !! j = Some q ->
  (holds_write q = true <-> writer s' = Some j) /\
  (holds_read q = true <-> j ∈ readers s') /\
  knows G (funcCache s') q.
Proof.
  intros [Hc He Hrb Hwb Ht] Hi Hs Hne Hj.
  destruct (Ht i p Hi) as (Hwi & Hri & Hki).
  destruct (Ht j q Hj) as (Hwj & Hrj & Hkj).
  destruct p; cbn in Hs; repeat case_match; simplify_eq; cbn in *;
    try (split_and!; [done | set_solver | done]);
    try (split_and!; [naive_solver | set_solver | done]).
  - (* the store: only the holder of the lock is at a lookup or a store *)
    assert (Hw : writer s = Some i) by (by apply Hwi).
    split_and!; [done|done|].
    destruct Hki as [Hnone _].
    destruct q; cbn in *; try done.

    + intros f' ->. rewrite lookup_insert_ne; [by apply Hkj|].
      intros <-. specialize (Hkj f' eq_refl). congruence.
    + intros f' ->. rewrite lookup_insert_ne; [by apply Hkj|].
      intros <-. specialize (Hkj f' eq_refl). congruence.
    + destruct Hwj as [Hwj _]. specialize (Hwj eq_refl). congruence.
    + destruct Hwj as [Hwj _]. specialize (Hwj eq_refl). congruence.
Qed.

(** The goroutine that executed the statement stands where the statement
    says, with an accurate view. *)
Lemma statement_self i p s s' p' :
  invariant G s ->
  threads s !! i = Some p ->
  statement G i p s = Some (s', p') ->
  (holds_write p' = true <-> writer s' = Some i) /\
  (holds_read p' = true <-> i ∈ readers s') /\
  knows G (funcCache s') p'.
Proof.
  intros [Hc He Hrb Hwb Ht] Hi Hs.
  destruct (Ht i p Hi) as (Hwi & Hri & Hki).
  destruct p; cbn in Hs; repeat case_match; simplify_eq; cbn in *;
    (split; [ try solve [exact Hwi | intuition congruence]
            | split; [ try solve [exact Hri | set_solver]
                     | try solve [done | exact Hki | intuition congruence] ] ]).
  - (* the cached handle is returned *)
    symmetry. apply Hc. by apply Hki.
  - (* the re-check found the handle *)
    symmetry. by apply Hc.
Qed.

(** The shared part of the parser after a statement. *)
Lemma statement_shared i p s s' p' :
  invariant G s ->
  threads s !! i = Some p ->
  statement G i p s = Some (s', p') ->
  (forall name fn, funcCache s' !! name = Some fn -> ExportedFunction G name = Some fn) /\
  (writer s' <> None -> readers s' = ∅) /\
  (forall j, j ∈ readers s' -> (j < length (threads s))%nat) /\
  (forall j, writer s' = Some j -> (j < length (threads s))%nat).
Proof.
  intros [Hc He Hrb Hwb Ht] Hi Hs.
  destruct (Ht i p Hi) as (Hwi & Hri & Hki).
  pose proof (lookup_lt_Some _ _ _ Hi) as Hlt.
  destruct p; cbn in Hs; repeat case_match; simplify_eq; cbn in *;
    (split; [try done | split; [try done | split; [ try done | try done]]]).
  - (* RLock *)
    intros j [->%elem_of_singleton|Hj]%elem_of_union; [done | by apply Hrb].
  - intros j Hj. congruence.
  - (* RUnlock *)
    intros Hw. rewrite (He Hw). set_solver.
  - intros j [Hj _]%elem_of_difference. by apply Hrb.
  - (* Lock *)
    by intros j [= <-].
  - (* the store *)
    intros name' fn'. destruct Hki as [_ Hf].
    destruct (decide (name = name')) as [<-|Hne].
    + rewrite lookup_insert_eq. congruence.
    + rewrite lookup_insert_ne by done. apply Hc.
Qed.

(** Every action keeps the invariant. *)
Lemma exec_invariant a s : invariant G s -> invariant G (exec G a s).
Proof.
  intros Hinv. destruct a as [i|i name|name]; cbn.
  - destruct (threads s !! i) as [p|] eqn:Hi; [|done].
    destruct (statement G i p s) as [[s' p']|] eqn:Hs; [|done].
    pose proof (statement_threads i p s s' p' Hs) as Hth.
    destruct (statement_shared i p s s' p' Hinv Hi Hs) as (Hc & He & Hrb & Hwb).
    pose proof (lookup_lt_Some _ _ _ Hi) as Hlt.
    constructor; cbn; rewrite ?length_insert, ?Hth; try done.
    intros j q Hj. destruct (decide (j = i)) as [->|Hne].
    + rewrite list_lookup_insert_eq in Hj by done. injection Hj as <-.
      by apply (statement_self i p s s' p').
    + rewrite list_lookup_insert_ne in Hj by done.
      by apply (statement_others i p s s' p' j q).
  - destruct (threads s !! i) as [p|] eqn:Hi; [|done].
    destruct p; try done.
    destruct Hinv as [Hc He Hrb Hwb Ht].
    destruct (Ht i _ Hi) as (Hwi & Hri & Hki).
    pose proof (lookup_lt_Some _ _ _ Hi) as Hlt.
    constructor; cbn; rewrite ?length_insert; try done.
    intros j q Hj. destruct (decide (j = i)) as [->|Hne].
    + rewrite list_lookup_insert_eq in Hj by done. injection Hj as <-. cbn in *.
      split_and!; [naive_solver | naive_solver | done].
    + rewrite list_lookup_insert_ne in Hj by done. by apply Ht.
  - destruct Hinv as [Hc He Hrb Hwb Ht].
    constructor; cbn; rewrite ?length_app; cbn; try done.
    + intros i Hi. specialize (Hrb i Hi). lia.
    + intros i Hi. specialize (Hwb i Hi). lia.
    + intros j q Hj. apply lookup_app_Some in Hj as [Hj|[Hge Hj]]; [by apply Ht|].
      apply list_lookup_singleton_Some in Hj as [Hj <-]. cbn.
      assert (j = length (threads s)) as -> by lia.
      split_and!; [| |done].
      * split; [done|]. intros Hw. specialize (Hwb _ Hw). lia.
      * split; [done|]. intros Hr. specialize (Hrb _ Hr). lia.
Qed.

(** An action leaves the cache as it is, or adds the export of a name that
    had no entry: no entry is removed, none is replaced. *)
Lemma exec_cache a s :
  invariant G s ->
  funcCache (exec G a s) = funcCache s \/
  exists name fn,
    funcCache s !! name = None /\
    ExportedFunction G name = Some fn /\
    funcCache (exec G a s) = <[name := fn]> (funcCache s).
Proof.
  intros [Hc He Hrb Hwb Ht]. destruct a as [i|i name|name]; cbn; [| |by left].
  - destruct (threads s !! i) as [p|] eqn:Hi; [|by left].
    destruct (Ht i p Hi) as (_ & _ & Hk).
    destruct p; cbn; repeat case_match; simplify_eq; cbn; try by left.
    right. destruct Hk as [Hn Hf]. by eexists _, _.
  - destruct (threads s !! i) as [[]|]; by left.
Qed.

Lemma exec_cache_subseteq a s :
  invariant G s -> funcCache s ⊆ funcCache (exec G a s).
Proof.
  intros Hinv. destruct (exec_cache a s Hinv) as [->|(name & fn & Hn & _ & ->)]; [done|].
  by apply insert_subseteq.
Qed.

Lemma run_invariant schedule : forall s, invariant G s -> invariant G (run G schedule s).
Proof.
  induction schedule as [|a schedule IH]; intros s Hinv; [done|].
  cbn. apply IH. by apply exec_invariant.
Qed.





End Facts.
End ConcurrentFacts.

Section CacheForLife.

Context {G : Guest}.
Implicit Types w : World G.


(** And it leaves the cache sound: [cache_ok] holds of every world that
    comes from [NewParser] by operations of the adapter. *)
Lemma pool_keeps_cache_ok {A} (op : (string -> M G (option funcidx)) -> M G A) w :
  (forall r1 r2, (forall name, sim (r1 name) (r2 name)) -> sim (op r1) (op r2)) ->
  cache_ok w ->
  cache_ok (snd (op Pool.getFunction w)).
Proof.
  intros Hop Hc.
  by destruct (Hop _ _ sim_getFunction w w (same_instance_refl w) Hc) as (_ & _ & ? & _).
Qed.






End CacheForLife.



(** ** Programs of API calls *)

Section ApiSimulation.

Context {G : Guest}.
Implicit Types w : World G.

Lemma sim_run {A} (c1 c2 : M G A) w1 w2 :
  sim c1 c2 -> same_instance w1 w2 -> cache_ok w1 ->
  fst (c1 w1) = fst (c2 w2) /\
  same_instance (snd (c1 w1)) (snd (c2 w2)) /\
  cache_ok (snd (c1 w1)) /\
  funcCache w1 ⊆ funcCache (snd (c1 w1)).
Proof. intros H. apply H. Qed.

(** One call, in the parser package and in [goadawasm.go], on the same
    instance: the same answer, unless it is an accessor or a setter on a
    nil handle. *)
Lemma api_agrees (c : api_call) w1 w2 :
  same_instance w1 w2 -> cache_ok w1 ->
  (forall u, receiver_of c = Some u -> is_Some (heap w1 !! u)) ->
  fst (api Pool.getFunction c w1) = fst (api Global.lookup_export c w2) /\
  same_instance (snd (api Pool.getFunction c w1)) (snd (api Global.lookup_export c w2)) /\
  cache_ok (snd (api Pool.getFunction c w1)) /\
  funcCache w1 ⊆ funcCache (snd (api Pool.getFunction c w1)).
Proof.
  intros Hs Hc Hu.
  assert (Hh : heap w2 = heap w1) by (symmetry; apply Hs).
  destruct c; cbn [api receiver_of] in *.
  - apply sim_run; [|done|done].
    apply sim_bind; [apply sim_New; intros; apply sim_getFunction | intros ?; apply sim_ret].
  - apply sim_run; [|done|done].
    apply sim_bind; [apply sim_NewWithBase; intros; apply sim_getFunction | intros ?; apply sim_ret].
  - apply sim_run; [|done|done].
    apply sim_bind; [apply sim_Free; intros; apply sim_getFunction | intros ?; apply sim_ret].
  - apply sim_run; [|done|done].
    apply sim_bind; [apply sim_run_finalizer; intros; apply sim_getFunction | intros ?; apply sim_ret].
  - apply sim_run; [|done|done].
    apply sim_bind; [apply sim_predicate; intros; apply sim_getFunction | intros ?; apply sim_ret].
  - destruct (Hu u eq_refl) as [o Ho].
    pose proof (accessor_on_handle ParserInstance funcName u o w1 Ho) as E1.
    pose proof (accessor_on_handle SharedInstance funcName u o w2
                  ltac:(by rewrite Hh)) as E2.
    cbn [resolver] in E1, E2.
    change (resolver_reach ParserInstance) with (@Pool.getFunction_reach G) in E1.
    change (resolver_reach SharedInstance) with (@Global.lookup_export_reach G) in E2.
    unfold bind. rewrite E1, E2.
    apply (sim_run (bind (accessor_on Pool.getFunction funcName (cpointer o))
                         (fun s => ret (AString s)))
                   (bind (accessor_on Global.lookup_export funcName (cpointer o))
                         (fun s => ret (AString s)))); [|done|done].
    apply sim_bind; [apply sim_accessor_on; intros; apply sim_getFunction | intros ?; apply sim_ret].
  - destruct (Hu u eq_refl) as [o Ho].
    pose proof (callSetterBool_on_handle ParserInstance funcName value u o w1 Ho) as E1.
    pose proof (callSetterBool_on_handle SharedInstance funcName value u o w2
                  ltac:(by rewrite Hh)) as E2.
    cbn [resolver] in E1, E2.
    change (resolver_reach ParserInstance) with (@Pool.getFunction_reach G) in E1.
    change (resolver_reach SharedInstance) with (@Global.lookup_export_reach G) in E2.
    unfold bind. rewrite E1, E2.
    apply (sim_run (bind (setter_bool_on Pool.getFunction funcName value (cpointer o))
                         (fun b => ret (ABool b)))
                   (bind (setter_bool_on Global.lookup_export funcName value (cpointer o))
                         (fun b => ret (ABool b)))); [|done|done].
    apply sim_bind; [apply sim_setter_bool_on; intros; apply sim_getFunction | intros ?; apply sim_ret].
  - destruct (Hu u eq_refl) as [o Ho].
    pose proof (callSetterVoid_on_handle ParserInstance funcName value u o w1 Ho) as E1.
    pose proof (callSetterVoid_on_handle SharedInstance funcName value u o w2
                  ltac:(by rewrite Hh)) as E2.
    cbn [resolver] in E1, E2.
    change (resolver_reach ParserInstance) with (@Pool.getFunction_reach G) in E1.
    change (resolver_reach SharedInstance) with (@Global.lookup_export_reach G) in E2.
    unfold bind. rewrite E1, E2.
    apply (sim_run (bind (setter_void_on Pool.getFunction funcName value (cpointer o))
                         (fun _ => ret ANothing))
                   (bind (setter_void_on Global.lookup_export funcName value (cpointer o))
                         (fun _ => ret ANothing))); [|done|done].
    apply sim_bind; [apply sim_setter_void_on; intros; apply sim_getFunction | intros ?; apply sim_ret].
Qed.

Lemma run_api_agrees calls : forall w1 w2,
  same_instance w1 w2 -> cache_ok w1 ->
  on_handles Pool.getFunction calls w1 ->
  fst (run_api Pool.getFunction calls w1) = fst (run_api Global.lookup_export calls w2) /\
  same_instance (snd (run_api Pool.getFunction calls w1))
                (snd (run_api Global.lookup_export calls w2)) /\
  cache_ok (snd (run_api Pool.getFunction calls w1)) /\
  funcCache w1 ⊆ funcCache (snd (run_api Pool.getFunction calls w1)).
Proof.
  induction calls as [|c calls IH]; intros w1 w2 Hs Hc Hon; cbn [run_api].
  - by split_and!.
  - destruct Hon as [Hu Hon].
    destruct (api_agrees c w1 w2 Hs Hc Hu) as (Hr & Hs' & Hc' & Hsub).
    destruct (api Pool.getFunction c w1) as [r1 w1'].
    destruct (api Global.lookup_export c w2) as [r2 w2']. cbn [fst snd] in *.
    destruct (IH w1' w2' Hs' Hc' Hon) as (Hr' & Hs'' & Hc'' & Hsub').
    destruct (run_api Pool.getFunction calls w1') as [rs1 w1''].
    destruct (run_api Global.lookup_export calls w2') as [rs2 w2'']. cbn [fst snd] in *.
    split_and!; [congruence | done | done | by etrans].
Qed.

(** X1. The two packages are interchangeable on programs that call no
    accessor and no setter on a nil handle.  Run from a parser whose cache
    is sound, such a program of API calls gets from the parser package the
    answers it gets from [goadawasm.go] on the same instance, call by call,
    and leaves the same guest memory, guest state, handles and log of guest
    calls; the cache stays sound and has kept every entry.  (On a nil handle
    the two files differ: the parser package dereferences [u.parser]
    first.) *)
Theorem packages_agree (calls : list api_call) w :
  cache_ok w ->
  on_handles Pool.getFunction calls w ->
  fst (run_api Pool.getFunction calls w) = fst (run_api Global.lookup_export calls w) /\
  same_instance (snd (run_api Pool.getFunction calls w))
                (snd (run_api Global.lookup_export calls w)) /\
  cache_ok (snd (run_api Pool.getFunction calls w)) /\
  funcCache w ⊆ funcCache (snd (run_api Pool.getFunction calls w)).
Proof. intros Hc Hon. apply run_api_agrees; [apply same_instance_refl | done | done]. Qed.

End ApiSimulation.

Lemma packages_agree_witness :
  fst (run_api Pool.getFunction
         [DoNew "http"; DoAccessor "ada_get_href" 0%nat; DoFree 0%nat;
          DoPredicate "ada_is_valid" 0%nat] Double.fresh)
    = [Ret (AHandle (Some 0%nat) None); Ret (AString "http"); Ret ANothing;
       Ret (ABool false)] /\
  trace (snd (run_api Pool.getFunction
                [DoNew "http"; DoAccessor "ada_get_href" 0%nat; DoFree 0%nat;
                 DoPredicate "ada_is_valid" 0%nat] Double.fresh))
    = trace (snd (run_api Global.lookup_export
                    [DoNew "http"; DoAccessor "ada_get_href" 0%nat; DoFree 0%nat;
                     DoPredicate "ada_is_valid" 0%nat] Double.fresh)).
Proof.
  assert (Hon : on_handles Pool.getFunction
                  [DoNew "http"; DoAccessor "ada_get_href" 0%nat; DoFree 0%nat;
                   DoPredicate "ada_is_valid" 0%nat] Double.fresh).
  { cbn [on_handles receiver_of]. split_and!; try done.
    intros u [= <-]. exists (mkUrl 12 true). vm_compute. reflexivity. }
  destruct (packages_agree (G:=Double.guest)
              [DoNew "http"; DoAccessor "ada_get_href" 0%nat; DoFree 0%nat;
               DoPredicate "ada_is_valid" 0%nat] Double.fresh (cache_ok_NewParser _) Hon)
    as (Hr & (_ & _ & _ & Ht) & _).
  split; [|exact Ht].
  rewrite Hr. vm_compute. reflexivity.
Defined.

(** ** What the API does to the handles *)

Section HandleFrame.

Context {G : Guest}.
Implicit Types w : World G.
Variable v : variant.

Lemma keeps_heap_load u : keeps_heap (load (G:=G) u).
Proof. intros w. unfold load. by destruct (heap w !! u). Qed.
Hint Resolve keeps_heap_load : frame.
Hint Resolve keeps_heap_wasmFree keeps_heap_writeStringToWasm keeps_heap_readAdaString
  keeps_heap_callAdaBoolFunction : frame.

Lemma keeps_heap_receiver u : keeps_heap (receiver (G:=G) (resolver v) u).
Proof. unfold receiver. destruct (through_receiver _); frame_walk. Qed.
Hint Resolve keeps_heap_receiver : frame.

Lemma keeps_heap_predicate name u : keeps_heap (predicate (G:=G) (resolver v) name u).
Proof. unfold predicate. frame_walk. Qed.

Lemma keeps_heap_accessor name u : keeps_heap (accessor (G:=G) (resolver v) name u).
Proof. unfold accessor. frame_walk. Qed.

Lemma keeps_heap_callSetterBool name value u :
  keeps_heap (callSetterBool (G:=G) (resolver v) name value u).
Proof. unfold callSetterBool. frame_walk. Qed.

Lemma keeps_heap_callSetterVoid name value u :
  keeps_heap (callSetterVoid (G:=G) (resolver v) name value u).
Proof. unfold callSetterVoid. frame_walk. Qed.

(** X2. The methods of a handle leave the handles alone.  A predicate, an
    accessor or a setter, whatever it returns and also when it panics,
    changes no [Url] object of the host: no pointer field, no finalizer. *)
Theorem methods_keep_handles (c : api_call) w :
  is_method c = true ->
  heap (snd (api (resolver v) c w)) = heap w.
Proof.
  intros Hc.
  assert (Hk : keeps_heap (G:=G) (api (resolver v) c)); [|apply Hk].
  destruct c; try discriminate Hc; cbn [api];
    (apply keeps_heap_bind; [|intros ?; apply keeps_heap_ret]).
  - apply keeps_heap_predicate.
  - apply keeps_heap_accessor.
  - apply keeps_heap_callSetterBool.
  - apply keeps_heap_callSetterVoid.
Qed.

End HandleFrame.

Lemma methods_keep_handles_witness :
  heap (snd (api (resolver ParserInstance) (DoSetterBool "ada_set_href" "x" 0%nat) parsed))
    = heap parsed.
Proof.
  apply (methods_keep_handles (G:=Double.guest) ParserInstance
           (DoSetterBool "ada_set_href" "x" 0%nat) parsed).
  reflexivity.
Defined.

Section HandleLifecycle.

Context {G : Guest}.
Implicit Types w : World G.

Lemma heap_evolves_refl (h : list Url) : heap_evolves h h.
Proof. intros u o H. exists o. split; [done | by left]. Qed.

Lemma heap_evolves_trans (h1 h2 h3 : list Url) :
  heap_evolves h1 h2 -> heap_evolves h2 h3 -> heap_evolves h1 h3.
Proof.
  intros H12 H23 u o H.
  destruct (H12 u o H) as (o2 & H2 & E2). destruct (H23 u o2 H2) as (o3 & H3 & E3).
  exists o3. split; [done|]. unfold handle_evolves in *.
  destruct E3 as [E3|E3]; [|by right]. rewrite E3. exact E2.
Qed.

Lemma evolves_keeps {A} (c : M G A) : keeps_heap c -> evolves c.
Proof. intros Hk w. rewrite Hk. apply heap_evolves_refl. Qed.

Lemma evolves_ret {A} (a : A) : evolves (G:=G) (ret a).
Proof. intros w. apply heap_evolves_refl. Qed.

Lemma evolves_bind {A B} (c : M G A) (k : A -> M G B) :
  evolves c -> (forall a, evolves (k a)) -> evolves (bind c k).
Proof.
  intros Hc Hk w. unfold bind. specialize (Hc w).
  destruct (c w) as [[a|msg] w1]; cbn in *; [|done].
  eapply heap_evolves_trans; [exact Hc | apply Hk].
Qed.

Lemma evolves_defer {A B} (d : M G B) (c : M G A) :
  evolves d -> evolves c -> evolves (defer d c).
Proof.
  intros Hd Hc w. unfold defer. specialize (Hc w).
  destruct (c w) as [r w1]; cbn in *.
  eapply heap_evolves_trans; [exact Hc | apply Hd].
Qed.

(** A new object takes a new address. *)
Lemma evolves_alloc_Url o : evolves (alloc_Url (G:=G) o).
Proof.
  intros w u o' H. cbn. exists o'. split; [|by left].
  by apply lookup_app_l_Some.
Qed.

(** Storing the null sentinel in a handle. *)
Lemma evolves_store_null u f : evolves (store_Url (G:=G) u (mkUrl 0 f)).
Proof.
  intros w. unfold store_Url.
  destruct (heap w !! u) as [o0|] eqn:Hu; [|apply heap_evolves_refl].
  intros u' o' H. cbn. destruct (decide (u' = u)) as [->|Hne].
  - eexists. split; [apply list_lookup_insert_eq; by eapply lookup_lt_Some|]. by right.
  - exists o'. split; [by rewrite list_lookup_insert_ne | by left].
Qed.

(** Registering or clearing the finalizer keeps the pointer. *)
Lemma evolves_SetFinalizer u b : evolves (SetFinalizer (G:=G) u b).
Proof.
  intros w. destruct (heap w !! u) as [o|] eqn:Hu.
  - rewrite (SetFinalizer_run u o b w Hu).
    intros u' o' H. cbn. destruct (decide (u' = u)) as [->|Hne].
    + rewrite Hu in H. injection H as <-.
      exists (mkUrl (cpointer o) b).
      split; [apply list_lookup_insert_eq; by eapply lookup_lt_Some|].
      by left.
    + exists o'. split; [by rewrite list_lookup_insert_ne | by left].
  - unfold SetFinalizer, bind, load. rewrite Hu. apply heap_evolves_refl.
Qed.

End HandleLifecycle.

Create HintDb evolve discriminated.
#[export] Hint Resolve evolves_ret evolves_alloc_Url evolves_store_null
  evolves_SetFinalizer : evolve.
#[export] Hint Extern 5 (evolves _) =>
  solve [apply evolves_keeps; auto with frame] : evolve.

Ltac evolve_step :=
  first
    [ solve [auto with evolve]
    | apply evolves_bind; [| intros ?]
    | apply evolves_defer
    | match goal with
      | |- evolves (match ?x with _ => _ end) => destruct x
      | |- evolves (if ?x then _ else _) => destruct x
      | |- evolves (let '(_, _) := ?x in _) => destruct x
      end ].
Ltac evolve_walk := repeat evolve_step.

Section LifecycleOfOperations.

Context {G : Guest}.
Implicit Types w : World G.
Variable v : variant.

Hint Resolve keeps_heap_load keeps_heap_wasmFree keeps_heap_writeStringToWasm
  keeps_heap_readAdaString keeps_heap_callAdaBoolFunction keeps_heap_call_ada_free
  keeps_heap_predicate keeps_heap_accessor keeps_heap_callSetterBool
  keeps_heap_callSetterVoid : frame.

Lemma evolves_ada_free u : evolves (ada_free (G:=G) (resolver v) u).
Proof. unfold ada_free. evolve_walk. Qed.

Lemma evolves_Free u : evolves (Free (G:=G) (resolver v) u).
Proof. unfold Free. pose proof evolves_ada_free. evolve_walk. Qed.

Lemma evolves_run_finalizer u : evolves (run_finalizer (G:=G) (resolver v) u).
Proof. unfold run_finalizer. pose proof evolves_ada_free. evolve_walk. Qed.

Lemma evolves_wrap_parsed results : evolves (wrap_parsed (G:=G) (resolver v) results).
Proof. unfold wrap_parsed. evolve_walk. Qed.

Lemma evolves_New s : evolves (New (G:=G) (resolver v) s).
Proof. unfold New. pose proof evolves_wrap_parsed. evolve_walk. Qed.

Lemma evolves_NewWithBase s b : evolves (NewWithBase (G:=G) (resolver v) s b).
Proof. unfold NewWithBase. pose proof evolves_wrap_parsed. evolve_walk. Qed.

Lemma evolves_api c : evolves (api (G:=G) (resolver v) c).
Proof.
  pose proof evolves_New. pose proof evolves_NewWithBase.
  pose proof evolves_Free. pose proof evolves_run_finalizer.
  destruct c; cbn [api]; evolve_walk.
Qed.

(** X3. A handle is never lost and its pointer is never replaced.  Whatever
    sequence of constructor calls, method calls, explicit releases and
    finalizer runs the host makes, in either package, every [Url] object
    that existed before is still there afterwards, and its pointer field
    is either what it was or the null sentinel. *)
Theorem handles_only_evolve (calls : list api_call) w :
  heap_evolves (heap w) (heap (snd (run_api (resolver v) calls w))).
Proof.
  revert w. induction calls as [|c calls IH]; intros w.
  - apply heap_evolves_refl.
  - cbn [run_api]. pose proof (evolves_api c w) as Hc.
    destruct (api (resolver v) c w) as [r w1]. cbn [snd] in Hc.
    specialize (IH w1). destruct (run_api (resolver v) calls w1) as [rs w2].
    cbn [snd] in *. eapply heap_evolves_trans; eassumption.
Qed.

End LifecycleOfOperations.

(** ** The constructors beyond the parse result *)

Section ConstructorOutcome.

Context {G : Guest}.
Implicit Types w : World G.
Variable v : variant.

Lemma constructs_error e : constructs (G:=G) (ret (None, Some e)).
Proof. intros w. reflexivity. Qed.

Lemma constructs_bind {A} (c : M G A) k :
  keeps_heap c -> (forall a, constructs (k a)) -> constructs (bind c k).
Proof.
  intros Hc Hk w. unfold bind. specialize (Hc w).
  destruct (c w) as [[a|msg] w1]; cbn in *; [|done].
  specialize (Hk a w1). unfold constructor_outcome in *. by rewrite Hc in Hk.
Qed.

Lemma constructs_defer {B} (d : M G B) c :
  keeps_heap d -> constructs c -> constructs (defer d c).
Proof.
  intros Hd Hc w. unfold defer. specialize (Hc w).
  destruct (c w) as [r w1]. specialize (Hd w1).
  unfold constructor_outcome in *. by rewrite Hd.
Qed.

Lemma constructs_wrap_parsed results :
  constructs (wrap_parsed (G:=G) (resolver v) results).
Proof.
  unfold wrap_parsed.
  apply constructs_bind; [apply keeps_heap_index0 | intros r0].
  destruct (uint32 r0 =? 0) eqn:Hz; [apply constructs_error|].
  apply constructs_bind; [apply keeps_heap_callAdaBoolFunction | intros valid].
  destruct valid; cbn [negb].
  - intros w. unfold bind at 1. unfold alloc_Url at 1.
    set (w0 := set_heap _ w).
    assert (H0 : heap w0 !! length (heap w) = Some (mkUrl (uint32 r0) false)).
    { cbn. by rewrite lookup_app_r, Nat.sub_diag. }
    unfold bind. rewrite (SetFinalizer_run _ _ true w0 H0). cbn.
    split; [done|]. exists (uint32 r0). split.
    + pose proof (uint32_range r0). apply Z.eqb_neq in Hz. lia.
    + rewrite insert_app_r_alt, Nat.sub_diag by done. done.
  - apply constructs_bind; [apply keeps_heap_call_ada_free | intros _].
    apply constructs_error.
Qed.

Lemma constructs_New s : constructs (New (G:=G) (resolver v) s).
Proof.
  unfold New. destruct (len s =? 0); [apply constructs_error|].
  apply constructs_bind; [apply keeps_heap_writeStringToWasm | intros [urlPtr [e|]]];
    [apply constructs_error|].
  apply constructs_defer; [apply keeps_heap_wasmFree|].
  apply constructs_bind; [apply keeps_heap_resolver | intros [fp|]];
    [|apply constructs_error].
  apply constructs_bind; [apply keeps_heap_Call | intros [results [e|]]];
    [apply constructs_error | apply constructs_wrap_parsed].
Qed.

Lemma constructs_NewWithBase s b : constructs (NewWithBase (G:=G) (resolver v) s b).
Proof.
  unfold NewWithBase. destruct (_ || _); [apply constructs_error|].
  apply constructs_bind; [apply keeps_heap_writeStringToWasm | intros [urlPtr [e|]]];
    [apply constructs_error|].
  apply constructs_defer; [apply keeps_heap_wasmFree|].
  apply constructs_bind; [apply keeps_heap_writeStringToWasm | intros [basePtr [e|]]];
    [apply constructs_error|].
  apply constructs_defer; [apply keeps_heap_wasmFree|].
  apply constructs_bind; [apply keeps_heap_resolver | intros [fp|]];
    [|apply constructs_error].
  apply constructs_bind; [apply keeps_heap_Call | intros [results [e|]]];
    [apply constructs_error | apply constructs_wrap_parsed].
Qed.

(** X4. A constructor answers with a handle or with an error, never with
    both and never with neither.  The handle is a new [Url] object with a
    non-null 32-bit pointer and a registered finalizer, added after the
    existing ones; with an error, and also when the constructor panics, no
    [Url] object has been created or changed.  This holds in both packages,
    for every guest and every state of the instance and of the cache. *)
Theorem constructor_gives_handle_or_error (i : source) w :
  constructor_outcome w (construct (resolver v) i w).
Proof.
  destruct i; cbn [construct]; [apply constructs_New | apply constructs_NewWithBase].
Qed.

End ConstructorOutcome.

Section ConstructorPaths.

Context {G : Guest}.
Implicit Types w : World G.

(** A constructor that has reached the parse call is the shared text
    followed by the deferred releases of its buffers. *)
Lemma construct_shared_cleanup i w args w1 :
  reaches_parse Global.lookup_export i w args w1 ->
  construct Global.lookup_export i w =
    (fst (parse_and_wrap Global.lookup_export (parse_export i) (not_found i) args w1),
     release_buffers Global.lookup_export (input_buffers i args)
       (snd (parse_and_wrap Global.lookup_export (parse_export i) (not_found i) args w1))).
Proof.
  destruct i as [s|s b]; cbn [reaches_parse construct parse_export].
  - intros (Hs & urlPtr & Hw & ->).
    rewrite New_unfold.
    destruct (len s =? 0) eqn:Hl; [by apply Z.eqb_eq, len_zero in Hl|].
    unfold bind at 1. rewrite Hw. unfold defer.
    change (not_found (FromString s)) with "ada_parse function not found"%string.
    by destruct (parse_and_wrap _ _ _ _ w1).
  - intros (Hs & Hb & urlPtr & basePtr & w0 & Hw & Hw0 & ->).
    rewrite NewWithBase_unfold.
    destruct (len s =? 0) eqn:Hl; [by apply Z.eqb_eq, len_zero in Hl|].
    destruct (len b =? 0) eqn:Hl'; [by apply Z.eqb_eq, len_zero in Hl'|].
    cbn [orb]. unfold bind at 1. rewrite Hw. unfold defer at 1.
    unfold bind at 1. rewrite Hw0. unfold defer.
    change (not_found (FromStringWithBase s b))
      with "ada_parse_with_base function not found"%string.
    by destruct (parse_and_wrap _ _ _ _ w1).
Qed.

Lemma release_buffers_trace ptrs : forall w,
  exists fs, trace (release_buffers Global.lookup_export ptrs w) = fs ++ trace w /\
             released_by G ptrs fs.
Proof.
  unfold released_by.
  induction ptrs as [|p ptrs IH]; intros w; cbn [release_buffers foldr].
  - exists []. split; [done|]. destruct (ExportedFunction G "free"); [constructor | done].
  - destruct (IH w) as (fs & Ht & Hfs).
    fold (release_buffers (G:=G) Global.lookup_export ptrs w).
    rewrite wasmFree_shared.
    destruct (ExportedFunction G "free") as [ff|] eqn:Hf.
    + destruct (invoke G ff [p] _) as [res m]. cbn.
      exists (EvCall ff [p] res :: fs). split; [by rewrite Ht|].
      constructor; [by exists res | done].
    + exists []. cbn. subst fs. by rewrite Ht.
Qed.

Lemma extends_trace_parse_and_wrap (v : variant) name notfound args :
  extends_trace (parse_and_wrap (G:=G) (resolver v) name notfound args).
Proof.
  unfold parse_and_wrap, wrap_parsed, callAdaBoolFunction, call_ada_free.
  assert (forall o, extends_trace (alloc_Url (G:=G) o)) by (intros o w; by exists []).
  assert (forall u b, extends_trace (SetFinalizer (G:=G) u b)).
  { intros u b w. exists []. unfold SetFinalizer, bind, load, store_Url.
    destruct (heap w !! u); [|done]. cbn. by destruct (heap w !! u). }
  trace_walk.
Qed.

End ConstructorPaths.

Section ConstructorErrors.

Context {G : Guest}.
Implicit Types w : World G.

Lemma parse_and_wrap_paths name notfound args w :
  parse_and_wrap Global.lookup_export name notfound args w =
  match ExportedFunction G name with
  | None => (Ret (None, Some (errors_New notfound)), w)
  | Some fp =>
      let (res, m2) := invoke G fp args (Buffer w, globals w) in
      match res with
      | inr msg => (Ret (None, Some (ErrCall msg)), parsed_world w fp args res m2)
      | inl [] => (Panic "index out of range [0] with length 0",
                   parsed_world w fp args res m2)
      | inl results =>
          wrap_parsed Global.lookup_export results (parsed_world w fp args res m2)
      end
  end.
Proof.
  unfold parse_and_wrap, Global.lookup_export.
  unfold bind at 1. unfold ret at 1.
  destruct (ExportedFunction G name) as [fp|]; [|done].
  unfold bind at 1. unfold Call.
  by destruct (invoke G fp args (Buffer w, globals w)) as [[[|p rest]|msg] m2].
Qed.

Lemma construct_trace_shared (v : variant) i w args w1 :
  consistent v w ->
  reaches_parse (resolver v) i w args w1 ->
  exists w1',
    reaches_parse Global.lookup_export i w args w1' /\
    Buffer w1' = Buffer w1 /\ globals w1' = globals w1 /\ trace w1' = trace w1 /\
    fst (construct (resolver v) i w) = fst (construct Global.lookup_export i w) /\
    trace (snd (construct (resolver v) i w)) =
      trace (snd (construct Global.lookup_export i w)).
Proof.
  intros Hc Hr.
  destruct (reaches_parse_shared v i w args w1 Hc Hr) as (w1' & Hr' & HB & Hg & _ & Ht).
  destruct (variant_run (fun r => construct r i) v w
              (fun r1 r2 H => sim_construct r1 r2 i H) Hc) as (Hf & (_ & _ & _ & Ht') & _).
  exists w1'. by split_and!.
Qed.

(** X5. A constructor frees the guest buffers of its strings at every
    return.  Once the strings are in guest memory, whatever the parse call
    and the validity check do, and also when the constructor panics, the
    last guest calls of the constructor are [free] on the buffer of the
    base string and then [free] on the buffer of the URL string: the
    deferred calls, in reverse order of allocation.  (The log is newest
    first.)  A guest without [free] gets no such call. *)
Theorem constructors_release_their_buffers (v : variant) w (i : source) args w1 :
  consistent v w ->
  reaches_parse (resolver v) i w args w1 ->
  exists fs evs,
    trace (snd (construct (resolver v) i w)) = fs ++ evs ++ trace w1 /\
    released_by G (input_buffers i args) fs.
Proof.
  intros Hc Hr.
  destruct (construct_trace_shared v i w args w1 Hc Hr)
    as (w1' & Hr' & _ & _ & Ht1 & _ & Ht).
  rewrite Ht, (construct_shared_cleanup i w args w1' Hr'). cbn [snd].
  destruct (release_buffers_trace (input_buffers i args)
              (snd (parse_and_wrap Global.lookup_export (parse_export i) (not_found i)
                      args w1'))) as (fs & Hfs & Hrel).
  destruct (extends_trace_parse_and_wrap SharedInstance (parse_export i) (not_found i)
              args w1') as (evs & Hevs).
  change (@resolver G SharedInstance) with (@Global.lookup_export G) in Hevs.
  exists fs, evs. split; [|done]. by rewrite Hfs, Hevs, Ht1.
Qed.

(** X6. What a constructor makes of a guest that fails at the parse call.
    With the strings in guest memory: a missing parse export is the error
    [<export> function not found] and no parse call; a parse call that
    fails is that error; a parse call that returns the null pointer is
    [ErrInvalidUrl]; a parse call that returns no result word is a panic of
    the constructor (an index out of range).  In each case no validity
    check and no [ada_free] follow: after the parse call the only guest
    calls are the releases of the buffers. *)
Theorem construction_surfaces_guest_failures (v : variant) w (i : source) args w1 :
  consistent v w ->
  reaches_parse (resolver v) i w args w1 ->
  let run := construct (resolver v) i w in
  exists fs,
    released_by G (input_buffers i args) fs /\
    match ExportedFunction G (parse_export i) with
    | None =>
        fst run = Ret (None, Some (errors_New (not_found i))) /\
        trace (snd run) = fs ++ trace w1
    | Some fp =>
        let res := fst (invoke G fp args (Buffer w1, globals w1)) in
        match res with
        | inr msg =>
            fst run = Ret (None, Some (ErrCall msg)) /\
            trace (snd run) = fs ++ EvCall fp args res :: trace w1
        | inl [] =>
            fst run = Panic "index out of range [0] with length 0" /\
            trace (snd run) = fs ++ EvCall fp args res :: trace w1
        | inl (p :: _) =>
            uint32 p = 0 ->
            fst run = Ret (None, Some ErrInvalidUrl) /\
            trace (snd run) = fs ++ EvCall fp args res :: trace w1
        end
    end.
Proof.
  intros Hc Hr run. subst run.
  destruct (construct_trace_shared v i w args w1 Hc Hr)
    as (w1' & Hr' & HB & Hg & Ht1 & Hf & Ht).
  rewrite Hf, Ht, (construct_shared_cleanup i w args w1' Hr'). cbn [fst snd].
  rewrite <- HB, <- Hg, <- Ht1. clear Hf Ht HB Hg Ht1 Hr Hc w1.
  set (P := parse_and_wrap _ _ _ _ _).
  destruct (release_buffers_trace (input_buffers i args) (snd P)) as (fs & Hfs & Hrel).
  exists fs. split; [done|]. rewrite Hfs. clear Hfs Hrel.
  subst P. rewrite parse_and_wrap_paths.
  destruct (ExportedFunction G (parse_export i)) as [fp|]; [|done].
  destruct (invoke G fp args (Buffer w1', globals w1')) as [[[|p rest]|msg] m2];
    cbn [fst snd]; [done | | done].
  intros Hp. unfold wrap_parsed, bind, index0, ret. by rewrite Hp.
Qed.

End ConstructorErrors.

Lemma constructors_release_their_buffers_witness :
  let w0 := snd (writeStringToWasm (resolver SharedInstance) "hi" Double.fresh) in
  let w1 := snd (writeStringToWasm (resolver SharedInstance) "h" w0) in
  exists fs evs,
    trace (snd (construct (resolver SharedInstance) (FromStringWithBase "hi" "h")
                  Double.fresh)) = fs ++ evs ++ trace w1 /\
    frees 1%nat [8; 10] fs.
Proof.
  intros w0 w1.
  apply (constructors_release_their_buffers (G:=Double.guest) SharedInstance Double.fresh
           (FromStringWithBase "hi" "h") [8; 2; 10; 1] w1 I).
  split; [discriminate|]. split; [discriminate|]. exists 8, 10, w0.
  split_and!; [| |reflexivity];
    rewrite (surjective_pairing (writeStringToWasm _ _ _));
    f_equal; vm_compute; reflexivity.
Defined.

Lemma construction_surfaces_guest_failures_witness :
  fst (construct (resolver SharedInstance) (FromString "abc") Double.fresh)
    = Ret (None, Some ErrInvalidUrl).
Proof.
  pose (w1 := snd (writeStringToWasm (resolver SharedInstance) "abc" Double.fresh)).
  destruct (construction_surfaces_guest_failures (G:=Double.guest) SharedInstance
              Double.fresh (FromString "abc") [8; 3] w1 I) as (fs & _ & H).
  { split; [discriminate|]. exists 8. split; [|reflexivity].
    rewrite (surjective_pairing (writeStringToWasm _ _ _)).
    f_equal; vm_compute; reflexivity. }
  assert (E : ExportedFunction Double.guest (parse_export (FromString "abc")) = Some 2%nat)
    by reflexivity.
  rewrite E in H.
  assert (Hi : fst (invoke Double.guest 2%nat [8; 3] (Buffer w1, globals w1)) = inl [0])
    by (vm_compute; reflexivity).
  cbv zeta in H. rewrite Hi in H. exact (proj1 (H eq_refl)).
Defined.

Section BaseFailure.

Context {G : Guest}.
Implicit Types w : World G.

(** X7. [NewWithBase] when the base string cannot be copied into guest
    memory.  The URL string is in guest memory already; the constructor
    returns the marshalling error of the base, makes no parse call, creates
    no handle, and its one remaining guest call is the deferred [free] of
    the URL string's buffer. *)
Theorem NewWithBase_releases_url_when_base_fails (v : variant) w (s b : string)
    (urlPtr p : Z) (e : error) w0 w1 :
  consistent v w ->
  s <> ""%string -> b <> ""%string ->
  writeStringToWasm (resolver v) s w = (Ret (urlPtr, None), w0) ->
  writeStringToWasm (resolver v) b w0 = (Ret (p, Some e), w1) ->
  let run := NewWithBase (resolver v) s b w in
  fst run = Ret (None, Some e) /\
  heap (snd run) = heap w /\
  exists fs, released_by G [urlPtr] fs /\ trace (snd run) = fs ++ trace w1.
Proof.
  intros Hc Hs Hb Hw Hw0 run.
  assert (E : run = (Ret (None, Some e), snd (wasmFree (resolver v) urlPtr w1))).
  { subst run. rewrite NewWithBase_unfold.
    destruct (len s =? 0) eqn:Hl; [by apply Z.eqb_eq, len_zero in Hl|].
    destruct (len b =? 0) eqn:Hl'; [by apply Z.eqb_eq, len_zero in Hl'|].
    cbn [orb]. unfold bind at 1. rewrite Hw. unfold defer at 1.
    unfold bind at 1. by rewrite Hw0. }
  rewrite E. cbn [fst snd]. split; [done|].
  pose proof (keeps_heap_writeStringToWasm v s w) as Hh.
  pose proof (keeps_heap_writeStringToWasm v b w0) as Hh0.
  rewrite Hw in Hh. rewrite Hw0 in Hh0. cbn [snd] in Hh, Hh0.
  split; [by rewrite keeps_heap_wasmFree, Hh0, Hh|].
  destruct (variant_run (fun r => writeStringToWasm r s) v w
              (fun r1 r2 H => sim_writeStringToWasm r1 r2 H s) Hc) as (_ & _ & Hc0).
  cbv beta in Hc0. rewrite Hw in Hc0. cbn [snd] in Hc0.
  destruct (variant_run (fun r => writeStringToWasm r b) v w0
              (fun r1 r2 H => sim_writeStringToWasm r1 r2 H b) Hc0) as (_ & _ & Hc1).
  cbv beta in Hc1. rewrite Hw0 in Hc1. cbn [snd] in Hc1.
  destruct (variant_run (fun r => wasmFree r urlPtr) v w1
              (fun r1 r2 H => sim_wasmFree r1 r2 H urlPtr) Hc1) as (_ & (_ & _ & _ & Ht) & _).
  cbv beta in Ht. rewrite Ht.
  destruct (release_buffers_trace [urlPtr] w1) as (fs & Hfs & Hrel).
  exists fs. split; [done|]. exact Hfs.
Qed.

End BaseFailure.

Lemma NewWithBase_releases_url_when_base_fails_witness :
  let w0 := snd (writeStringToWasm (resolver SharedInstance) "hi" Double.nearly_full) in
  let w1 := snd (writeStringToWasm (resolver SharedInstance) "https" w0) in
  fst (NewWithBase (resolver SharedInstance) "hi" "https" Double.nearly_full)
    = Ret (None, Some (errors_New "failed to write string to WASM memory")) /\
  exists fs, frees 1%nat [60] fs /\
    trace (snd (NewWithBase (resolver SharedInstance) "hi" "https" Double.nearly_full))
      = fs ++ trace w1.
Proof.
  intros w0 w1.
  destruct (NewWithBase_releases_url_when_base_fails (G:=Double.guest) SharedInstance
              Double.nearly_full "hi" "https" 60 0
              (errors_New "failed to write string to WASM memory") w0 w1 I)
    as (Hr & _ & Ht).
  - discriminate.
  - discriminate.
  - rewrite (surjective_pairing (writeStringToWasm _ _ _)). f_equal; vm_compute; reflexivity.
  - rewrite (surjective_pairing (writeStringToWasm _ _ _)). f_equal; vm_compute; reflexivity.
  - split; [exact Hr | exact Ht].
Defined.

(** ** A release, exactly *)

Section ReleaseExactly.

Context {G : Guest}.
Implicit Types w : World G.

Lemma sim_do_release r1 r2 (r : release) u :
  (forall name, sim (G:=G) (r1 name) (r2 name)) ->
  sim (do_release r1 r u) (do_release r2 r u).
Proof. intros H. destruct r; cbn [do_release]; [by apply sim_Free | by apply sim_run_finalizer]. Qed.

Lemma call_ada_free_shared p w :
  call_ada_free Global.lookup_export p w =
  match ExportedFunction G "ada_free" with
  | Some fa =>
      let (res, m) := invoke G fa [p] (Buffer w, globals w) in
      (Ret tt, log (EvCall fa [p] res) (set_instance m w))
  | None => (Ret tt, w)
  end.
Proof.
  unfold call_ada_free, Global.lookup_export. unfold bind at 1. unfold ret at 1.
  destruct (ExportedFunction G "ada_free") as [fa|]; [|done].
  unfold bind, Call. by destruct (invoke G fa [p] _) as [[results|msg] m].
Qed.

Lemma ada_free_shared_instance u o w :
  heap w !! u = Some o -> cpointer o <> 0 ->
  let w1 := snd (ada_free Global.lookup_export u w) in
  let w' := snd (call_ada_free Global.lookup_export (cpointer o) w) in
  Buffer w1 = Buffer w' /\ globals w1 = globals w' /\ trace w1 = trace w'.
Proof.
  intros H Hn.
  assert (E : ada_free Global.lookup_export u w =
              (Ret tt, let w' := snd (call_ada_free Global.lookup_export (cpointer o) w) in
                       set_heap (<[u := mkUrl 0 (finalizer o)]> (heap w')) w')).
  { unfold ada_free, bind at 1. unfold load at 1. rewrite H.
    apply Z.eqb_neq in Hn. rewrite Hn. cbn [negb]. unfold bind at 1.
    destruct (call_ada_free_frame SharedInstance (cpointer o) w) as (w' & E & Hh & _).
    change (@resolver G SharedInstance) with (@Global.lookup_export G) in E.
    rewrite E. unfold bind, load, store_Url. rewrite Hh, H. cbn. by rewrite Hh, H. }
  by rewrite E.
Qed.

Lemma do_release_shared_instance r u o w :
  heap w !! u = Some o -> fires r o -> cpointer o <> 0 ->
  let w1 := snd (do_release Global.lookup_export r u w) in
  let w' := snd (call_ada_free Global.lookup_export (cpointer o) w) in
  Buffer w1 = Buffer w' /\ globals w1 = globals w' /\ trace w1 = trace w'.
Proof.
  intros H Hf Hn.
  assert (Hfree : let w1 := snd (Free Global.lookup_export u w) in
                  let w' := snd (call_ada_free Global.lookup_export (cpointer o) w) in
                  Buffer w1 = Buffer w' /\ globals w1 = globals w' /\ trace w1 = trace w').
  { unfold Free, bind. rewrite (SetFinalizer_run u o false w H).
    set (w0 := set_heap _ w).
    assert (H0 : heap w0 !! u = Some (mkUrl (cpointer o) false)).
    { cbn. apply list_lookup_insert_eq. by eapply lookup_lt_Some. }
    destruct (ada_free_shared_instance u _ w0 H0 Hn) as (HB & Hg & Ht).
    cbn [cpointer] in *. rewrite HB, Hg, Ht.
    rewrite !call_ada_free_shared. subst w0.
    destruct (ExportedFunction G "ada_free") as [fa|]; [|done].
    cbn. by destruct (invoke G fa _ _). }
  destruct r; cbn [do_release]; [exact Hfree|].
  cbn in Hf.
  assert (E : run_finalizer Global.lookup_export u w = Free Global.lookup_export u w).
  { unfold run_finalizer. unfold bind at 1. unfold load at 1. by rewrite H, Hf. }
  rewrite E. exact Hfree.
Qed.

(** X8. A release clears the handle whatever the guest does.  On a handle
    with a non-null pointer, [Free] (and the finalizer, while registered)
    returns normally with the pointer field set to the null sentinel and
    the finalizer cleared, and every other handle as it was.  The guest is
    called once, [ada_free] on the pointer, and the outcome of that call is
    ignored: a failed call clears the handle all the same.  When the guest
    exports no [ada_free], no guest call is made and the instance is left
    untouched, but the handle is cleared as well, so the guest object can
    no longer be released. *)
Theorem release_ignores_the_guest (v : variant) w (r : release) (u : ptr_Url) (o : Url) :
  consistent v w ->
  heap w !! u = Some o -> fires r o -> cpointer o <> 0 ->
  let run := do_release (resolver v) r u w in
  fst run = Ret tt /\
  heap (snd run) = <[u := mkUrl 0 false]> (heap w) /\
  match ExportedFunction G "ada_free" with
  | Some fa =>
      trace (snd run) =
        EvCall fa [cpointer o] (fst (invoke G fa [cpointer o] (Buffer w, globals w)))
        :: trace w /\
      (Buffer (snd run), globals (snd run)) =
        snd (invoke G fa [cpointer o] (Buffer w, globals w))
  | None =>
      trace (snd run) = trace w /\
      Buffer (snd run) = Buffer w /\ globals (snd run) = globals w
  end.
Proof.
  intros Hc H Hf Hn run. subst run.
  destruct (do_release_fires v r u o w H Hf) as (w' & E & Hh & _).
  rewrite E at 1 2. cbn [fst snd]. split; [done|]. split; [done|]. clear E Hh w'.
  destruct (variant_run (fun res => do_release res r u) v w
              (fun r1 r2 Hs => sim_do_release r1 r2 r u Hs) Hc)
    as (_ & (HB & Hg & _ & Ht) & _).
  rewrite HB, Hg, Ht.
  destruct (do_release_shared_instance r u o w H Hf Hn) as (HB' & Hg' & Ht').
  rewrite HB', Hg', Ht', call_ada_free_shared.
  destruct (ExportedFunction G "ada_free") as [fa|]; [|done].
  by destruct (invoke G fa _ _) as [res [mem st]].
Qed.

End ReleaseExactly.

Lemma release_ignores_the_guest_witness :
  let run := do_release (resolver ParserInstance) Finalizer 0%nat parsed in
  fst run = Ret tt /\
  heap (snd run) = [mkUrl 0 false] /\
  trace (snd run) = EvCall 5%nat [12] (inl []) :: trace parsed.
Proof.
  assert (H : heap parsed !! 0%nat = Some (mkUrl 12 true)) by (vm_compute; reflexivity).
  assert (Hn : cpointer (mkUrl 12 true) <> 0) by discriminate.
  destruct (release_ignores_the_guest (G:=Double.guest) ParserInstance parsed Finalizer
              0%nat (mkUrl 12 true) cache_ok_parsed H eq_refl Hn) as (Hr & Hh & Ht).
  assert (E : ExportedFunction Double.guest "ada_free" = Some 5%nat) by reflexivity.
  rewrite E in Ht. destruct Ht as [Ht _].
  split; [exact Hr|]. split.
  - rewrite Hh. vm_compute. reflexivity.
  - rewrite Ht. f_equal.
Defined.

(** ** The setters *)

Section SettersShared.

Context {G : Guest}.
Implicit Types w : World G.

Lemma wasmFree_released ptr w :
  exists fs, trace (snd (wasmFree Global.lookup_export ptr w)) = fs ++ trace w /\
             released_by G [ptr] fs.
Proof. apply (release_buffers_trace [ptr] w). Qed.

Lemma setter_bool_on_shared name value ptr w :
  setter_bool_on Global.lookup_export name value ptr w =
  match ExportedFunction G name with
  | None => (Ret false, w)
  | Some f =>
      match writeStringToWasm Global.lookup_export value w with
      | (Ret (valuePtr, None), w1) =>
          let (res, m) := invoke G f [ptr; valuePtr; len value] (Buffer w1, globals w1) in
          (setter_answer res,
           snd (wasmFree Global.lookup_export valuePtr
                  (log (EvCall f [ptr; valuePtr; len value] res) (set_instance m w1))))
      | (Ret (_, Some _), w1) => (Ret false, w1)
      | (Panic msg, w1) => (Panic msg, w1)
      end
  end.
Proof.
  unfold setter_bool_on, Global.lookup_export.
  unfold bind at 1. unfold ret at 1.
  change (fun name => ret (ExportedFunction G name)) with (@Global.lookup_export G).
  destruct (ExportedFunction G name) as [f|]; [|done].
  unfold bind at 1.
  destruct (writeStringToWasm Global.lookup_export value w) as [[[valuePtr [e|]]|msg] w1];
    [done| |done].
  unfold defer, bind, Call.
  by destruct (invoke G f [ptr; valuePtr; len value] (Buffer w1, globals w1))
    as [[[|r0 rest]|msg] m].
Qed.

Lemma setter_void_on_shared name value ptr w :
  setter_void_on Global.lookup_export name value ptr w =
  match ExportedFunction G name with
  | None => (Ret tt, w)
  | Some f =>
      match writeStringToWasm Global.lookup_export value w with
      | (Ret (valuePtr, None), w1) =>
          let (res, m) := invoke G f [ptr; valuePtr; len value] (Buffer w1, globals w1) in
          (Ret tt,
           snd (wasmFree Global.lookup_export valuePtr
                  (log (EvCall f [ptr; valuePtr; len value] res) (set_instance m w1))))
      | (Ret (_, Some _), w1) => (Ret tt, w1)
      | (Panic msg, w1) => (Panic msg, w1)
      end
  end.
Proof.
  unfold setter_void_on, Global.lookup_export.
  unfold bind at 1. unfold ret at 1.
  change (fun name => ret (ExportedFunction G name)) with (@Global.lookup_export G).
  destruct (ExportedFunction G name) as [f|]; [|done].
  unfold bind at 1.
  destruct (writeStringToWasm Global.lookup_export value w) as [[[valuePtr [e|]]|msg] w1];
    [done| |done].
  unfold defer, bind, Call.
  by destruct (invoke G f [ptr; valuePtr; len value] (Buffer w1, globals w1))
    as [[results|msg] m].
Qed.

End SettersShared.

Ltac find_member :=
  first [ apply list_elem_of_here | apply list_elem_of_further; find_member ].

Section Setters.

Context {G : Guest}.
Implicit Types w : World G.

(** X9. What the setters do.  A setter whose export is missing answers
    [false] (or nothing) without any guest call.  Otherwise the value is
    copied into guest memory first; if that fails, the setter answers
    [false] (or nothing) and the guest's setter is not called.  With the
    value at [valuePtr], the guest's setter is called once with the
    handle's pointer, [valuePtr] and the length of the value, and then the
    buffer is released, on every path.  A setter that reports success
    answers whether the first result word is non-zero, [false] when the
    call failed, and panics when the call returned no word; a setter that
    returns nothing ignores the outcome of the call altogether. *)
Theorem setters_call_the_guest_once (v : variant) w (u : ptr_Url) (o : Url)
    (name value : string) :
  consistent v w ->
  heap w !! u = Some o ->
  let wr := writeStringToWasm (resolver v) value w in
  (forall op, (name, op) ∈ bool_setters (resolver v) ->
     let run := op value u w in
     match ExportedFunction G name with
     | None =>
         fst run = Ret false /\ trace (snd run) = trace w /\
         Buffer (snd run) = Buffer w /\ globals (snd run) = globals w
     | Some f =>
         match fst wr with
         | Ret (valuePtr, None) =>
             let res := fst (invoke G f [cpointer o; valuePtr; len value]
                               (Buffer (snd wr), globals (snd wr))) in
             fst run = setter_answer res /\
             exists fs, released_by G [valuePtr] fs /\
               trace (snd run) =
                 fs ++ EvCall f [cpointer o; valuePtr; len value] res :: trace (snd wr)
         | Ret (_, Some _) => fst run = Ret false /\ trace (snd run) = trace (snd wr)
         | Panic msg => fst run = Panic msg /\ trace (snd run) = trace (snd wr)
         end
     end) /\
  (forall op, (name, op) ∈ void_setters (resolver v) ->
     let run := op value u w in
     match ExportedFunction G name with
     | None =>
         fst run = Ret tt /\ trace (snd run) = trace w /\
         Buffer (snd run) = Buffer w /\ globals (snd run) = globals w
     | Some f =>
         match fst wr with
         | Ret (valuePtr, None) =>
             let res := fst (invoke G f [cpointer o; valuePtr; len value]
                               (Buffer (snd wr), globals (snd wr))) in
             fst run = Ret tt /\
             exists fs, released_by G [valuePtr] fs /\
               trace (snd run) =
                 fs ++ EvCall f [cpointer o; valuePtr; len value] res :: trace (snd wr)
         | Ret (_, Some _) => fst run = Ret tt /\ trace (snd run) = trace (snd wr)
         | Panic msg => fst run = Panic msg /\ trace (snd run) = trace (snd wr)
         end
     end).
Proof.
  intros Hc H wr. subst wr.
  destruct (variant_run (fun r => writeStringToWasm r value) v w
              (fun r1 r2 Hs => sim_writeStringToWasm r1 r2 Hs value) Hc)
    as (Hfw & (HBw & Hgw & _ & Htw) & _).
  rewrite Hfw, HBw, Hgw, Htw. clear Hfw HBw Hgw Htw.
  split; intros op Hop run; subst run.
  - rewrite (bool_setters_are_callSetterBool _ _ _ Hop).
    rewrite (callSetterBool_on_handle v name value u o w H).
    destruct (variant_run (fun r => setter_bool_on r name value (cpointer o)) v w
                (fun r1 r2 Hs => sim_setter_bool_on r1 r2 Hs name value (cpointer o)) Hc)
      as (Hf & (HB & Hg & _ & Ht) & _).
    cbv beta in *. rewrite Hf, HB, Hg, Ht. clear Hf HB Hg Ht.
    rewrite setter_bool_on_shared.
    destruct (ExportedFunction G name) as [f|]; [|done].
    destruct (writeStringToWasm Global.lookup_export value w) as [[[valuePtr [e|]]|msg] w1];
      cbn [fst snd]; [done| |done].
    destruct (invoke G f [cpointer o; valuePtr; len value] (Buffer w1, globals w1))
      as [res m]. cbn [fst snd]. split; [done|].
    destruct (wasmFree_released valuePtr
                (log (EvCall f [cpointer o; valuePtr; len value] res) (set_instance m w1)))
      as (fs & Ht & Hrel).
    exists fs. split; [done|]. by rewrite Ht.
  - rewrite (void_setters_are_callSetterVoid _ _ _ Hop).
    rewrite (callSetterVoid_on_handle v name value u o w H).
    destruct (variant_run (fun r => setter_void_on r name value (cpointer o)) v w
                (fun r1 r2 Hs => sim_setter_void_on r1 r2 Hs name value (cpointer o)) Hc)
      as (Hf & (HB & Hg & _ & Ht) & _).
    cbv beta in *. rewrite Hf, HB, Hg, Ht. clear Hf HB Hg Ht.
    rewrite setter_void_on_shared.
    destruct (ExportedFunction G name) as [f|]; [|done].
    destruct (writeStringToWasm Global.lookup_export value w) as [[[valuePtr [e|]]|msg] w1];
      cbn [fst snd]; [done| |done].
    destruct (invoke G f [cpointer o; valuePtr; len value] (Buffer w1, globals w1))
      as [res m]. cbn [fst snd]. split; [done|].
    destruct (wasmFree_released valuePtr
                (log (EvCall f [cpointer o; valuePtr; len value] res) (set_instance m w1)))
      as (fs & Ht & Hrel).
    exists fs. split; [done|]. by rewrite Ht.
Qed.

End Setters.

Lemma setters_call_the_guest_once_witness :
  fst (SetPort (resolver SharedInstance) "8080" 0%nat SetterDouble.parsed) = Ret true /\
  fst (SetPort (resolver SharedInstance) "invalid-port" 0%nat SetterDouble.parsed)
    = Ret false /\
  fst (SetHref (resolver SharedInstance) "x" 0%nat SetterDouble.parsed) = Ret false /\
  fst (SetHash (resolver SharedInstance) "top" 0%nat SetterDouble.parsed) = Ret tt.
Proof.
  assert (H : heap SetterDouble.parsed !! 0%nat = Some (mkUrl 12 true))
    by (vm_compute; reflexivity).
  assert (E : ExportedFunction SetterDouble.guest "ada_set_port" = Some 8%nat)
    by reflexivity.
  split_and!.
  - destruct (setters_call_the_guest_once (G:=SetterDouble.guest) SharedInstance
                SetterDouble.parsed 0%nat (mkUrl 12 true) "ada_set_port" "8080" I H)
      as [Hb _].
    specialize (Hb (SetPort (resolver SharedInstance)) ltac:(find_member)).
    rewrite E in Hb.
    assert (Ew : fst (writeStringToWasm (resolver SharedInstance) "8080"
                        SetterDouble.parsed) = Ret (18, None))
      by (vm_compute; reflexivity).
    rewrite Ew in Hb. destruct Hb as [Hb _]. rewrite Hb. vm_compute. reflexivity.
  - destruct (setters_call_the_guest_once (G:=SetterDouble.guest) SharedInstance
                SetterDouble.parsed 0%nat (mkUrl 12 true) "ada_set_port" "invalid-port" I H)
      as [Hb _].
    specialize (Hb (SetPort (resolver SharedInstance)) ltac:(find_member)).
    rewrite E in Hb.
    assert (Ew : fst (writeStringToWasm (resolver SharedInstance) "invalid-port"
                        SetterDouble.parsed) = Ret (18, None))
      by (vm_compute; reflexivity).
    rewrite Ew in Hb. destruct Hb as [Hb _]. rewrite Hb. vm_compute. reflexivity.
  - destruct (setters_call_the_guest_once (G:=SetterDouble.guest) SharedInstance
                SetterDouble.parsed 0%nat (mkUrl 12 true) "ada_set_href" "x" I H)
      as [Hb _].
    specialize (Hb (SetHref (resolver SharedInstance)) ltac:(find_member)).
    assert (E' : ExportedFunction SetterDouble.guest "ada_set_href" = None) by reflexivity.
    rewrite E' in Hb. exact (proj1 Hb).
  - destruct (setters_call_the_guest_once (G:=SetterDouble.guest) SharedInstance
                SetterDouble.parsed 0%nat (mkUrl 12 true) "ada_set_hash" "top" I H)
      as [_ Hv].
    specialize (Hv (SetHash (resolver SharedInstance)) ltac:(find_member)).
    assert (E' : ExportedFunction SetterDouble.guest "ada_set_hash" = None) by reflexivity.
    rewrite E' in Hv. exact (proj1 Hv).
Defined.

(** ** The allocator and the decoder *)

Section Allocator.

Context {G : Guest}.
Implicit Types w : World G.

Lemma wasmMalloc_shared size w :
  wasmMalloc Global.lookup_export size w =
  match ExportedFunction G "malloc" with
  | None => (Ret (0, Some (errors_New "malloc function not found")), w)
  | Some fm =>
      let (res, m) := invoke G fm [size] (Buffer w, globals w) in
      (match res with
       | inl (r0 :: _) => Ret (uint32 r0, None)
       | inl [] => Panic "index out of range [0] with length 0"
       | inr msg => Ret (0, Some (ErrCall msg))
       end,
       log (EvCall fm [size] res) (set_instance m w))
  end.
Proof.
  unfold wasmMalloc, Global.lookup_export. unfold bind at 1. unfold ret at 1.
  destruct (ExportedFunction G "malloc") as [fm|]; [|done].
  unfold bind, Call.
  by destruct (invoke G fm [size] (Buffer w, globals w)) as [[[|r0 rest]|msg] m].
Qed.

(** X10. The allocation helper.  [wasmMalloc] calls the guest's [malloc]
    once, for every size, zero included, and touches nothing else.  It
    returns the first result word cut to 32 bits; a failed call is returned
    as the error with the null pointer; a call that returns no word makes
    it panic.  Without a [malloc] export it returns the error
    [malloc function not found] and makes no guest call.  So every result
    is a 32-bit pointer, and every error comes with the null pointer. *)
Theorem wasmMalloc_calls_guest_for_every_size (v : variant) w (size : Z) :
  consistent v w ->
  let run := wasmMalloc (resolver v) size w in
  match ExportedFunction G "malloc" with
  | None =>
      fst run = Ret (0, Some (errors_New "malloc function not found")) /\
      trace (snd run) = trace w /\
      Buffer (snd run) = Buffer w /\ globals (snd run) = globals w
  | Some fm =>
      let res := fst (invoke G fm [size] (Buffer w, globals w)) in
      trace (snd run) = EvCall fm [size] res :: trace w /\
      (Buffer (snd run), globals (snd run)) = snd (invoke G fm [size] (Buffer w, globals w)) /\
      fst run = match res with
                | inl (r0 :: _) => Ret (uint32 r0, None)
                | inl [] => Panic "index out of range [0] with length 0"
                | inr msg => Ret (0, Some (ErrCall msg))
                end
  end /\
  heap (snd run) = heap w /\
  (forall p e, fst run = Ret (p, e) -> 0 <= p < 2 ^ 32 /\ (e <> None -> p = 0)).
Proof.
  intros Hc run. subst run.
  destruct (variant_run (fun r => wasmMalloc r size) v w
              (fun r1 r2 Hs => sim_wasmMalloc r1 r2 Hs size) Hc)
    as (Hf & (HB & Hg & Hh & Ht) & _).
  cbv beta in *. rewrite Hf, HB, Hg, Hh, Ht. clear Hf HB Hg Hh Ht.
  rewrite wasmMalloc_shared.
  destruct (ExportedFunction G "malloc") as [fm|].
  - destruct (invoke G fm [size] (Buffer w, globals w)) as [res [mem st]].
    cbn [fst snd]. split; [by split_and!|]. split; [done|].
    intros p e Hr. destruct res as [[|r0 rest]|msg]; [done| |].
    + injection Hr as <- <-. split; [apply uint32_range | done].
    + injection Hr as <- <-. split; [done | done].
  - cbn [fst snd]. split; [by split_and!|]. split; [done|].
    intros p e Hr. injection Hr as <- <-. done.
Qed.

End Allocator.

Lemma wasmMalloc_calls_guest_for_every_size_witness :
  fst (wasmMalloc (resolver ParserInstance) 0 Double.fresh) = Ret (8, None) /\
  trace (snd (wasmMalloc (resolver ParserInstance) 0 Double.fresh))
    = [EvCall 0%nat [0] (inl [8])].
Proof.
  destruct (wasmMalloc_calls_guest_for_every_size (G:=Double.guest) ParserInstance
              Double.fresh 0 (cache_ok_NewParser _)) as (H & _ & _).
  assert (E : ExportedFunction Double.guest "malloc" = Some 0%nat) by reflexivity.
  rewrite E in H. destruct H as (Ht & _ & Hr). split.
  - rewrite Hr. vm_compute. reflexivity.
  - rewrite Ht. vm_compute. reflexivity.
Defined.

Lemma byte_to_uint32_inj b b' : byte_to_uint32 b = byte_to_uint32 b' -> b = b'.
Proof.
  unfold byte_to_uint32. intros H. apply N2Z.inj in H.
  pose proof (Byte.of_to_N b) as E. rewrite H, Byte.of_to_N in E. congruence.
Qed.

(** X11. The decoding of a 32-bit field loses nothing.  The value read from
    four bytes is below [2^32], so none of the shifts overflows into the
    next field, and two fields decode to the same value only when they
    agree byte for byte. *)
Theorem decode_uint32_is_faithful (bs bs' : list byte) (i j : nat) :
  0 <= decode_uint32 bs i < 2 ^ 32 /\
  (decode_uint32 bs i = decode_uint32 bs' j <->
   at_ bs i = at_ bs' j /\ at_ bs (i + 1) = at_ bs' (j + 1) /\
   at_ bs (i + 2) = at_ bs' (j + 2) /\ at_ bs (i + 3) = at_ bs' (j + 3)).
Proof.
  rewrite !decode_uint32_le.
  pose proof (byte_to_uint32_range (at_ bs i)).
  pose proof (byte_to_uint32_range (at_ bs (i + 1))).
  pose proof (byte_to_uint32_range (at_ bs (i + 2))).
  pose proof (byte_to_uint32_range (at_ bs (i + 3))).
  pose proof (byte_to_uint32_range (at_ bs' j)).
  pose proof (byte_to_uint32_range (at_ bs' (j + 1))).
  pose proof (byte_to_uint32_range (at_ bs' (j + 2))).
  pose proof (byte_to_uint32_range (at_ bs' (j + 3))).
  change (2 ^ 8) with 256 in *. change (2 ^ 16) with 65536 in *.
  change (2 ^ 24) with 16777216 in *. change (2 ^ 32) with 4294967296.
  split; [lia|]. split.
  - intros E. split_and!; apply byte_to_uint32_inj; lia.
  - intros (-> & -> & -> & ->). reflexivity.
Qed.

Section RoundTrip.

Context {G : Guest}.
Implicit Types w : World G.

Lemma wasmMalloc_pointer (v : variant) size w p e :
  fst (wasmMalloc (resolver v) size w) = Ret (p, e) ->
  0 <= p < 2 ^ 32 /\ (e <> None -> p = 0).
Proof.
  unfold wasmMalloc. destruct (resolver_frame v "malloc" w) as (r & c & Hr).
  rewrite (bind_run _ _ _ _ _ Hr). destruct r as [fm|].
  - unfold bind, Call.
    destruct (invoke G fm [size] _) as [[[|r0 rest]|msg] m]; cbn; intros [= <- <-].
    + split; [apply uint32_range | done].
    + done.
  - intros [= <- <-]. done.
Qed.

Lemma length_written (mem v : list byte) (a : Z) :
  0 <= a -> hasSize mem a (Z.of_nat (length v)) = true ->
  length (take (Z.to_nat a) mem ++ v ++ drop (Z.to_nat a + length v) mem) = length mem.
Proof.
  intros Ha Hs. unfold hasSize in Hs. apply Z.leb_le in Hs.
  rewrite !length_app, length_take, length_drop. lia.
Qed.

(** X12. What [writeStringToWasm] returns can be read back.  Whenever it
    returns a pointer and no error, reading [len(s)] bytes at that pointer
    from the memory it leaves gives the bytes of [s], for the empty string
    too; the pointer is a 32-bit value, and an error always comes with the
    null pointer.  No assumption is made on the guest or on the cache. *)
Theorem writeStringToWasm_round_trip (v : variant) w (s : string) (p : Z)
    (e : option error) :
  fst (writeStringToWasm (resolver v) s w) = Ret (p, e) ->
  0 <= p < 2 ^ 32 /\
  match e with
  | None =>
      fst (Memory_Read p (len s) (snd (writeStringToWasm (resolver v) s w)))
        = Ret (list_byte_of_string s, true)
  | Some _ => p = 0
  end.
Proof.
  remember (writeStringToWasm (resolver v) s w) as run eqn:E.
  symmetry in E. unfold writeStringToWasm in E.
  destruct (len s =? 0) eqn:Hl.
  - subst run. cbn. intros [= <- <-]. split; [lia|].
    apply Z.eqb_eq in Hl. pose proof Hl as Hs. apply len_zero in Hs. subst s.
    unfold Memory_Read, hasSize. change (len "") with 0. change (0 + 0) with 0.
    destruct (0 <=? Z.of_nat (length (Buffer w))) eqn:Hb; [done|].
    apply Z.leb_gt in Hb. lia.
  - unfold bind at 1 in E.
    pose proof (wasmMalloc_pointer v (uint32 (len s)) w) as Hm.
    destruct (wasmMalloc (resolver v) (uint32 (len s)) w) as [[[ptr [e0|]]|msg] w1].
    + subst run. cbn. intros [= <- <-]. done.
    + destruct (Hm ptr None eq_refl) as [Hp _]. clear Hm.
      unfold bind at 1 in E. unfold Memory_Write in E.
      destruct (hasSize (Buffer w1) ptr (Z.of_nat (length (list_byte_of_string s))))
        eqn:Hsz; cbn [negb] in E.
      * subst run. cbn [fst snd]. intros [= <- <-]. split; [done|].
        unfold Memory_Read, ret. cbn [Buffer set_Buffer snd].
        assert (Hlen : len s = Z.of_nat (length (list_byte_of_string s)))
          by (by rewrite length_list_byte_of_string).
        rewrite Hlen.
        pose proof (length_written _ _ _ (proj1 Hp) Hsz) as Hl'.
        pose proof (write_read_back _ _ _ (proj1 Hp) Hsz) as Hrb.
        unfold mem_bytes in Hrb. rewrite Hrb.
        unfold hasSize in *. rewrite Hl'. by rewrite Hsz.
      * unfold bind in E. destruct (wasmFree (resolver v) ptr w1) as [[r|msg] w2];
          subst run; cbn; [intros [= <- <-]; split; [lia | done] | done].
    + subst run. done.
Qed.

End RoundTrip.

Lemma writeStringToWasm_round_trip_witness :
  fst (Memory_Read 8 4 (snd (writeStringToWasm (resolver ParserInstance) "http" Double.fresh)))
    = Ret (list_byte_of_string "http", true).
Proof.
  assert (H : fst (writeStringToWasm (resolver ParserInstance) "http" Double.fresh)
              = Ret (8, None)) by (vm_compute; reflexivity).
  exact (proj2 (writeStringToWasm_round_trip (G:=Double.guest) ParserInstance Double.fresh
                  "http" 8 None H)).
Defined.

Section ReadErrors.

Context {G : Guest}.
Implicit Types w : World G.

(** X13. An error of [readAdaString] carries no string.  On every path that
    returns an error (no scratch buffer, a failed getter call, a result
    struct or a string outside the memory) the string returned with it is
    empty; this is why an accessor, which drops the error, answers the
    empty string then.  No assumption is made on the guest or on the
    cache. *)
Theorem readAdaString_error_carries_no_string (v : variant) w (fn : funcidx)
    (urlPtr : Z) (s : string) (e : error) :
  fst (readAdaString (resolver v) fn urlPtr w) = Ret (s, Some e) ->
  s = ""%string.
Proof.
  unfold readAdaString. unfold bind at 1.
  destruct (wasmMalloc (resolver v) 8 w) as [[[resultPtr [e0|]]|msg] w1];
    [by intros [= <- _]| |done].
  unfold defer.
  set (body := bind (Call fn [resultPtr; urlPtr]) _).
  assert (Hb : forall s e, fst (body w1) = Ret (s, Some e) -> s = ""%string);
    [|destruct (body w1) as [r w2]; exact (Hb s e)].
  clear s e. intros s e. subst body. unfold bind at 1. unfold Call.
  destruct (invoke G fn [resultPtr; urlPtr] (Buffer w1, globals w1)) as [[results|msg] m];
    [|by intros [= <- _]].
  unfold bind at 1. unfold Memory_Read at 1.
  destruct (hasSize _ resultPtr 8); cbn [negb]; [|by intros [= <- _]].
  destruct (_ || _); [by intros [= <- _]|].
  unfold bind, Memory_Read.
  destruct (hasSize _ _ _); cbn [negb]; [done | by intros [= <- _]].
Qed.

End ReadErrors.

Lemma readAdaString_error_carries_no_string_witness :
  exists s, fst (readAdaString (resolver SharedInstance) 6%nat 70 Double.fresh)
              = Ret (s, Some (ErrCall "out of bounds memory access")) /\
            s = ""%string.
Proof.
  eexists. split; [vm_compute; reflexivity|].
  apply (readAdaString_error_carries_no_string (G:=Double.guest) SharedInstance
           Double.fresh 6%nat 70 _ (ErrCall "out of bounds memory access")).
  vm_compute. reflexivity.
Defined.

(** ** Progress of concurrent callers of [getFunction] *)

Module ConcurrentProgress.
Import Concurrent.

Section Progress.

Context {G : Guest}.
Implicit Types s : parser.

Lemma steps_left_returned p : steps_left p = 0%nat <-> is_returned p = true.
Proof. by destruct p. Qed.

Lemma statement_decreases i p s s' p' :
  statement G i p s = Some (s', p') -> (steps_left p' < steps_left p)%nat.
Proof.
  destruct p; cbn; repeat case_match; intros [= <- <-]; cbn; lia.
Qed.

Lemma holds_write_enabled i p s :
  holds_write p = true -> is_Some (statement G i p s).
Proof. destruct p; try discriminate; intros _; cbn; repeat case_match; eauto. Qed.

Lemma holds_read_enabled i p s :
  holds_read p = true -> is_Some (statement G i p s).
Proof. destruct p; try discriminate; intros _; cbn; eauto. Qed.

Lemma free_lock_enabled i p s :
  writer s = None -> readers s = ∅ -> is_returned p = false ->
  is_Some (statement G i p s).
Proof.
  intros Hw Hr. destruct p; try discriminate; intros _; cbn; rewrite ?Hw;
    repeat case_match; eauto; done.
Qed.

Lemma pending_thread s :
  (0 < pending s)%nat ->
  exists i p, threads s !! i = Some p /\ is_returned p = false.
Proof.
  unfold pending. induction (threads s) as [|p l IH]; cbn; [lia|].
  intros H. destruct (is_returned p) eqn:Hp.
  - apply steps_left_returned in Hp. rewrite Hp in H.
    destruct (IH H) as (i & q & Hi & Hq). by exists (S i), q.
  - by exists 0%nat, p.
Qed.

(** Some goroutine can always execute its statement. *)
Lemma some_goroutine_runs s :
  invariant G s -> (0 < pending s)%nat ->
  exists i p, threads s !! i = Some p /\ is_Some (statement G i p s).
Proof.
  intros [Hc He Hrb Hwb Ht] Hp.
  destruct (writer s) as [j|] eqn:Hw.
  - destruct (lookup_lt_is_Some_2 (threads s) j (Hwb j eq_refl)) as [q Hq].
    exists j, q. split; [done|]. apply holds_write_enabled.
    by apply (Ht j q Hq).
  - destruct (decide (readers s = ∅)) as [Hr|Hr].
    + destruct (pending_thread s Hp) as (i & p & Hi & Hret).
      exists i, p. split; [done|]. by apply free_lock_enabled.
    + apply set_choose_L in Hr as [j Hj].
      destruct (lookup_lt_is_Some_2 (threads s) j (Hrb j Hj)) as [q Hq].
      exists j, q. split; [done|]. apply holds_read_enabled.
      by apply (Ht j q Hq).
Qed.

Lemma sum_list_insert (l : list pc) i p p' :
  l !! i = Some p -> (steps_left p' < steps_left p)%nat ->
  (sum_list (steps_left <$> <[i := p']> l) < sum_list (steps_left <$> l))%nat.
Proof.
  revert i. induction l as [|q l IH]; intros [|i]; csimpl; try done.
  - intros [= ->] Hlt. lia.
  - intros Hi Hlt. specialize (IH i Hi Hlt). lia.
Qed.

Lemma run_statement i p s s' p' :
  threads s !! i = Some p -> statement G i p s = Some (s', p') ->
  (pending (exec G (Run i) s) < pending s)%nat /\
  length (threads (exec G (Run i) s)) = length (threads s).
Proof.
  intros Hi Hs. cbn [exec]. rewrite Hi, Hs. unfold pending. cbn [threads set_threads].
  rewrite (ConcurrentFacts.statement_threads _ _ _ _ _ Hs).
  split; [|by rewrite length_insert].
  apply (sum_list_insert _ _ p); [done|]. by eapply statement_decreases.
Qed.

Lemma pending_bound s : (pending s <= 9 * length (threads s))%nat.
Proof.
  unfold pending. induction (threads s) as [|p l IH]; cbn; [lia|].
  assert (steps_left p <= 9)%nat by (destruct p; cbn; lia). lia.
Qed.

Lemma sum_list_zero (l : list pc) :
  sum_list (steps_left <$> l) = 0%nat ->
  forall i p, l !! i = Some p -> is_returned p = true.
Proof.
  induction l as [|q l IH]; csimpl; intros Hs [|i] p; try done.
  - intros [= ->]. apply steps_left_returned. lia.
  - apply IH. lia.
Qed.

Lemma quiescent s :
  invariant G s -> pending s = 0%nat ->
  Forall (fun p => is_returned p = true) (threads s) /\
  writer s = None /\ readers s = ∅.
Proof.
  intros [Hc He Hrb Hwb Ht] Hp.
  pose proof (sum_list_zero (threads s) Hp) as Hall.
  split_and!.
  - apply Forall_lookup. exact Hall.
  - destruct (writer s) as [j|] eqn:Hw; [|done]. exfalso.
    destruct (lookup_lt_is_Some_2 (threads s) j (Hwb j eq_refl)) as [q Hq].
    pose proof (Hall j q Hq) as Hret.
    assert (holds_write q = true) by (by apply (Ht j q Hq)).
    by destruct q.
  - apply elem_of_equiv_empty_L. intros j Hj.
    destruct (lookup_lt_is_Some_2 (threads s) j (Hrb j Hj)) as [q Hq].
    pose proof (Hall j q Hq) as Hret.
    assert (holds_read q = true) by (by apply (Ht j q Hq)).
    by destruct q.
Qed.

Lemma completes n : forall s,
  (pending s <= n)%nat -> invariant G s ->
  exists schedule,
    (length schedule <= pending s)%nat /\
    only_runs schedule /\
    Forall (fun p => is_returned p = true) (threads (run G schedule s)) /\
    length (threads (run G schedule s)) = length (threads s) /\
    writer (run G schedule s) = None /\ readers (run G schedule s) = ∅ /\
    funcCache s ⊆ funcCache (run G schedule s).
Proof.
  induction n as [|n IH]; intros s Hn Hinv.
  - assert (Hp : pending s = 0%nat) by lia.
    destruct (quiescent s Hinv Hp) as (Hall & Hw & Hr).
    exists []. cbn. split_and!; try done; [lia | constructor].
  - destruct (decide (pending s = 0)%nat) as [Hp|Hp].
    { destruct (quiescent s Hinv Hp) as (Hall & Hw & Hr).
      exists []. cbn. split_and!; try done; [lia | constructor]. }
    destruct (some_goroutine_runs s Hinv ltac:(lia)) as (i & p & Hi & [[s' p'] Hs]).
    destruct (run_statement i p s s' p' Hi Hs) as (Hlt & Hlen).
    pose proof (ConcurrentFacts.exec_invariant (Run i) s Hinv) as Hinv'.
    pose proof (ConcurrentFacts.exec_cache_subseteq (Run i) s Hinv) as Hsub.
    destruct (IH (exec G (Run i) s) ltac:(lia) Hinv')
      as (schedule & Hl & Hruns & Hall & Hlen' & Hw & Hr & Hsub').
    exists (Run i :: schedule).
    change (run G (Run i :: schedule) s) with (run G schedule (exec G (Run i) s)).
    split_and!; try done.
    + cbn. lia.
    + constructor; [by exists i | done].
    + by rewrite Hlen'.
    + by etrans.
Qed.

End Progress.
End ConcurrentProgress.

(** X14. Concurrent callers of [getFunction] cannot block one another for
    ever.  From every state the goroutines of a parser can reach (every
    state that satisfies the invariant of the lock and the cache), letting
    goroutines run, without any new call, brings every pending call to its
    return within nine statements per goroutine; then the lock is free,
    nobody reads or writes, and the cache has kept its entries.  So the
    read lock, the write lock and the deferred unlock never leave a
    deadlock behind. *)
Theorem getFunction_calls_complete (G : Guest) (s : Concurrent.parser) :
  Concurrent.invariant G s ->
  exists schedule,
    (length schedule <= 9 * length (Concurrent.threads s))%nat /\
    only_runs schedule /\
    let s' := Concurrent.run G schedule s in
    Forall (fun p => is_returned p = true) (Concurrent.threads s') /\
    length (Concurrent.threads s') = length (Concurrent.threads s) /\
    Concurrent.writer s' = None /\ Concurrent.readers s' = ∅ /\
    Concurrent.funcCache s ⊆ Concurrent.funcCache s'.
Proof.
  intros Hinv.
  destruct (ConcurrentProgress.completes (pending s) s (le_n _) Hinv)
    as (schedule & Hl & H).
  exists schedule. split; [|exact H].
  pose proof (ConcurrentProgress.pending_bound s). lia.
Qed.

Lemma getFunction_calls_complete_witness :
  let s := Concurrent.run Double.guest first_caller Concurrent.init in
  exists schedule,
    (length schedule <= 18)%nat /\
    only_runs schedule /\
    Forall (fun p => is_returned p = true)
      (Concurrent.threads (Concurrent.run Double.guest schedule s)) /\
    Concurrent.writer (Concurrent.run Double.guest schedule s) = None /\
    Concurrent.readers (Concurrent.run Double.guest schedule s) = ∅.
Proof.
  intros s.
  assert (Hinv : Concurrent.invariant Double.guest s)
    by apply ConcurrentFacts.run_invariant, ConcurrentFacts.invariant_init.
  destruct (getFunction_calls_complete Double.guest s Hinv)
    as (schedule & Hl & Hr & Hall & _ & Hw & Hrd & _).
  assert (Hlen : length (Concurrent.threads s) = 2%nat) by (vm_compute; reflexivity).
  rewrite Hlen in Hl. exists schedule.
  split; [exact Hl|]. split; [exact Hr|]. split; [exact Hall|].
  split; [exact Hw | exact Hrd].
Defined.

(** ** The queries, call by call *)

Section Queries.

Context {G : Guest}.
Implicit Types w : World G.

Lemma accessor_on_shared name ptr w :
  accessor_on Global.lookup_export name ptr w =
  match ExportedFunction G name with
  | None => (Ret ""%string, w)
  | Some f =>
      match readAdaString Global.lookup_export f ptr w with
      | (Ret (s, _), w1) => (Ret s, w1)
      | (Panic msg, w1) => (Panic msg, w1)
      end
  end.
Proof.
  unfold accessor_on, Global.lookup_export. unfold bind at 1. unfold ret at 1.
  change (fun name => ret (ExportedFunction G name)) with (@Global.lookup_export G).
  destruct (ExportedFunction G name) as [f|]; [|done].
  unfold bind.
  by destruct (readAdaString Global.lookup_export f ptr w) as [[[s e]|msg] w1].
Qed.

(** X15. A query touches the guest through its own export only.  A
    predicate makes exactly one guest call, its export on the handle's
    pointer, and leaves the instance as that call left it; without the
    export it makes no guest call.  An accessor whose getter is missing
    makes no guest call either: it allocates no scratch buffer.  With the
    getter, an accessor is [readAdaString] on the handle's pointer with the
    error dropped: the same guest calls, the same instance, and the string
    as answer. *)
Theorem queries_call_only_their_export (v : variant) w (u : ptr_Url) (o : Url)
    (name : string) :
  consistent v w ->
  heap w !! u = Some o ->
  (forall op, (name, op) ∈ predicates (resolver v) ->
     let run := op u w in
     match ExportedFunction G name with
     | None =>
         trace (snd run) = trace w /\
         Buffer (snd run) = Buffer w /\ globals (snd run) = globals w
     | Some f =>
         trace (snd run) =
           EvCall f [cpointer o] (fst (invoke G f [cpointer o] (Buffer w, globals w)))
           :: trace w /\
         (Buffer (snd run), globals (snd run)) =
           snd (invoke G f [cpointer o] (Buffer w, globals w))
     end) /\
  (forall op, (name, op) ∈ accessors (resolver v) ->
     let run := op u w in
     match ExportedFunction G name with
     | None =>
         fst run = Ret ""%string /\ trace (snd run) = trace w /\
         Buffer (snd run) = Buffer w /\ globals (snd run) = globals w
     | Some f =>
         let rd := readAdaString (resolver v) f (cpointer o) w in
         fst run = match fst rd with
                   | Ret (s, _) => Ret s
                   | Panic msg => Panic msg
                   end /\
         trace (snd run) = trace (snd rd) /\
         Buffer (snd run) = Buffer (snd rd) /\ globals (snd run) = globals (snd rd)
     end).
Proof.
  intros Hc H. split; intros op Hop run; subst run.
  - rewrite (predicates_are_predicate _ _ _ Hop), (predicate_on _ name u o w H).
    destruct (variant_run (fun r => callAdaBoolFunction r name (cpointer o)) v w
                (fun r1 r2 Hs => sim_callAdaBoolFunction r1 r2 Hs name (cpointer o)) Hc)
      as (_ & (HB & Hg & _ & Ht) & _).
    cbv beta in *. rewrite HB, Hg, Ht, callAdaBoolFunction_shared.
    destruct (ExportedFunction G name) as [f|]; [|done].
    by destruct (invoke G f [cpointer o] (Buffer w, globals w)) as [res [mem st]].
  - rewrite (accessors_are_accessor _ _ _ Hop).
    rewrite (accessor_on_handle v name u o w H).
    destruct (variant_run (fun r => accessor_on r name (cpointer o)) v w
                (fun r1 r2 Hs => sim_accessor_on r1 r2 Hs name (cpointer o)) Hc)
      as (Hf & (HB & Hg & _ & Ht) & _).
    cbv beta in *. rewrite Hf, HB, Hg, Ht. clear Hf HB Hg Ht.
    rewrite accessor_on_shared.
    destruct (ExportedFunction G name) as [f|]; [|done].
    destruct (variant_run (fun r => readAdaString r f (cpointer o)) v w
                (fun r1 r2 Hs => sim_readAdaString r1 r2 Hs f (cpointer o)) Hc)
      as (Hf & (HB & Hg & _ & Ht) & _).
    cbv beta zeta in *. rewrite Hf, HB, Hg, Ht.
    by destruct (readAdaString Global.lookup_export f (cpointer o) w) as [[[s e]|msg] w1].
Qed.

End Queries.

Lemma queries_call_only_their_export_witness :
  trace (snd (HasPort (resolver ParserInstance) 0%nat parsed))
    = EvCall 7%nat [12] (inl [0]) :: trace parsed /\
  trace (snd (Protocol (resolver ParserInstance) 0%nat parsed)) = trace parsed.
Proof.
  assert (H : heap parsed !! 0%nat = Some (mkUrl 12 true)) by (vm_compute; reflexivity).
  split.
  - destruct (queries_call_only_their_export (G:=Double.guest) ParserInstance parsed
                0%nat (mkUrl 12 true) "ada_has_port" cache_ok_parsed H) as [Hp _].
    specialize (Hp (HasPort (resolver ParserInstance)) ltac:(find_member)).
    assert (E : ExportedFunction Double.guest "ada_has_port" = Some 7%nat) by reflexivity.
    rewrite E in Hp. destruct Hp as [Hp _]. rewrite Hp. f_equal.
  - destruct (queries_call_only_their_export (G:=Double.guest) ParserInstance parsed
                0%nat (mkUrl 12 true) "ada_get_protocol" cache_ok_parsed H) as [_ Ha].
    specialize (Ha (Protocol (resolver ParserInstance)) ltac:(find_member)).
    assert (E : ExportedFunction Double.guest "ada_get_protocol" = None) by reflexivity.
    rewrite E in Ha. exact (proj1 (proj2 Ha)).
Defined.

(** ** Handles and their finalizers *)

Section WellKept.

Context {G : Guest}.
Implicit Types w : World G.
Variable v : variant.

Lemma well_kept_cleared (h : list Url) u :
  well_kept h -> well_kept (<[u := mkUrl 0 false]> h).
Proof.
  intros Hk u' o' H. destruct (decide (u' = u)) as [->|Hne].
  - apply list_lookup_insert_Some in H as [(_ & <- & _)|(Hne & _)]; [|done].
    cbn. split; [discriminate | done].
  - rewrite list_lookup_insert_ne in H by done. by apply (Hk u').
Qed.

Lemma well_kept_new (h : list Url) p :
  0 < p -> well_kept h -> well_kept (h ++ [mkUrl p true]).
Proof.
  intros Hp Hk u o H. apply lookup_app_Some in H as [H|[_ H]]; [by apply (Hk u)|].
  apply list_lookup_singleton_Some in H as [_ <-]. cbn. split; [lia | done].
Qed.

Lemma keeps_well_keeps {A} (c : M G A) : keeps_heap c -> keeps_well c.
Proof. intros Hc w Hk. by rewrite Hc. Qed.

Lemma keeps_well_constructs c : constructs (G:=G) c -> keeps_well c.
Proof.
  intros Hc w Hk. specialize (Hc w). unfold constructor_outcome in Hc.
  destruct (c w) as [[[[u|] [e|]]|msg] w']; cbn [snd]; try done; try (by rewrite Hc).
  destruct Hc as (_ & p & Hp & ->). apply well_kept_new; [lia | done].
Qed.

Lemma keeps_well_do_release (r : release) u :
  keeps_well (do_release (G:=G) (resolver v) r u).
Proof.
  intros w Hk. destruct (heap w !! u) as [o|] eqn:Hu.
  - destruct r.
    + destruct (do_release_fires v ExplicitFree u o w Hu I) as (w' & E & Hh & _).
      rewrite E. cbn [snd]. rewrite Hh. by apply well_kept_cleared.
    + destruct (finalizer o) eqn:Hf.
      * destruct (do_release_fires v Finalizer u o w Hu Hf) as (w' & E & Hh & _).
        rewrite E. cbn [snd]. rewrite Hh. by apply well_kept_cleared.
      * cbn [do_release]. unfold run_finalizer, bind, load. by rewrite Hu, Hf.
  - destruct r; cbn [do_release]; unfold Free, run_finalizer, SetFinalizer, bind, load;
      by rewrite Hu.
Qed.

Lemma keeps_well_api c : keeps_well (api (G:=G) (resolver v) c).
Proof.
  assert (Hb : forall {A B} (c : M G A) (f : A -> B),
             keeps_well c -> keeps_well (let* a := c in ret (f a))).
  { intros A B c0 f Hc w Hk. specialize (Hc w Hk). unfold bind.
    by destruct (c0 w) as [[a|msg] w']. }
  destruct c; cbn [api]; apply Hb.
  - apply keeps_well_constructs, constructs_New.
  - apply keeps_well_constructs, constructs_NewWithBase.
  - apply (keeps_well_do_release ExplicitFree).
  - apply (keeps_well_do_release Finalizer).
  - apply keeps_well_keeps, keeps_heap_predicate.
  - apply keeps_well_keeps, keeps_heap_accessor.
  - apply keeps_well_keeps, keeps_heap_callSetterBool.
  - apply keeps_well_keeps, keeps_heap_callSetterVoid.
Qed.

(** X16. The live handles are exactly those with a registered finalizer.
    This holds of the handles of a new parser, which has none, and every
    call of the API keeps it, whatever the guest does and also when the
    call panics: a constructor registers the finalizer on the handle it
    returns, whose pointer is not null; [Free] clears the finalizer and the
    pointer together; and so does the finalizer when it runs.  So the
    garbage collector is never left a finalizer for a freed handle, and no
    live handle is without one. *)
Theorem live_handles_have_finalizers (calls : list api_call) w :
  well_kept (heap w) ->
  well_kept (heap (snd (run_api (resolver v) calls w))).
Proof.
  revert w. induction calls as [|c calls IH]; intros w Hk; [done|].
  cbn [run_api]. pose proof (keeps_well_api c w Hk) as Hc.
  destruct (api (resolver v) c w) as [r w1]. cbn [snd] in Hc.
  specialize (IH w1 Hc). by destruct (run_api (resolver v) calls w1) as [rs w2].
Qed.

End WellKept.

Lemma live_handles_have_finalizers_witness :
  well_kept (heap (snd (run_api (resolver ParserInstance)
                          [DoNew "http"; DoNew "xyz"; DoFree 0%nat; DoFinalizer 0%nat]
                          Double.fresh))).
Proof.
  apply (live_handles_have_finalizers (G:=Double.guest) ParserInstance).
  intros u o H. discriminate H.
Defined.

(** ** Accessors and setters on a nil handle *)

Section NilHandle.

Context {G : Guest}.
Implicit Types w : World G.

(** X17. On a nil handle the two files part.  An accessor or a setter of
    the parser package starts with [u.parser]: it panics at once and
    touches nothing.  In [goadawasm.go] the export is resolved first: when
    it is missing the method answers as on any handle (the empty string,
    [false], nothing) and does not panic; when it is there an accessor
    panics at [u.cpointer] before any guest call, and a setter panics there
    only after the value has been copied into guest memory, the deferred
    [free] of the value's buffer being its last guest call. *)
Theorem nil_handle_tells_the_packages_apart w (u : ptr_Url) (name value : string) :
  heap w !! u = None ->
  (accessor Pool.getFunction name u w
     = (Panic "invalid memory address or nil pointer dereference", w) /\
   callSetterBool Pool.getFunction name value u w
     = (Panic "invalid memory address or nil pointer dereference", w) /\
   callSetterVoid Pool.getFunction name value u w
     = (Panic "invalid memory address or nil pointer dereference", w)) /\
  (ExportedFunction G name = None ->
   accessor Global.lookup_export name u w = (Ret ""%string, w) /\
   callSetterBool Global.lookup_export name value u w = (Ret false, w) /\
   callSetterVoid Global.lookup_export name value u w = (Ret tt, w)) /\
  (forall f, ExportedFunction G name = Some f ->
   accessor Global.lookup_export name u w
     = (Panic "invalid memory address or nil pointer dereference", w) /\
   forall valuePtr,
     fst (writeStringToWasm Global.lookup_export value w) = Ret (valuePtr, None) ->
     let w1 := snd (writeStringToWasm Global.lookup_export value w) in
     callSetterBool Global.lookup_export name value u w
       = (Panic "invalid memory address or nil pointer dereference",
          snd (wasmFree Global.lookup_export valuePtr w1)) /\
     callSetterVoid Global.lookup_export name value u w
       = (Panic "invalid memory address or nil pointer dereference",
          snd (wasmFree Global.lookup_export valuePtr w1))).
Proof.
  intros Hu.
  assert (Hr : receiver Global.lookup_export u w = (Ret tt, w)) by reflexivity.
  assert (Hl : forall w', heap w' = heap w ->
             load u w' = (Panic "invalid memory address or nil pointer dereference", w')).
  { intros w' Hh. unfold load. by rewrite Hh, Hu. }
  split_and!.
  - unfold accessor, bind. by rewrite (receiver_nil u w Hu).
  - unfold callSetterBool, bind. by rewrite (receiver_nil u w Hu).
  - unfold callSetterVoid, bind. by rewrite (receiver_nil u w Hu).
  - intros He.
    assert (Hn : Global.lookup_export name w = (Ret None, w))
      by (unfold Global.lookup_export, ret; by rewrite He).
    unfold accessor, callSetterBool, callSetterVoid.
    by rewrite !(bind_run _ _ _ _ _ Hr), !(bind_run _ _ _ _ _ Hn).
  - intros f He.
    assert (Hn : Global.lookup_export name w = (Ret (Some f), w))
      by (unfold Global.lookup_export, ret; by rewrite He).
    split.
    + unfold accessor.
      rewrite (bind_run _ _ _ _ _ Hr), (bind_run _ _ _ _ _ Hn).
      unfold bind. by rewrite (Hl w eq_refl).
    + intros valuePtr Hw w1.
      pose proof (keeps_heap_writeStringToWasm SharedInstance value w) as Hh.
      change (@resolver G SharedInstance) with (@Global.lookup_export G) in Hh.
      fold w1 in Hh.
      assert (Hrun : writeStringToWasm Global.lookup_export value w
                     = (Ret (valuePtr, None), w1)).
      { rewrite (surjective_pairing (writeStringToWasm _ _ _)). by rewrite Hw. }
      unfold callSetterBool, callSetterVoid.
      rewrite !(bind_run _ _ _ _ _ Hr), !(bind_run _ _ _ _ _ Hn),
        !(bind_run _ _ _ _ _ Hrun).
      unfold defer, bind. by rewrite (Hl w1 Hh).
Qed.

End NilHandle.

Lemma nil_handle_tells_the_packages_apart_witness :
  accessor Pool.getFunction "ada_get_protocol" 0%nat Double.fresh
    = (Panic "invalid memory address or nil pointer dereference", Double.fresh) /\
  accessor Global.lookup_export "ada_get_protocol" 0%nat Double.fresh
    = (Ret ""%string, Double.fresh).
Proof.
  destruct (nil_handle_tells_the_packages_apart (G:=Double.guest) Double.fresh 0%nat
              "ada_get_protocol" "x" eq_refl) as ((Hp & _) & Hg & _).
  split; [exact Hp | exact (proj1 (Hg eq_refl))].
Defined.
